(** * gofika/bip39: entropy <-> mnemonic codec, word splitting and
      language detection, embedded from the Go sources.

    The sources hold mnemonic.go in three revisions of its history:
    - src/unnamed/part_001, the first: the standard codec only;
    - src/mnemonic.go, which adds the generalized (arbitrary-length) codec on
      top of a [computeChecksum] that returns the first hash byte (module
      [V1] below);
    - src/unnamed/part_002, the latest: [computeChecksum] returns the whole
      hash, the generalized encoder refuses more than 1024 bytes and the
      generalized decoder works on [big.Int] masks (module [V2] below).
    The standard codec has the same body in the three of them, up to the
    names of the size checks and to where the first hash byte is taken.
    language.go comes in two revisions whose splitting function has the same
    body ([splitMnemonic], then [SplitMnemonic]); bip39.go, with
    [DetectLanguage], follows the README in src/README.md.

    Conventions of the embedding.
    - A Go [byte] is a [Byte.byte]; a [[]byte] is a [list byte].
    - A Go [string] is the list of runes that [for _, r := range s] yields
      (code points as [N]); every string function used by the sources
      ([strings.TrimSpace], [strings.FieldsFunc], [strings.Join], map lookup
      by string) works rune by rune on valid UTF-8.
    - [*big.Int] is [Z]; Go [int] values that hold slice lengths and bit
      positions are [nat] (they stay far below 2^63); the two places where
      the sources compute with a fixed width ([extractBits]' accumulator and
      the [int64] mask of the decoder of [V1]) have the wrap-around written
      out.
    - A call returns [Ok v], [Err e] for the package's error values, or
      [Panic] where Go would panic (index out of range, division by zero).
    - The word tables (package [wordlists]) are data that is not part of the
      sources: the registry of the ten tables is a parameter, and the
      theorems ask of a table what the codec relies on ([wfData]).
    - [crypto/sha256] is written out after FIPS 180-4 and checked on its test
      vectors. *)

From Stdlib Require Import ZArith NArith List Lia Bool.
From Stdlib Require Import Strings.Byte.
From stdpp Require Import base list option gmap.
Import ListNotations.

Local Open Scope Z_scope.

(* ------------------------------------------------------------------ *)
(** ** Bytes *)

Definition byteZ (b : byte) : Z := Z.of_N (Byte.to_N b).

Definition byte_of_Z (z : Z) : byte :=
  match Byte.of_N (Z.to_N (z mod 256)) with
  | Some b => b
  | None => x00
  end.

(* ------------------------------------------------------------------ *)
(** ** crypto/sha256 (FIPS 180-4), the hash behind [computeChecksum] *)

Module SHA256.

Definition w32 (x : Z) : Z := x mod 2 ^ 32.

Definition rotr (n x : Z) : Z :=
  w32 (Z.lor (Z.shiftr x n) (Z.shiftl x (32 - n))).

Definition Ch (x y z : Z) : Z :=
  Z.lxor (Z.land x y) (Z.land (Z.lxor x 0xffffffff) z).
Definition Maj (x y z : Z) : Z :=
  Z.lxor (Z.lxor (Z.land x y) (Z.land x z)) (Z.land y z).
Definition Sigma0 (x : Z) : Z :=
  Z.lxor (Z.lxor (rotr 2 x) (rotr 13 x)) (rotr 22 x).
Definition Sigma1 (x : Z) : Z :=
  Z.lxor (Z.lxor (rotr 6 x) (rotr 11 x)) (rotr 25 x).
Definition sigma0 (x : Z) : Z :=
  Z.lxor (Z.lxor (rotr 7 x) (rotr 18 x)) (Z.shiftr x 3).
Definition sigma1 (x : Z) : Z :=
  Z.lxor (Z.lxor (rotr 17 x) (rotr 19 x)) (Z.shiftr x 10).

(** The first sixty-four primes. *)
Definition isPrime (n : nat) : bool :=
  forallb (fun d => negb (n mod d =? 0)%nat) (seq 2 (n - 2)).

Definition primes : list Z :=
  Eval vm_compute in map Z.of_nat (List.filter isPrime (seq 2 310)).

(** The integer cube root, one bit at a time from bit [n - 1] down. *)
Fixpoint cbrt_bits (n : nat) (x r : Z) : Z :=
  match n with
  | O => r
  | S n' =>
      let r' := r + 2 ^ Z.of_nat n' in
      cbrt_bits n' x (if r' * r' * r' <=? x then r' else r)
  end.

(** The round constants: the first 32 bits of the fractional parts of the
    cube roots of the primes. *)
Definition K : list Z :=
  Eval vm_compute in
    map (fun p => w32 (cbrt_bits 36 (p * 2 ^ 96) 0)) primes.

(** The chaining value: eight 32-bit words. *)
Record state := State
  { sa : Z; sb : Z; sc : Z; sd : Z; se : Z; sf : Z; sg : Z; sh : Z }.

(** The initial value: the first 32 bits of the fractional parts of the
    square roots of the first eight primes. *)
Definition frac_sqrt (p : Z) : Z := w32 (Z.sqrt (p * 2 ^ 64)).

Definition init : state :=
  Eval vm_compute in
    State (frac_sqrt 2) (frac_sqrt 3) (frac_sqrt 5) (frac_sqrt 7)
          (frac_sqrt 11) (frac_sqrt 13) (frac_sqrt 17) (frac_sqrt 19).

(** [x] on [n] bytes, most significant first. *)
Definition be_bytes (n : nat) (x : Z) : list byte :=
  map (fun i => byte_of_Z (Z.shiftr x (8 * Z.of_nat i))) (rev (seq 0 n)).

(** Padding: 0x80, zero bytes up to 56 mod 64, the bit length on 8 bytes. *)
Definition pad (msg : list byte) : list byte :=
  let l := length msg in
  let k := ((119 - l mod 64) mod 64)%nat in
  msg ++ [x80] ++ repeat x00 k ++ be_bytes 8 (8 * Z.of_nat l).

Definition be_word (bs : list byte) : Z :=
  fold_left (fun acc b => acc * 256 + byteZ b) bs 0.

Fixpoint chunks (fuel n : nat) (l : list byte) : list (list byte) :=
  match fuel with
  | O => []
  | S fuel' =>
      match l with
      | [] => []
      | _ => take n l :: chunks fuel' n (drop n l)
      end
  end.

(** The message schedule: sixteen words of the block, then forty-eight
    derived ones. *)
Fixpoint expand (n : nat) (w : list Z) : list Z :=
  match n with
  | O => w
  | S n' =>
      let t := length w in
      let x := w32 (sigma1 (nth (t - 2) w 0) + nth (t - 7) w 0
                    + sigma0 (nth (t - 15) w 0) + nth (t - 16) w 0) in
      expand n' (w ++ [x])
  end.

Definition schedule (block : list byte) : list Z :=
  expand 48 (map be_word (chunks 16 4 block)).

Definition round (s : state) (kw : Z * Z) : state :=
  let t1 := sh s + Sigma1 (se s) + Ch (se s) (sf s) (sg s) + fst kw + snd kw in
  let t2 := Sigma0 (sa s) + Maj (sa s) (sb s) (sc s) in
  State (w32 (t1 + t2)) (sa s) (sb s) (sc s)
        (w32 (sd s + t1)) (se s) (sf s) (sg s).

Definition compress (h : state) (block : list byte) : state :=
  let s := fold_left round (combine K (schedule block)) h in
  State (w32 (sa h + sa s)) (w32 (sb h + sb s))
        (w32 (sc h + sc s)) (w32 (sd h + sd s))
        (w32 (se h + se s)) (w32 (sf h + sf s))
        (w32 (sg h + sg s)) (w32 (sh h + sh s)).

Definition digest (s : state) : list byte :=
  be_bytes 4 (sa s) ++ be_bytes 4 (sb s) ++ be_bytes 4 (sc s)
  ++ be_bytes 4 (sd s) ++ be_bytes 4 (se s) ++ be_bytes 4 (sf s)
  ++ be_bytes 4 (sg s) ++ be_bytes 4 (sh s).

(** [h := sha256.New(); h.Write(msg); h.Sum(nil)] *)
Definition Sum256 (msg : list byte) : list byte :=
  let p := pad msg in
  digest (fold_left compress (chunks (length p) 64 p) init).

End SHA256.


(* ------------------------------------------------------------------ *)
(** ** Results of a call *)

(** The error values of the package; [ErrLanguageNotSupported] stands for
    the [fmt.Errorf] of [NewMnemonic]. *)
Inductive error : Set :=
| ErrInvalidEntropy
| ErrInvalidMnemonic
| ErrInvalidNumberWords
| ErrInvalidNumberEntropy
| ErrChecksumIncorrect
| ErrEntropyTooLarge
| ErrLanguageNotSupported.

Inductive outcome (A : Type) : Type :=
| Ok (a : A)
| Err (e : error)
| Panic.

Arguments Ok {A} a.
Arguments Err {A} e.
Arguments Panic {A}.

Definition bind {A B} (x : outcome A) (k : A -> outcome B) : outcome B :=
  match x with
  | Ok a => k a
  | Err e => Err e
  | Panic => Panic
  end.

Notation "'let*' x ':=' c 'in' k" := (bind c (fun x => k))
  (at level 10, x name, c at level 100, k at level 200).

Fixpoint mapM {A B} (f : A -> outcome B) (l : list A) : outcome (list B) :=
  match l with
  | [] => Ok []
  | a :: l' => let* b := f a in let* bs := mapM f l' in Ok (b :: bs)
  end.

(* ------------------------------------------------------------------ *)
(** ** Strings: runes, [strings.TrimSpace], [strings.FieldsFunc],
       [strings.Join] *)

Abbreviation gostring := (list N).

(** [unicode.IsSpace]: the Latin-1 cases and the White_Space table. *)
Definition IsSpace (r : N) : bool :=
  if (r <=? 0xFF)%N then
    ((9 <=? r) && (r <=? 13) || (r =? 0x20) || (r =? 0x85) || (r =? 0xA0))%N
  else
    ((r =? 0x1680) || (0x2000 <=? r) && (r <=? 0x200A) || (r =? 0x2028)
     || (r =? 0x2029) || (r =? 0x202F) || (r =? 0x205F) || (r =? 0x3000))%N.

Fixpoint TrimLeft (s : gostring) : gostring :=
  match s with
  | [] => []
  | r :: s' => if IsSpace r then TrimLeft s' else s
  end.

Definition TrimSpace (s : gostring) : gostring :=
  rev (TrimLeft (rev (TrimLeft s))).

(** [strings.FieldsFunc]: [f] is called once on each rune, in order; here
    it also threads the state [S] that the closure of the caller updates.
    [start] is the field being read ([None] is Go's [start < 0]). *)
Fixpoint FieldsFunc_from {S : Type} (f : N -> S -> bool * S) (s : gostring)
    (start : option gostring) (st : S) : list gostring * S :=
  match s with
  | [] => (match start with Some w => [w] | None => [] end, st)
  | r :: s' =>
      let '(sep, st') := f r st in
      if sep then
        match start with
        | Some w =>
            let '(spans, st'') := FieldsFunc_from f s' None st' in
            (w :: spans, st'')
        | None => FieldsFunc_from f s' None st'
        end
      else
        FieldsFunc_from f s'
          (Some (match start with Some w => w ++ [r] | None => [r] end)) st'
  end.

Definition FieldsFunc {S : Type} (s : gostring) (f : N -> S -> bool * S)
    (st : S) : list gostring * S :=
  FieldsFunc_from f s None st.

Fixpoint Join (elems : list gostring) (sep : gostring) : gostring :=
  match elems with
  | [] => []
  | [w] => w
  | w :: ws => w ++ sep ++ Join ws sep
  end.

(* ------------------------------------------------------------------ *)
(** ** language.go *)

Inductive Language : Set :=
| English
| Japanese
| Korean
| Spanish
| ChineseSimplified
| ChineseTraditional
| French
| Italian
| Czech
| Portuguese.

#[global] Instance Language_eq_dec : EqDecision Language.
Proof. solve_decision. Defined.

Definition japaneseSpace : N := 0x3000%N.
Definition regularSpace : gostring := [0x20%N].

(** [delimiters = map[rune]struct{}{'\t', '\n', '\v', '\f', '\r', ' '}] *)
Definition delimiters : gset N :=
  list_to_set [9%N; 10%N; 11%N; 12%N; 13%N; 32%N].

Record languageData : Type := LanguageData
  { words : list gostring;
    wordsMap : gmap gostring Z }.

(** The callback that [SplitMnemonic] hands to [FieldsFunc]; the state is the
    captured variable [delimiter]. *)
Definition isDelimiter (r : N) (delimiter : gostring) : bool * gostring :=
  if (r =? japaneseSpace)%N then (true, [r])
  else (bool_decide (r ∈ delimiters), delimiter).

Definition SplitMnemonic (mnemonic : gostring) : list gostring * gostring :=
  FieldsFunc (TrimSpace mnemonic) isDelimiter regularSpace.

(** The unexported [splitMnemonic] of the first revision of language.go has
    the same body. *)
Definition splitMnemonic (mnemonic : gostring) : list gostring * gostring :=
  FieldsFunc (TrimSpace mnemonic) isDelimiter regularSpace.

Definition NormalizeMnemonic (mnemonic : gostring) : gostring :=
  let '(words, delimiter) := SplitMnemonic mnemonic in
  Join words delimiter.

Definition allLanguages : list Language :=
  [English; Japanese; Korean; Spanish; ChineseSimplified;
   ChineseTraditional; French; Italian; Czech; Portuguese].

(** [innerLanguages()]: the map from the ten languages to their tables, as an
    association list in the order of the constants.  [wordlists] stands for
    the tables of package [wordlists]. *)
Definition innerLanguages (wordlists : Language -> languageData)
  : list (Language * languageData) :=
  map (fun lang => (lang, wordlists lang)) allLanguages.

(* ------------------------------------------------------------------ *)
(** ** The option structs and their setters *)

Record DetectLanguageOptions : Type :=
  { languages : list Language }.
Definition DetectLanguageOption : Type :=
  DetectLanguageOptions -> DetectLanguageOptions.
Definition WithLanguages (languages : list Language) : DetectLanguageOption :=
  fun _ => {| languages := languages |}.

Record NewMnemonicOptions : Type :=
  { language : Language }.
Definition NewMnemonicOption : Type :=
  NewMnemonicOptions -> NewMnemonicOptions.
Definition WithLanguage (language : Language) : NewMnemonicOption :=
  fun _ => {| language := language |}.

Definition applyOptions {O : Type} (opts : list (O -> O)) (options : O) : O :=
  fold_left (fun o opt => opt o) opts options.

(* ------------------------------------------------------------------ *)
(** ** math/big and encoding/binary, as far as the sources use them *)

(** [x.SetBytes(buf)]: [buf] read as a big-endian unsigned integer. *)
Definition big_SetBytes (buf : list byte) : Z :=
  fold_left (fun acc b => acc * 256 + byteZ b) buf 0.

Fixpoint Bytes_loop (fuel : nat) (x : Z) (acc : list byte) : list byte :=
  match fuel with
  | O => acc
  | S fuel' =>
      if x =? 0 then acc
      else Bytes_loop fuel' (x / 256) (byte_of_Z x :: acc)
  end.

(** [x.Bytes()]: the absolute value of [x] as a big-endian byte slice without
    leading zero bytes (empty for 0). *)
Definition big_Bytes (x : Z) : list byte :=
  Bytes_loop (S (Z.to_nat (Z.log2 (Z.abs x)))) (Z.abs x) [].

(** [z.Div(x, y)]: Euclidean division; a zero divisor panics. *)
Definition big_Div (x y : Z) : outcome Z :=
  if y =? 0 then Panic
  else if 0 <? y then Ok (x / y)
  else Ok (- (x / - y)).

(** [uint16(index)] and [binary.BigEndian.PutUint16]. *)
Definition uint16 (x : Z) : Z := x mod 65536.
Definition PutUint16 (v : Z) : list byte :=
  [byte_of_Z (Z.shiftr v 8); byte_of_Z v].

(** Two's complement wrap-around of a 64-bit signed [int] / [int64]. *)
Definition wrap64 (z : Z) : Z := (z + 2 ^ 63) mod 2 ^ 64 - 2 ^ 63.

(** [x << n] on [int64] with a non-negative count: counts of 64 and more
    give 0. *)
Definition shl64 (x : Z) (n : nat) : Z :=
  if (64 <=? n)%nat then 0 else wrap64 (Z.shiftl x (Z.of_nat n)).

(* ------------------------------------------------------------------ *)
(** ** mnemonic.go: what both revisions share *)

Record Mnemonic : Type :=
  { wordList : list gostring;
    wordMap : gmap gostring Z;
    delimiter : gostring }.

Section Registry.

(** The tables of package [wordlists]. *)
Variable wordlists : Language -> languageData.

Definition NewMnemonic (opts : list NewMnemonicOption) : outcome Mnemonic :=
  let options := applyOptions opts {| language := English |} in
  let delimiter := regularSpace in
  let language := language options in
  let delimiter :=
    if decide (language = Japanese) then [japaneseSpace] else delimiter in
  let possible := innerLanguages wordlists in
  match list_find (fun p => fst p = language) possible with
  | None => Err ErrLanguageNotSupported
  | Some (_, (_, data)) =>
      Ok {| wordList := words data;
            wordMap := wordsMap data;
            delimiter := delimiter |}
  end.

End Registry.

Definition validWordsSizes : list nat := [12; 15; 18; 21; 24]%nat.
Definition isValidWordsSize (count : nat) : bool :=
  bool_decide (count ∈ validWordsSizes).

Definition validEntropyBits : list nat := [128; 160; 192; 224; 256]%nat.
Definition isValidEntropyBits (entropyBits : nat) : bool :=
  bool_decide (entropyBits ∈ validEntropyBits).

Definition wordLengthChecksumMasks : gmap nat Z :=
  list_to_map [(12%nat, 15); (15%nat, 31); (18%nat, 63); (21%nat, 127);
               (24%nat, 255)].

Definition wordLengthChecksumShifts : gmap nat Z :=
  list_to_map [(12%nat, 16); (15%nat, 8); (18%nat, 4); (21%nat, 2)].

(** The loop of [extractBits]: [i] is the loop counter, [n] the number of
    iterations left, [result] the accumulator (an [int]). *)
Fixpoint extractBits_loop (data : list byte) (start i n : nat) (result : Z)
  : outcome Z :=
  match n with
  | O => Ok result
  | S n' =>
      let byteIndex := ((start + i) / 8)%nat in
      let bitIndex := ((start + i) mod 8)%nat in
      match data !! byteIndex with
      | None => Panic
      | Some b =>
          extractBits_loop data start (S i) n'
            (wrap64 (Z.lor (wrap64 (Z.shiftl result 1))
                       (Z.land (Z.shiftr (byteZ b) (7 - Z.of_nat bitIndex)) 1)))
      end
  end.

Definition extractBits (data : list byte) (start length : nat) : outcome Z :=
  extractBits_loop data start 0 length 0.

(** [m.wordList[index]] *)
Definition wordAt (m : Mnemonic) (index : Z) : outcome gostring :=
  if index <? 0 then Panic
  else match wordList m !! Z.to_nat index with
       | Some w => Ok w
       | None => Panic
       end.

(** The packing loop of the two encoders:
    [for i := 0; i < wordCount; i++ { index := extractBits(buf, i*11, 11);
      words = append(words, m.wordList[index]) }] *)
Definition packWords (m : Mnemonic) (buf : list byte) (wordCount : nat)
  : outcome (list gostring) :=
  mapM (fun i => let* index := extractBits buf (i * 11) 11 in wordAt m index)
       (seq 0 wordCount).

(** The loop of the decoders that folds the word indices into a [big.Int]. *)
Fixpoint decodeWords (m : Mnemonic) (words : list gostring) (b : Z)
  : outcome Z :=
  match words with
  | [] => Ok b
  | word :: rest =>
      match wordMap m !! word with
      | None => Err ErrInvalidMnemonic
      | Some index =>
          let wordBytes := PutUint16 (uint16 index) in
          let b := b * 2048 in
          let b := Z.lor b (big_SetBytes wordBytes) in
          decodeWords m rest b
      end
  end.

Definition padByteSlice (slice : list byte) (length : nat) : list byte :=
  let offset := Z.of_nat length - Z.of_nat (List.length slice) in
  if offset <=? 0 then slice
  else repeat x00 (Z.to_nat offset) ++ slice.

(* ------------------------------------------------------------------ *)
(** ** src/mnemonic.go: [computeChecksum] returns the first hash byte *)

Module V1.

Definition computeChecksum (entropy : list byte) : outcome byte :=
  match SHA256.Sum256 entropy with
  | b :: _ => Ok b
  | [] => Panic
  end.

Definition EntropyToMnemonic (m : Mnemonic) (entropy : list byte)
  : outcome gostring :=
  if negb (isValidEntropyBits (length entropy * 8)) then Err ErrInvalidEntropy
  else
    let* checksum := computeChecksum entropy in
    let entropyWithChecksum := entropy ++ [checksum] in
    let* words :=
      packWords m entropyWithChecksum (length entropyWithChecksum * 8 / 11) in
    Ok (Join words (delimiter m)).

Definition EntropyFromMnemonic (m : Mnemonic) (mnemonic : gostring)
  : outcome (list byte) :=
  let '(words, _) := SplitMnemonic mnemonic in
  let wordsCount := length words in
  if negb (isValidWordsSize wordsCount) then Err ErrInvalidNumberWords
  else
    let* b := decodeWords m words 0 in
    match wordLengthChecksumMasks !! wordsCount with
    | None => Panic
    | Some checksumMask =>
        let checksum := Z.land b checksumMask in
        let* b := big_Div b (checksumMask + 1) in
        let entropy := big_Bytes b in
        let entropy := padByteSlice entropy (wordsCount / 3 * 4) in
        let* entropyChecksumByte := computeChecksum entropy in
        let entropyChecksum := byteZ entropyChecksumByte in
        let* entropyChecksum :=
          if negb (wordsCount =? 24)%nat then
            match wordLengthChecksumShifts !! wordsCount with
            | None => Panic
            | Some checksumShift => big_Div entropyChecksum checksumShift
            end
          else Ok entropyChecksum in
        if negb (checksum =? entropyChecksum) then Err ErrChecksumIncorrect
        else Ok entropy
    end.

(** [entropyWithChecksum := make([]byte, len(entropy)+checksumBytes)],
    [copy(entropyWithChecksum, entropy)] and the loop that stores [checksum]
    at [len(entropy)+i] for [i < checksumBytes]. *)
Definition fillChecksum (entropy : list byte) (checksumBytes : nat)
    (checksum : byte) : list byte :=
  fold_left (fun buf i => <[(length entropy + i)%nat := checksum]> buf)
            (seq 0 checksumBytes)
            (entropy ++ repeat x00 checksumBytes).

(** Padding to the next 32-bit boundary, the first step of the generalized
    encoder. *)
Definition padEntropy (entropy : list byte) : list byte :=
  let entropyBits := (length entropy * 8)%nat in
  let remainder := (entropyBits mod 32)%nat in
  if negb (remainder =? 0)%nat then
    let paddingBytes := ((32 - remainder) / 8)%nat in
    entropy ++ repeat x00 paddingBytes
  else entropy.

Definition ArbitraryEntropyToMnemonic (m : Mnemonic) (entropy : list byte)
  : outcome gostring :=
  if (length entropy =? 0)%nat then Err ErrInvalidEntropy
  else
    let entropy := padEntropy entropy in
    let* checksum := computeChecksum entropy in
    let checksumBits := (length entropy / 4)%nat in
    let checksumBytes := ((checksumBits + 7) / 8)%nat in
    let entropyWithChecksum := fillChecksum entropy checksumBytes checksum in
    let totalBits := (length entropy * 8 + checksumBits)%nat in
    let wordCount := (totalBits / 11)%nat in
    let* words := packWords m entropyWithChecksum wordCount in
    Ok (Join words (delimiter m)).

(** The loop of the decoder that repeats the bits of the first hash byte
    below the first eight checksum bits. *)
Definition repeatBits (entropyChecksumByte : byte) (additionalBits : nat)
    (entropyChecksum : Z) : Z :=
  fold_left
    (fun ec i =>
       let bit :=
         Z.land (Z.shiftr (byteZ entropyChecksumByte)
                          (7 - Z.of_nat (i mod 8))) 1 in
       if bit =? 1 then Z.setbit ec (Z.of_nat (additionalBits - 1 - i))
       else ec)
    (seq 0 additionalBits) entropyChecksum.

(** The block of the decoder that builds [entropyChecksum], the checksum the
    decoded one is compared with, from the first hash byte. *)
Definition expectedChecksum (checksumBits : nat) (entropyChecksumByte : byte)
  : Z :=
  if (checksumBits <=? 8)%nat then
    let checksumShift := (8 - checksumBits)%nat in
    Z.shiftr (byteZ entropyChecksumByte) (Z.of_nat checksumShift)
  else
    let additionalBits := (checksumBits - 8)%nat in
    repeatBits entropyChecksumByte additionalBits
      (Z.shiftl (byteZ entropyChecksumByte) (Z.of_nat additionalBits)).

Definition ArbitraryMnemonicToEntropy (m : Mnemonic) (mnemonic : gostring)
  : outcome (list byte) :=
  let '(words, _) := SplitMnemonic mnemonic in
  let wordsCount := length words in
  if (wordsCount =? 0)%nat || negb (wordsCount mod 3 =? 0)%nat
  then Err ErrInvalidNumberWords
  else
    let entropySize := (wordsCount / 3 * 4)%nat in
    let checksumBits := (entropySize / 4)%nat in
    let* b := decodeWords m words 0 in
    (* big.NewInt((1 << checksumBits) - 1): the argument is an int64 *)
    let checksumMask := wrap64 (shl64 1 checksumBits - 1) in
    let checksum := Z.land b checksumMask in
    let* b := big_Div b (checksumMask + 1) in
    let entropy := big_Bytes b in
    let entropy := padByteSlice entropy entropySize in
    let* entropyChecksumByte := computeChecksum entropy in
    let entropyChecksum := expectedChecksum checksumBits entropyChecksumByte in
    if negb (checksum =? entropyChecksum) then Err ErrChecksumIncorrect
    else Ok entropy.

End V1.

(* ------------------------------------------------------------------ *)
(** ** src/unnamed/part_002, the later revision of mnemonic.go:
       [computeChecksum] returns the whole hash, the generalized encoder
       bounds its input and copies the hash bytes it needs *)

Module V2.

Definition computeChecksum (entropy : list byte) : outcome (list byte) :=
  Ok (SHA256.Sum256 entropy).

(** [s[i]] on a byte slice. *)
Definition index (s : list byte) (i : nat) : outcome byte :=
  match s !! i with
  | Some b => Ok b
  | None => Panic
  end.

Definition EntropyToMnemonic (m : Mnemonic) (entropy : list byte)
  : outcome gostring :=
  if negb (isValidEntropyBits (length entropy * 8)) then Err ErrInvalidEntropy
  else
    let* checksumBytes := computeChecksum entropy in
    let* checksum := index checksumBytes 0 in
    let entropyWithChecksum := entropy ++ [checksum] in
    let* words :=
      packWords m entropyWithChecksum (length entropyWithChecksum * 8 / 11) in
    Ok (Join words (delimiter m)).

Definition EntropyFromMnemonic (m : Mnemonic) (mnemonic : gostring)
  : outcome (list byte) :=
  let '(words, _) := SplitMnemonic mnemonic in
  let wordsCount := length words in
  if negb (isValidWordsSize wordsCount) then Err ErrInvalidNumberWords
  else
    let* b := decodeWords m words 0 in
    match wordLengthChecksumMasks !! wordsCount with
    | None => Panic
    | Some checksumMask =>
        let checksum := Z.land b checksumMask in
        let* b := big_Div b (checksumMask + 1) in
        let entropy := big_Bytes b in
        let entropy := padByteSlice entropy (wordsCount / 3 * 4) in
        let* entropyChecksumHash := computeChecksum entropy in
        let* h0 := index entropyChecksumHash 0 in
        let entropyChecksum := byteZ h0 in
        let* entropyChecksum :=
          if negb (wordsCount =? 24)%nat then
            match wordLengthChecksumShifts !! wordsCount with
            | None => Panic
            | Some checksumShift => big_Div entropyChecksum checksumShift
            end
          else Ok entropyChecksum in
        if negb (checksum =? entropyChecksum) then Err ErrChecksumIncorrect
        else Ok entropy
    end.

(** [checksumHash[:checksumBytes]] *)
Definition sliceTo (s : list byte) (n : nat) : outcome (list byte) :=
  if (n <=? length s)%nat then Ok (take n s) else Panic.

(** [copy(dst[at:], src)] for [at <= len(dst)]: as many bytes as fit. *)
Definition copyAt (dst : list byte) (at_ : nat) (src : list byte)
  : list byte :=
  take at_ dst ++ take (length dst - at_) src
  ++ drop (at_ + length src) dst.

(** [entropyWithChecksum := make([]byte, len(entropy)+checksumBytes)],
    [copy(entropyWithChecksum, entropy)] and
    [copy(entropyWithChecksum[len(entropy):], checksumHash[:checksumBytes])]. *)
Definition appendChecksum (entropy : list byte) (checksumBytes : nat)
    (checksumHash : list byte) : outcome (list byte) :=
  let entropyWithChecksum := repeat x00 (length entropy + checksumBytes) in
  let entropyWithChecksum := copyAt entropyWithChecksum 0 entropy in
  let* hashPrefix := sliceTo checksumHash checksumBytes in
  Ok (copyAt entropyWithChecksum (length entropy) hashPrefix).

Definition ArbitraryEntropyToMnemonic (m : Mnemonic) (entropy : list byte)
  : outcome gostring :=
  if (length entropy =? 0)%nat then Err ErrInvalidEntropy
  else
    let entropy := V1.padEntropy entropy in
    if (1024 <? length entropy)%nat then Err ErrEntropyTooLarge
    else
      let* checksumHash := computeChecksum entropy in
      let checksumBits := (length entropy / 4)%nat in
      let checksumBytes := ((checksumBits + 7) / 8)%nat in
      let* entropyWithChecksum :=
        appendChecksum entropy checksumBytes checksumHash in
      let totalBits := (length entropy * 8 + checksumBits)%nat in
      let wordCount := (totalBits / 11)%nat in
      let* words := packWords m entropyWithChecksum wordCount in
      Ok (Join words (delimiter m)).

(** The loop of the decoder that reads [checksumBytes] hash bytes into a
    [big.Int]. *)
Fixpoint readHash (entropyChecksumHash : list byte) (i n : nat)
    (entropyChecksum : Z) : outcome Z :=
  match n with
  | O => Ok entropyChecksum
  | S n' =>
      let entropyChecksum := Z.shiftl entropyChecksum 8 in
      let* h := index entropyChecksumHash i in
      readHash entropyChecksumHash (S i) n' (Z.lor entropyChecksum (byteZ h))
  end.

(** The block of the decoder that builds [entropyChecksum], the checksum the
    decoded one is compared with, from the hash. *)
Definition expectedChecksum (checksumBits : nat)
    (entropyChecksumHash : list byte) : outcome Z :=
  if (checksumBits <=? 8)%nat then
    let checksumShift := (8 - checksumBits)%nat in
    let* h0 := index entropyChecksumHash 0 in
    Ok (Z.shiftr (byteZ h0) (Z.of_nat checksumShift))
  else
    let checksumBytes := ((checksumBits + 7) / 8)%nat in
    let* entropyChecksum := readHash entropyChecksumHash 0 checksumBytes 0 in
    let extraBits := (checksumBytes * 8 - checksumBits)%nat in
    if (0 <? extraBits)%nat
    then Ok (Z.shiftr entropyChecksum (Z.of_nat extraBits))
    else Ok entropyChecksum.

Definition ArbitraryMnemonicToEntropy (m : Mnemonic) (mnemonic : gostring)
  : outcome (list byte) :=
  let '(words, _) := SplitMnemonic mnemonic in
  let wordsCount := length words in
  if (wordsCount =? 0)%nat || negb (wordsCount mod 3 =? 0)%nat
  then Err ErrInvalidNumberWords
  else
    let entropySize := (wordsCount / 3 * 4)%nat in
    let checksumBits := (entropySize / 4)%nat in
    let* b := decodeWords m words 0 in
    let checksumMask := Z.shiftl 1 (Z.of_nat checksumBits) in
    let checksumMask := checksumMask - 1 in
    let checksum := Z.land b checksumMask in
    let divisor := checksumMask + 1 in
    let* b := big_Div b divisor in
    let entropy := big_Bytes b in
    let entropy := padByteSlice entropy entropySize in
    let* entropyChecksumHash := computeChecksum entropy in
    let* entropyChecksum := expectedChecksum checksumBits entropyChecksumHash in
    if negb (checksum =? entropyChecksum) then Err ErrChecksumIncorrect
    else Ok entropy.

End V2.

(* ------------------------------------------------------------------ *)
(** ** bip39.go: [DetectLanguage] *)

Section Detect.

Variable wordlists : Language -> languageData.

(** The candidate set before any word is read: all ten languages, narrowed
    to the supplied ones when the supplied slice is not empty, and to
    Japanese when the delimiter found is the ideographic space.  The result
    of [DetectLanguage] lists the remaining keys of a Go map, whose order
    Go leaves open; here they come in the order of the constants. *)
Definition candidates (options : DetectLanguageOptions)
    (delimiter : gostring) : list (Language * languageData) :=
  let possible := innerLanguages wordlists in
  let possible :=
    if (0 <? length (languages options))%nat then
      filter (fun p => fst p ∈ languages options) possible
    else possible in
  if decide (delimiter = [japaneseSpace]) then
    filter (fun p => fst p = Japanese) possible
  else possible.

(** One turn of the loop over the words: the languages whose table lacks
    [word] are deleted. *)
Definition narrow (word : gostring) (possible : list (Language * languageData))
  : list (Language * languageData) :=
  filter (fun p => is_Some (wordsMap (snd p) !! word)) possible.

Fixpoint detectLoop (words : list gostring)
    (possible : list (Language * languageData)) : list Language * bool :=
  match words with
  | [] => (map fst possible, (0 <? length possible)%nat)
  | word :: rest =>
      let possible := narrow word possible in
      if (length possible =? 1)%nat then (map fst possible, true)
      else detectLoop rest possible
  end.

Definition DetectLanguage (mnemonic : gostring)
    (opts : list DetectLanguageOption) : list Language * bool :=
  let options := applyOptions opts {| languages := [] |} in
  let '(words, delimiter) := splitMnemonic mnemonic in
  detectLoop words (candidates options delimiter).

(** The reference the early return is compared with: the same loop, but
    every word of the mnemonic is checked before the result is built. *)
Fixpoint exhaustiveLoop (words : list gostring)
    (possible : list (Language * languageData)) : list Language * bool :=
  match words with
  | [] => (map fst possible, (0 <? length possible)%nat)
  | word :: rest => exhaustiveLoop rest (narrow word possible)
  end.

Definition DetectLanguage_exhaustive (mnemonic : gostring)
    (opts : list DetectLanguageOption) : list Language * bool :=
  let options := applyOptions opts {| languages := [] |} in
  let '(words, delimiter) := splitMnemonic mnemonic in
  exhaustiveLoop words (candidates options delimiter).

(** The candidates that are left once the words [words] have been checked,
    one after the other. *)
Definition narrowAll (words : list gostring)
    (possible : list (Language * languageData))
  : list (Language * languageData) :=
  fold_left (fun left word => narrow word left) words possible.

End Detect.

(* ------------------------------------------------------------------ *)
(** ** What the codec needs of a word table, and sample tables *)

(** A table as the registry promises it: 2048 words, the reverse map sends
    every word to its position, and no word is empty or holds a white-space
    rune (so a word is never cut by [SplitMnemonic]). *)
Definition wordOK (w : gostring) : bool :=
  match w with
  | [] => false
  | _ => forallb (fun r => negb (IsSpace r)) w
  end.

Definition wfData (d : languageData) : bool :=
  (length (words d) =? 2048)%nat
  && forallb (fun p => bool_decide (wordsMap d !! snd p = Some (Z.of_nat (fst p))))
             (combine (seq 0 (length (words d))) (words d))
  && forallb wordOK (words d).

(** Sample tables for evaluation: the word at position [i] of the table with
    tag [c] is [c] followed by three letters that spell [i] in base 16. *)
Definition sampleWord (c : N) (i : nat) : gostring :=
  [c; N.of_nat (97 + i / 256); N.of_nat (97 + (i / 16) mod 16);
   N.of_nat (97 + i mod 16)].

Definition sampleTable (c : N) : languageData :=
  let ws := map (sampleWord c) (seq 0 2048) in
  {| words := ws;
     wordsMap := list_to_map (combine ws (map Z.of_nat (seq 0 2048))) |}.

Definition languageTag (l : Language) : N :=
  match l with
  | English => 0x45 | Japanese => 0x4A | Korean => 0x4B | Spanish => 0x53
  | ChineseSimplified => 0x43 | ChineseTraditional => 0x54 | French => 0x46
  | Italian => 0x49 | Czech => 0x5A | Portuguese => 0x50
  end%N.

Definition sampleWordlists (l : Language) : languageData :=
  sampleTable (languageTag l).

(** A registry of one-word tables, for evaluation: the table of a language
    holds the first sample word of that language and nothing else. *)
Definition pocketWordlists (l : Language) : languageData :=
  {| words := [sampleWord (languageTag l) 0];
     wordsMap := {[ sampleWord (languageTag l) 0 := 0 ]} |}.

(* ------------------------------------------------------------------ *)
(** ** Vocabulary of the statements *)

(** The separators of [SplitMnemonic] as one predicate. *)
Definition isSeparator (r : N) : bool :=
  (r =? japaneseSpace)%N || bool_decide (r ∈ delimiters).

Definition nonEmpty (w : gostring) : bool :=
  match w with
  | [] => false
  | _ => true
  end.

(** Splitting as the specification words it: cut the text at every separator,
    then drop the empty pieces, so that a run of separators cuts once. *)
Definition splitAtEach (p : N -> bool) (s : gostring) : list gostring :=
  fold_right
    (fun r acc =>
       if p r then [] :: acc
       else match acc with
            | [] => [[r]]
            | w :: ws => (r :: w) :: ws
            end)
    [[]] s.

Definition splitOnRuns (p : N -> bool) (s : gostring) : list gostring :=
  List.filter nonEmpty (splitAtEach p s).

Definition containsRune (r : N) (s : gostring) : bool :=
  existsb (N.eqb r) s.

(** Prefixing the field that [FieldsFunc] is reading to the pieces of the
    rest of the text. *)
Definition attach (start : option gostring) (l : list gostring)
  : list gostring :=
  match start, l with
  | Some w, p :: ps => (w ++ p) :: ps
  | Some w, [] => [w]
  | None, _ => l
  end.

(** Word index [i] of a buffer: bits [11*i .. 11*i+10], counted from the most
    significant bit of the buffer. *)
Definition indexAt (buf : list byte) (i : nat) : Z :=
  (big_SetBytes buf
   / 2 ^ (8 * Z.of_nat (length buf) - 11 * Z.of_nat i - 11)) mod 2048.

Definition nthWord (m : Mnemonic) (index : Z) : gostring :=
  default [] (wordList m !! Z.to_nat index).

Definition packedWords (m : Mnemonic) (buf : list byte) (wordCount : nat)
  : list gostring :=
  map (fun i => nthWord m (indexAt buf i)) (seq 0 wordCount).

(** The table of a [Mnemonic]. *)
Definition tableOf (m : Mnemonic) : languageData :=
  {| words := wordList m; wordsMap := wordMap m |}.

Definition wfMnemonic (m : Mnemonic) : bool :=
  wfData (tableOf m)
  && bool_decide (delimiter m = regularSpace \/ delimiter m = [japaneseSpace]).

(** The integer that a mnemonic spells: its word indices, eleven bits each,
    most significant first. *)
Definition mnemonicValue (m : Mnemonic) (mnemonic : gostring) : outcome Z :=
  decodeWords m (fst (SplitMnemonic mnemonic)) 0.

(** The leading [k] bits of a byte string, as an integer. *)
Definition leadingBits (k : nat) (h : list byte) : Z :=
  big_SetBytes h / 2 ^ (8 * Z.of_nat (length h) - Z.of_nat k).

(** The buffer that the standard encoder packs. *)
Definition standardBuffer (e : list byte) : list byte :=
  e ++ [nth 0 (SHA256.Sum256 e) x00].

(** Sample instances. *)
Definition sampleMnemonic (l : Language) : Mnemonic :=
  {| wordList := words (sampleWordlists l);
     wordMap := wordsMap (sampleWordlists l);
     delimiter := if decide (l = Japanese) then [japaneseSpace]
                  else regularSpace |}.

Definition runes (l : list Z) : gostring := map Z.to_N l.

(** The buffers that the two generalized encoders pack, for padded entropy
    [p]: the later revision appends hash bytes, the earlier one copies of the
    first hash byte. *)
Definition hashBuffer (p : list byte) : list byte :=
  p ++ take ((length p / 4 + 7) / 8) (SHA256.Sum256 p).

Definition byteBuffer (p : list byte) : list byte :=
  p ++ repeat (nth 0 (SHA256.Sum256 p) x00) ((length p / 4 + 7) / 8).

(** A text that does not begin with white space. *)
Definition startsClean (s : gostring) : Prop :=
  match s with
  | [] => True
  | r :: _ => IsSpace r = false
  end.

(** Sample inputs. *)
Definition sampleEntropy16 : list byte := repeat "127"%byte 16.
Definition sampleEntropy32 : list byte := repeat "171"%byte 32.
Definition sampleEntropy5 : list byte :=
  ["001"; "002"; "003"; "004"; "005"]%byte.
Definition zeros36 : list byte := repeat x00 36.
Definition zeros256 : list byte := repeat x00 256.
Definition zeros1025 : list byte := repeat x00 1025.
Definition twoWords : gostring := runes [0x61; 0x20; 0x62].
Definition wordThenStranger : gostring :=
  sampleWord (languageTag English) 0 ++ runes [0x20; 0x7A; 0x7A].
Definition ideographicFirst : gostring := runes [0x3000; 0x61; 0x20; 0x62].

(* ------------------------------------------------------------------ *)
(** ** mnemonic.go: [GenerateMnemonic] *)

(** [entropyBits] is a Go [int] that the caller chooses, so it may be
    negative. *)
Record GenerateMnemonicOptions : Type :=
  { entropyBits : Z }.
Definition GenerateMnemonicOption : Type :=
  GenerateMnemonicOptions -> GenerateMnemonicOptions.
Definition WithEntropyBits (entropyBits : Z) : GenerateMnemonicOption :=
  fun _ => {| entropyBits := entropyBits |}.

(** [isValidEntropyBits] on an [int] that may be negative: a negative value
    is not in the slice. *)
Definition isValidEntropyBitsInt (bits : Z) : bool :=
  (0 <=? bits) && isValidEntropyBits (Z.to_nat bits).

(** [rand.Read] is the one effect of the package: the random source is the
    argument [read], which is asked once for [entropySize] bytes and answers
    with the filled slice or with an error of its own, of type [E], that
    [GenerateMnemonic] hands on as it is ([inl]). *)
Definition GenerateMnemonic {E : Type} (read : nat -> E + list byte)
    (m : Mnemonic) (opts : list GenerateMnemonicOption)
  : E + outcome gostring :=
  let options := applyOptions opts {| entropyBits := 128 |} in
  if negb (isValidEntropyBitsInt (entropyBits options)) then
    inr (Err ErrInvalidEntropy)
  else
    let entropySize := Z.to_nat (entropyBits options / 8) in
    match read entropySize with
    | inl err => inl err
    | inr entropy => inr (V1.EntropyToMnemonic m entropy)
    end.

(* ------------------------------------------------------------------ *)
(** ** bip39.go: [IsMnemonicValid] *)

Section Validity.

Variable wordlists : Language -> languageData.

(** The loop over the detected languages: the first language that cannot be
    built or that does not decode the mnemonic ends it with [false]. *)
Fixpoint validLoop (mnemonic : gostring) (languages : list Language)
  : outcome bool :=
  match languages with
  | [] => Ok true
  | lang :: rest =>
      match NewMnemonic wordlists [WithLanguage lang] with
      | Panic => Panic
      | Err _ => Ok false
      | Ok m =>
          match V1.EntropyFromMnemonic m mnemonic with
          | Panic => Panic
          | Err _ => Ok false
          | Ok _ => validLoop mnemonic rest
          end
      end
  end.

Definition IsMnemonicValid (mnemonic : gostring) : outcome bool :=
  let '(languages, ok) := DetectLanguage wordlists mnemonic [] in
  if negb ok then Ok false
  else validLoop mnemonic languages.

End Validity.

(* ------------------------------------------------------------------ *)
(** ** Further vocabulary of the statements *)

(** The reverse map of a table holds nothing but the words of the table, each
    at its position. *)
Definition mapInTable (d : languageData) : bool :=
  bool_decide
    (map_Forall (fun w i => 0 <= i /\ words d !! Z.to_nat i = Some w)
                (wordsMap d)).

(** No word of the table of [lang] is a word of another language. *)
Definition exclusive (wordlists : Language -> languageData) (lang : Language)
  : bool :=
  forallb
    (fun l =>
       let table := wordsMap (wordlists l) in
       bool_decide (l = lang)
       || forallb (fun w => negb (bool_decide (is_Some (table !! w))))
                  (words (wordlists lang)))
    allLanguages.

(** What every word that [SplitMnemonic] returns is: not empty and free of
    separators. *)
Definition cleanWord (w : gostring) : Prop :=
  nonEmpty w = true /\ forallb (fun r => negb (isSeparator r)) w = true.

(** Every word is a key of the reverse map. *)
Definition allKnown (m : Mnemonic) (ws : list gostring) : bool :=
  forallb (fun w => bool_decide (is_Some (wordMap m !! w))) ws.

(** The checksum bits of the earlier revision of the generalized codec: the
    leading [k] bits of the first hash byte written [checksumBytes] times. *)
Definition repeatedBits (k : nat) (h0 : byte) : Z :=
  leadingBits k (repeat h0 ((k + 7) / 8)).

(** The [Mnemonic] that [NewMnemonic(WithLanguage(lang))] builds. *)
Definition mnemonicOf (wordlists : Language -> languageData) (lang : Language)
  : Mnemonic :=
  {| wordList := words (wordlists lang);
     wordMap := wordsMap (wordlists lang);
     delimiter := if decide (lang = Japanese) then [japaneseSpace]
                  else regularSpace |}.

(** Sample texts over the sample English table: the words at positions
    0 (eleven times) and 3, which spell sixteen zero bytes, and the words at
    positions 0, 0 and 1, which spell four zero bytes in the generalized
    codec. *)
Definition zeroPhrase : gostring :=
  Join (repeat (sampleWord (languageTag English) 0) 11
        ++ [sampleWord (languageTag English) 3]) regularSpace.
Definition shortPhrase : gostring :=
  Join [sampleWord (languageTag English) 0; sampleWord (languageTag English) 0;
        sampleWord (languageTag English) 1] regularSpace.

(** A random source that answers with [n] copies of one byte. *)
Definition constantSource (b : byte) (n : nat) : unit + list byte :=
  inr (repeat b n).

(* ================================================================== *)
(** * Properties *)

(* ------------------------------------------------------------------ *)
(** ** Bytes and the hash *)

Lemma byteZ_range (b : byte) : 0 <= byteZ b < 256.
Proof.
  unfold byteZ. pose proof (Byte.to_N_bounded b) as H. lia.
Qed.

Lemma byte_of_Z_byteZ (b : byte) : byte_of_Z (byteZ b) = b.
Proof.
  unfold byte_of_Z. pose proof (byteZ_range b) as H.
  rewrite Z.mod_small by lia. unfold byteZ. rewrite N2Z.id.
  now rewrite Byte.of_to_N.
Qed.

Lemma byteZ_byte_of_Z (z : Z) : byteZ (byte_of_Z z) = z mod 256.
Proof.
  unfold byte_of_Z, byteZ.
  pose proof (Z.mod_pos_bound z 256 ltac:(lia)) as H.
  destruct (Byte.of_N (Z.to_N (z mod 256))) as [b|] eqn:E.
  - apply Byte.to_of_N in E. rewrite E. lia.
  - apply Byte.of_N_None_iff in E. lia.
Qed.

Lemma byteZ_inj (a b : byte) : byteZ a = byteZ b -> a = b.
Proof.
  intros H. rewrite <- (byte_of_Z_byteZ a), <- (byte_of_Z_byteZ b).
  now rewrite H.
Qed.

Lemma byteZ_x00 : byteZ x00 = 0.
Proof. reflexivity. Qed.

Lemma Sum256_length (msg : list byte) : length (SHA256.Sum256 msg) = 32%nat.
Proof.
  unfold SHA256.Sum256, SHA256.digest.
  repeat rewrite length_app. unfold SHA256.be_bytes.
  repeat rewrite length_map. reflexivity.
Qed.

Example sha256_empty :
  SHA256.Sum256 [] =
  map byte_of_Z
    [0xe3;0xb0;0xc4;0x42;0x98;0xfc;0x1c;0x14;0x9a;0xfb;0xf4;0xc8;
     0x99;0x6f;0xb9;0x24;0x27;0xae;0x41;0xe4;0x64;0x9b;0x93;0x4c;
     0xa4;0x95;0x99;0x1b;0x78;0x52;0xb8;0x55].
Proof. vm_compute. reflexivity. Qed.

Example sha256_abc :
  SHA256.Sum256 (map byte_of_Z [0x61;0x62;0x63]) =
  map byte_of_Z
    [0xba;0x78;0x16;0xbf;0x8f;0x01;0xcf;0xea;0x41;0x41;0x40;0xde;
     0x5d;0xae;0x22;0x23;0xb0;0x03;0x61;0xa3;0x96;0x17;0x7a;0x9c;
     0xb4;0x10;0xff;0x61;0xf2;0x00;0x15;0xad].
Proof. vm_compute. reflexivity. Qed.

(** A message of two blocks (56 bytes):
    abcdbcdecdefdefgefghfghighijhijkijkljklmklmnlmnomnopnopq. *)
Example sha256_two_blocks :
  SHA256.Sum256
    (map byte_of_Z
       [0x61;0x62;0x63;0x64;0x62;0x63;0x64;0x65;0x63;0x64;0x65;0x66;
        0x64;0x65;0x66;0x67;0x65;0x66;0x67;0x68;0x66;0x67;0x68;0x69;
        0x67;0x68;0x69;0x6a;0x68;0x69;0x6a;0x6b;0x69;0x6a;0x6b;0x6c;
        0x6a;0x6b;0x6c;0x6d;0x6b;0x6c;0x6d;0x6e;0x6c;0x6d;0x6e;0x6f;
        0x6d;0x6e;0x6f;0x70;0x6e;0x6f;0x70;0x71]) =
  map byte_of_Z
    [0x24;0x8d;0x6a;0x61;0xd2;0x06;0x38;0xb8;0xe5;0xc0;0x26;0x93;
     0x0c;0x3e;0x60;0x39;0xa3;0x3c;0xe4;0x59;0x64;0xff;0x21;0x67;
     0xf6;0xec;0xed;0xd4;0x19;0xdb;0x06;0xc1].
Proof. vm_compute. reflexivity. Qed.

(* ------------------------------------------------------------------ *)
(** ** Big-endian values *)

Lemma SetBytes_acc (l : list byte) (a : Z) :
  fold_left (fun acc b => acc * 256 + byteZ b) l a
  = a * 256 ^ Z.of_nat (length l) + big_SetBytes l.
Proof.
  unfold big_SetBytes. revert a.
  induction l as [|b l IH]; intros a; simpl fold_left.
  - simpl. lia.
  - rewrite (IH (a * 256 + byteZ b)), (IH (0 * 256 + byteZ b)).
    rewrite length_cons, Nat2Z.inj_succ, Z.pow_succ_r by lia. lia.
Qed.

Lemma SetBytes_nil : big_SetBytes [] = 0.
Proof. reflexivity. Qed.

Lemma SetBytes_cons (b : byte) (l : list byte) :
  big_SetBytes (b :: l) = byteZ b * 256 ^ Z.of_nat (length l) + big_SetBytes l.
Proof.
  unfold big_SetBytes at 1. simpl fold_left. rewrite SetBytes_acc. lia.
Qed.

Lemma SetBytes_app (l1 l2 : list byte) :
  big_SetBytes (l1 ++ l2)
  = big_SetBytes l1 * 256 ^ Z.of_nat (length l2) + big_SetBytes l2.
Proof.
  unfold big_SetBytes at 1. rewrite fold_left_app.
  fold (big_SetBytes l1). apply SetBytes_acc.
Qed.

Lemma SetBytes_range (l : list byte) :
  0 <= big_SetBytes l < 256 ^ Z.of_nat (length l).
Proof.
  induction l as [|b l IH].
  - rewrite SetBytes_nil. simpl. lia.
  - rewrite SetBytes_cons, length_cons, Nat2Z.inj_succ, Z.pow_succ_r by lia.
    pose proof (byteZ_range b). nia.
Qed.

Lemma SetBytes_zeros (k : nat) (l : list byte) :
  big_SetBytes (repeat x00 k ++ l) = big_SetBytes l.
Proof.
  induction k as [|k IH]; [reflexivity|].
  simpl repeat. rewrite <- app_comm_cons, SetBytes_cons, IH, byteZ_x00. lia.
Qed.

Lemma SetBytes_inj (l1 l2 : list byte) :
  length l1 = length l2 -> big_SetBytes l1 = big_SetBytes l2 -> l1 = l2.
Proof.
  revert l2. induction l1 as [|a l1 IH]; intros [|b l2] Hlen Hval;
    try discriminate; [reflexivity|].
  simpl in Hlen. injection Hlen as Hlen.
  rewrite !SetBytes_cons, Hlen in Hval.
  pose proof (SetBytes_range l1) as R1. pose proof (SetBytes_range l2) as R2.
  rewrite Hlen in R1.
  pose proof (byteZ_range a). pose proof (byteZ_range b).
  set (p := 256 ^ Z.of_nat (length l2)) in *.
  assert (byteZ a = byteZ b) by nia.
  f_equal; [now apply byteZ_inj | apply IH; [assumption | nia]].
Qed.

(** [x.Bytes()] followed by [padByteSlice] restores a slice of known length
    from its value. *)
Lemma Bytes_loop_val (fuel : nat) (x : Z) (acc : list byte) :
  0 <= x < 256 ^ Z.of_nat fuel ->
  big_SetBytes (Bytes_loop fuel x acc)
  = x * 256 ^ Z.of_nat (length acc) + big_SetBytes acc.
Proof.
  revert x acc. induction fuel as [|fuel IH]; intros x acc Hx; simpl.
  - simpl in Hx. assert (x = 0) by lia. subst. lia.
  - destruct (Z.eqb_spec x 0) as [->|Hne]; [lia|].
    rewrite IH.
    + rewrite SetBytes_cons, byteZ_byte_of_Z, length_cons, Nat2Z.inj_succ,
        Z.pow_succ_r by lia.
      pose proof (Z.div_mod x 256 ltac:(lia)). nia.
    + rewrite Nat2Z.inj_succ, Z.pow_succ_r in Hx by lia.
      split; [apply Z.div_pos; lia|].
      apply Z.div_lt_upper_bound; lia.
Qed.

Lemma Bytes_loop_len (fuel n : nat) (x : Z) (acc : list byte) :
  0 <= x < 256 ^ Z.of_nat n ->
  (length (Bytes_loop fuel x acc) <= n + length acc)%nat.
Proof.
  revert n x acc. induction fuel as [|fuel IH]; intros n x acc Hx; simpl.
  - lia.
  - destruct (Z.eqb_spec x 0) as [->|Hne]; [lia|].
    destruct n as [|n]; [simpl in Hx; lia|].
    rewrite Nat2Z.inj_succ, Z.pow_succ_r in Hx by lia.
    specialize (IH n (x / 256) (byte_of_Z x :: acc)).
    rewrite length_cons in IH.
    assert (0 <= x / 256 < 256 ^ Z.of_nat n).
    { split; [apply Z.div_pos; lia|]. apply Z.div_lt_upper_bound; lia. }
    specialize (IH H). lia.
Qed.

Lemma Bytes_val (x : Z) : 0 <= x -> big_SetBytes (big_Bytes x) = x.
Proof.
  intros Hx. unfold big_Bytes. rewrite Z.abs_eq by assumption.
  rewrite Bytes_loop_val; [rewrite SetBytes_nil; simpl length; simpl Z.of_nat; rewrite Z.pow_0_r; lia|].
  split; [assumption|].
  destruct (Z.eq_dec x 0) as [->|Hne]; [vm_compute; reflexivity|].
  pose proof (Z.log2_spec x ltac:(lia)) as [_ Hlt].
  pose proof (Z.log2_nonneg x).
  rewrite Nat2Z.inj_succ, Z2Nat.id by assumption.
  eapply Z.lt_le_trans; [exact Hlt|].
  change 256 with (2 ^ 8). rewrite <- Z.pow_mul_r by lia.
  apply Z.pow_le_mono_r; lia.
Qed.

Lemma Bytes_len (x : Z) (n : nat) :
  0 <= x < 256 ^ Z.of_nat n -> (length (big_Bytes x) <= n)%nat.
Proof.
  intros Hx. unfold big_Bytes. rewrite Z.abs_eq by lia.
  pose proof (Bytes_loop_len (S (Z.to_nat (Z.log2 x))) n x [] Hx) as H.
  change (length (@nil byte)) with 0%nat in H. lia.
Qed.

Lemma padByteSlice_length (s : list byte) (n : nat) :
  (length s <= n)%nat -> length (padByteSlice s n) = n.
Proof.
  intros H. unfold padByteSlice.
  destruct (Z.leb_spec (Z.of_nat n - Z.of_nat (length s)) 0).
  - lia.
  - rewrite length_app, repeat_length. lia.
Qed.

Lemma padByteSlice_val (s : list byte) (n : nat) :
  big_SetBytes (padByteSlice s n) = big_SetBytes s.
Proof.
  unfold padByteSlice.
  destruct (Z.leb_spec (Z.of_nat n - Z.of_nat (length s)) 0);
    [reflexivity | apply SetBytes_zeros].
Qed.

Lemma pad_Bytes_SetBytes (e : list byte) :
  padByteSlice (big_Bytes (big_SetBytes e)) (length e) = e.
Proof.
  pose proof (SetBytes_range e) as R.
  apply SetBytes_inj.
  - apply padByteSlice_length, Bytes_len, R.
  - rewrite padByteSlice_val. apply Bytes_val. lia.
Qed.

(** ** Bit arithmetic *)

Lemma land_1_mod (x : Z) : Z.land x 1 = x mod 2.
Proof. change 1 with (Z.ones 1). rewrite Z.land_ones by lia. reflexivity. Qed.

Lemma land_shift_low (a b k : Z) :
  0 <= k -> 0 <= b < 2 ^ k -> Z.land (a * 2 ^ k) b = 0.
Proof.
  intros Hk Hb. apply Z.bits_inj'. intros n Hn.
  rewrite Z.land_spec, Z.bits_0.
  destruct (Z.lt_ge_cases n k) as [Hlt|Hge].
  - rewrite Z.mul_pow2_bits_low by lia. reflexivity.
  - destruct (Z.eq_dec b 0) as [->|Hne].
    + rewrite Z.bits_0. apply andb_false_r.
    + rewrite (Z.bits_above_log2 b n); [apply andb_false_r | lia |].
      assert (Z.log2 b < k) by (apply Z.log2_lt_pow2; lia). lia.
Qed.

Lemma lor_shift_add (a b k : Z) :
  0 <= k -> 0 <= b < 2 ^ k -> Z.lor (a * 2 ^ k) b = a * 2 ^ k + b.
Proof.
  intros Hk Hb. pose proof (land_shift_low a b k Hk Hb) as H0.
  rewrite <- Z.lxor_lor by exact H0.
  now rewrite Z.add_nocarry_lxor by exact H0.
Qed.

Lemma wrap64_small (z : Z) : - 2 ^ 63 <= z < 2 ^ 63 -> wrap64 z = z.
Proof. intros H. unfold wrap64. rewrite Z.mod_small; lia. Qed.

Lemma mod_pow2_succ (x i : Z) :
  0 <= i -> x mod 2 ^ (i + 1) = 2 * ((x / 2) mod 2 ^ i) + x mod 2.
Proof.
  intros Hi. rewrite Z.pow_add_r, Z.pow_1_r by lia.
  rewrite (Z.mul_comm (2 ^ i) 2).
  rewrite Z.rem_mul_r by lia. lia.
Qed.

Lemma div_pow2_succ (x s : Z) : 0 <= s -> x / 2 ^ (s + 1) = x / 2 ^ s / 2.
Proof.
  intros Hs. rewrite Z.pow_add_r, Z.pow_1_r by lia.
  rewrite Z.div_div by lia. reflexivity.
Qed.

(** Bit [8*q + r] of a buffer, counted from its most significant bit, is
    bit [7 - r] of byte [q]. *)
Lemma byte_bit (data : list byte) (q r : nat) (b : byte) :
  (r < 8)%nat -> data !! q = Some b ->
  Z.land (Z.shiftr (byteZ b) (7 - Z.of_nat r)) 1
  = (big_SetBytes data
     / 2 ^ (8 * Z.of_nat (length data) - 1 - Z.of_nat (8 * q + r))) mod 2.
Proof.
  intros Hr. revert q.
  induction data as [|a data IH]; intros q Hq; [discriminate|].
  rewrite land_1_mod, Z.shiftr_div_pow2 by lia.
  rewrite SetBytes_cons, length_cons.
  pose proof (SetBytes_range data) as R.
  set (n := Z.of_nat (length data)) in *.
  assert (Hn : 0 <= n) by lia.
  assert (E256 : 256 ^ n = 2 ^ (8 * n)).
  { change 256 with (2 ^ 8). rewrite <- Z.pow_mul_r by lia. reflexivity. }
  destruct q as [|q].
  - simpl in Hq. injection Hq as ->.
    replace (8 * Z.of_nat (S (length data)) - 1 - Z.of_nat (8 * 0 + r))
      with (8 * n + (7 - Z.of_nat r)) by lia.
    rewrite Z.pow_add_r, <- Z.div_div by lia.
    rewrite <- E256.
    rewrite Z.div_add_l by lia.
    rewrite (Z.div_small (big_SetBytes data)) by lia.
    rewrite Z.add_0_r. reflexivity.
  - simpl in Hq. specialize (IH q Hq).
    rewrite land_1_mod, Z.shiftr_div_pow2 in IH by lia. rewrite IH.
    fold n.
    set (p := 8 * n - 1 - Z.of_nat (8 * q + r)).
    assert (Hp : 0 <= p).
    { apply lookup_lt_Some in Hq. lia. }
    replace (8 * Z.of_nat (S (length data)) - 1 - Z.of_nat (8 * S q + r))
      with p by lia.
    rewrite E256.
    replace (8 * n) with (p + (1 + Z.of_nat (8 * q + r))) by lia.
    rewrite Z.pow_add_r by lia.
    set (j := Z.of_nat (8 * q + r)).
    replace (byteZ a * (2 ^ p * 2 ^ (1 + j)) + big_SetBytes data)
      with (byteZ a * 2 ^ (1 + j) * 2 ^ p + big_SetBytes data) by ring.
    rewrite Z.div_add_l by lia.
    rewrite Z.pow_add_r, Z.pow_1_r by lia.
    replace (byteZ a * (2 * 2 ^ j) + big_SetBytes data / 2 ^ p)
      with (big_SetBytes data / 2 ^ p + byteZ a * 2 ^ j * 2) by ring.
    symmetry. apply Z_mod_plus_full.
Qed.

Section ExtractBits.

Variable data : list byte.

Lemma extractBits_loop_spec (start n i : nat) (result : Z) :
  (start + i + n <= 8 * length data)%nat -> (i + n <= 62)%nat ->
  result = (big_SetBytes data
            / 2 ^ (8 * Z.of_nat (length data) - Z.of_nat start - Z.of_nat i))
           mod 2 ^ Z.of_nat i ->
  extractBits_loop data start i n result
  = Ok ((big_SetBytes data
         / 2 ^ (8 * Z.of_nat (length data) - Z.of_nat start
                - Z.of_nat (i + n)))
        mod 2 ^ Z.of_nat (i + n)).
Proof.
  set (V := big_SetBytes data). set (L := 8 * Z.of_nat (length data)).
  revert i result. induction n as [|n IH]; intros i result Hin Hsz Hres.
  - simpl. rewrite Nat.add_0_r. now rewrite Hres.
  - cbn [extractBits_loop].
    assert (Hlt : ((start + i) / 8 < length data)%nat).
    { apply Nat.Div0.div_lt_upper_bound. lia. }
    destruct (lookup_lt_is_Some_2 data _ Hlt) as [b Hb]. rewrite Hb.
    replace (i + S n)%nat with (S i + n)%nat by lia.
    apply IH; [lia | lia |].
    pose proof (byte_bit data ((start + i) / 8) ((start + i) mod 8) b
                  ltac:(apply Nat.mod_upper_bound; lia) Hb) as Hbit.
    rewrite <- Nat.div_mod_eq in Hbit. rewrite Hbit. fold V L.
    set (s := L - Z.of_nat start - Z.of_nat (S i)).
    assert (Hs : 0 <= s) by (unfold s, L; lia).
    replace (L - 1 - Z.of_nat (start + i)) with s by (unfold s; lia).
    replace (L - Z.of_nat start - Z.of_nat i) with (s + 1) in Hres
      by (unfold s; lia).
    rewrite div_pow2_succ in Hres by lia.
    assert (Hr : 0 <= result < 2 ^ Z.of_nat i).
    { rewrite Hres. apply Z.mod_pos_bound. apply Z.pow_pos_nonneg; lia. }
    assert (Hpow : 2 ^ Z.of_nat i <= 2 ^ 61)
      by (apply Z.pow_le_mono_r; lia).
    pose proof (Z.mod_pos_bound (V / 2 ^ s) 2 ltac:(lia)) as Hb2.
    rewrite Z.shiftl_mul_pow2, Z.pow_1_r by lia.
    rewrite (wrap64_small (result * 2)) by lia.
    replace (result * 2) with (result * 2 ^ 1) by lia.
    rewrite lor_shift_add by lia.
    rewrite Z.pow_1_r, wrap64_small by lia.
    rewrite Nat2Z.inj_succ, <- Z.add_1_r, mod_pow2_succ by lia.
    rewrite Hres. lia.
Qed.

Lemma extractBits_spec (start n : nat) :
  (start + n <= 8 * length data)%nat -> (n <= 62)%nat ->
  extractBits data start n
  = Ok ((big_SetBytes data
         / 2 ^ (8 * Z.of_nat (length data) - Z.of_nat start - Z.of_nat n))
        mod 2 ^ Z.of_nat n).
Proof.
  intros H1 H2. unfold extractBits.
  rewrite (extractBits_loop_spec start n 0 0); [reflexivity | lia | lia |].
  simpl. now rewrite Z.mod_1_r.
Qed.

Lemma extractBits_loop_bound (start n i : nat) (result r : Z) :
  (i + n <= 62)%nat -> 0 <= result < 2 ^ Z.of_nat i ->
  extractBits_loop data start i n result = Ok r ->
  0 <= r < 2 ^ Z.of_nat (i + n).
Proof.
  revert i result. induction n as [|n IH]; intros i result Hsz Hres Hrun.
  - simpl in Hrun. injection Hrun as <-. now rewrite Nat.add_0_r.
  - cbn [extractBits_loop] in Hrun.
    destruct (data !! ((start + i) / 8)%nat) as [b|]; [|discriminate].
    replace (i + S n)%nat with (S i + n)%nat by lia.
    eapply IH; [| |exact Hrun]; [lia|].
    assert (Hpow : 2 ^ Z.of_nat i <= 2 ^ 61)
      by (apply Z.pow_le_mono_r; lia).
    rewrite land_1_mod.
    set (bit := (Z.shiftr (byteZ b) (7 - Z.of_nat ((start + i) mod 8))) mod 2).
    assert (Hb2 : 0 <= bit < 2) by (apply Z.mod_pos_bound; lia).
    rewrite Z.shiftl_mul_pow2, Z.pow_1_r by lia.
    rewrite (wrap64_small (result * 2)) by lia.
    replace (result * 2) with (result * 2 ^ 1) by lia.
    rewrite lor_shift_add by lia.
    rewrite Z.pow_1_r, wrap64_small by lia.
    rewrite Nat2Z.inj_succ, Z.pow_succ_r by lia. lia.
Qed.

End ExtractBits.

(** ** The monad *)

Lemma mapM_ok {A B} (f : A -> outcome B) (g : A -> B) (l : list A) :
  (forall x, In x l -> f x = Ok (g x)) -> mapM f l = Ok (map g l).
Proof.
  induction l as [|a l IH]; intros H; [reflexivity|].
  simpl. rewrite (H a) by (now left). simpl.
  rewrite IH by (intros x Hx; apply H; now right). reflexivity.
Qed.

(** ** Well-formed tables *)

Lemma In_combine_seq {A} (l : list A) (a i : nat) (x : A) :
  l !! i = Some x -> In ((a + i)%nat, x) (combine (seq a (length l)) l).
Proof.
  revert a i. induction l as [|y l IH]; intros a i H; [discriminate|].
  destruct i as [|i]; simpl in *.
  - injection H as ->. left. f_equal. lia.
  - right. replace (a + S i)%nat with (S a + i)%nat by lia. now apply IH.
Qed.

Section WellFormed.

Variable d : languageData.
Hypothesis Hwf : wfData d = true.

Lemma wf_length : length (words d) = 2048%nat.
Proof.
  unfold wfData in Hwf. apply andb_prop in Hwf as [H _].
  apply andb_prop in H as [H _]. now apply Nat.eqb_eq in H.
Qed.

Lemma wf_lookup (i : nat) (w : gostring) :
  words d !! i = Some w -> wordsMap d !! w = Some (Z.of_nat i).
Proof.
  intros Hi. unfold wfData in Hwf. apply andb_prop in Hwf as [H _].
  apply andb_prop in H as [_ H].
  rewrite forallb_forall in H.
  specialize (H _ (In_combine_seq (words d) 0 i w Hi)).
  simpl in H. now apply bool_decide_eq_true in H.
Qed.

Lemma wf_wordOK (w : gostring) : In w (words d) -> wordOK w = true.
Proof.
  intros Hin. unfold wfData in Hwf. apply andb_prop in Hwf as [_ H].
  rewrite forallb_forall in H. now apply H.
Qed.

End WellFormed.

Lemma indexAt_range (buf : list byte) (i : nat) : 0 <= indexAt buf i < 2048.
Proof. unfold indexAt. apply Z.mod_pos_bound. lia. Qed.

Section TableLength.

Variable m : Mnemonic.
Hypothesis Hlen : length (wordList m) = 2048%nat.

Lemma nthWord_lookup (z : Z) :
  0 <= z < 2048 -> wordList m !! Z.to_nat z = Some (nthWord m z).
Proof.
  intros Hz. unfold nthWord.
  destruct (lookup_lt_is_Some_2 (wordList m) (Z.to_nat z)) as [w Hw].
  - rewrite Hlen. lia.
  - now rewrite Hw.
Qed.

Lemma packWords_spec (buf : list byte) (wordCount : nat) :
  (11 * wordCount <= 8 * length buf)%nat ->
  packWords m buf wordCount = Ok (packedWords m buf wordCount).
Proof.
  intros Hfit. unfold packWords, packedWords. apply mapM_ok.
  intros i Hi. apply in_seq in Hi.
  rewrite extractBits_spec by lia.
  replace (8 * Z.of_nat (length buf) - Z.of_nat (i * 11) - Z.of_nat 11)
    with (8 * Z.of_nat (length buf) - 11 * Z.of_nat i - 11) by lia.
  change (2 ^ Z.of_nat 11) with 2048. fold (indexAt buf i). simpl bind.
  pose proof (indexAt_range buf i) as R.
  unfold wordAt. destruct (Z.ltb_spec (indexAt buf i) 0); [lia|].
  now rewrite nthWord_lookup.
Qed.

End TableLength.

Section Packing.

Variable m : Mnemonic.
Hypothesis Hwf : wfMnemonic m = true.

Lemma wfm_data : wfData (tableOf m) = true.
Proof. unfold wfMnemonic in Hwf. now apply andb_prop in Hwf as [H _]. Qed.

Lemma wfm_length : length (wordList m) = 2048%nat.
Proof. exact (wf_length (tableOf m) wfm_data). Qed.

Lemma wfm_delimiter :
  delimiter m = regularSpace \/ delimiter m = [japaneseSpace].
Proof.
  unfold wfMnemonic in Hwf. apply andb_prop in Hwf as [_ H].
  now apply bool_decide_eq_true in H.
Qed.

Lemma nthWord_index (z : Z) :
  0 <= z < 2048 -> wordMap m !! nthWord m z = Some z.
Proof.
  intros Hz.
  pose proof (wf_lookup (tableOf m) wfm_data _ _
                (nthWord_lookup m wfm_length z Hz)) as H.
  simpl in H. rewrite H. f_equal. lia.
Qed.

Lemma nthWord_OK (z : Z) : 0 <= z < 2048 -> wordOK (nthWord m z) = true.
Proof.
  intros Hz. apply (wf_wordOK (tableOf m) wfm_data). simpl.
  apply list_elem_of_In.
  eapply list_elem_of_lookup_2, (nthWord_lookup m wfm_length), Hz.
Qed.

Lemma word_value (z : Z) :
  0 <= z < 2048 -> big_SetBytes (PutUint16 (uint16 z)) = z.
Proof.
  intros Hz. unfold PutUint16, uint16, big_SetBytes. simpl fold_left.
  rewrite !byteZ_byte_of_Z, Z.shiftr_div_pow2 by lia.
  rewrite (Z.mod_small z 65536) by lia.
  change (2 ^ 8) with 256.
  rewrite (Z.mod_small (z / 256)).
  - pose proof (Z.div_mod z 256 ltac:(lia)). lia.
  - split; [apply Z.div_pos; lia | apply Z.div_lt_upper_bound; lia].
Qed.

Lemma decodeWords_indices (idxs : list Z) (b : Z) :
  Forall (fun z => 0 <= z < 2048) idxs -> 0 <= b ->
  decodeWords m (map (nthWord m) idxs) b
  = Ok (fold_left (fun acc z => acc * 2048 + z) idxs b).
Proof.
  intros Hall. revert b.
  induction Hall as [|z idxs Hz _ IH]; intros b Hb; [reflexivity|].
  simpl. rewrite nthWord_index by assumption. rewrite word_value by assumption.
  change 2048 with (2 ^ 11) at 1. rewrite lor_shift_add by (simpl; lia).
  change (2 ^ 11) with 2048. apply IH. lia.
Qed.

Lemma fold_indices (buf : list byte) (wordCount : nat) :
  (11 * wordCount <= 8 * length buf)%nat ->
  fold_left (fun acc z => acc * 2048 + z)
            (map (indexAt buf) (seq 0 wordCount)) 0
  = big_SetBytes buf
    / 2 ^ (8 * Z.of_nat (length buf) - 11 * Z.of_nat wordCount).
Proof.
  induction wordCount as [|n IH]; intros Hfit.
  - simpl fold_left. rewrite Z.mul_0_r, Z.sub_0_r.
    pose proof (SetBytes_range buf) as R.
    change 256 with (2 ^ 8) in R. rewrite <- Z.pow_mul_r in R by lia.
    symmetry. apply Z.div_small. exact R.
  - rewrite seq_S, map_app, fold_left_app, IH by lia. simpl.
    unfold indexAt.
    set (s := 8 * Z.of_nat (length buf) - 11 * Z.of_nat (S n)).
    replace (8 * Z.of_nat (length buf) - 11 * Z.of_nat n) with (s + 11)
      by (unfold s; lia).
    replace (s + 11 - 11) with s by lia.
    assert (0 <= s) by (unfold s; lia).
    rewrite Z.pow_add_r, <- Z.div_div by lia.
    change (2 ^ 11) with 2048.
    pose proof (Z.div_mod (big_SetBytes buf / 2 ^ s) 2048 ltac:(lia)). lia.
Qed.

Lemma decode_packed (buf : list byte) (wordCount : nat) :
  (11 * wordCount <= 8 * length buf)%nat ->
  decodeWords m (packedWords m buf wordCount) 0
  = Ok (big_SetBytes buf
        / 2 ^ (8 * Z.of_nat (length buf) - 11 * Z.of_nat wordCount)).
Proof.
  intros Hfit. unfold packedWords.
  rewrite <- (map_map (indexAt buf) (nthWord m)).
  rewrite decodeWords_indices; [| |lia].
  - now rewrite fold_indices.
  - apply List.Forall_forall. intros z Hz. apply in_map_iff in Hz as [i [<- _]].
    apply indexAt_range.
Qed.

End Packing.

(** ** Splitting *)

Lemma isDelimiter_fst (r : N) (st : gostring) :
  fst (isDelimiter r st) = isSeparator r.
Proof.
  unfold isDelimiter, isSeparator. destruct (r =? japaneseSpace)%N; reflexivity.
Qed.

Lemma isDelimiter_snd (r : N) (st : gostring) :
  snd (isDelimiter r st)
  = if (japaneseSpace =? r)%N then [japaneseSpace] else st.
Proof.
  unfold isDelimiter. rewrite (N.eqb_sym japaneseSpace r).
  destruct (N.eqb_spec r japaneseSpace) as [->|]; reflexivity.
Qed.

Lemma delimiters_spec (r : N) :
  r ∈ delimiters <->
  r = 9%N \/ r = 10%N \/ r = 11%N \/ r = 12%N \/ r = 13%N \/ r = 32%N.
Proof.
  unfold delimiters. rewrite elem_of_list_to_set, !elem_of_cons, elem_of_nil.
  tauto.
Qed.

Lemma isSeparator_spec (r : N) :
  isSeparator r = true <->
  r = 9%N \/ r = 10%N \/ r = 11%N \/ r = 12%N \/ r = 13%N \/ r = 32%N
  \/ r = 0x3000%N.
Proof.
  unfold isSeparator. rewrite orb_true_iff, bool_decide_eq_true,
    delimiters_spec, N.eqb_eq. unfold japaneseSpace. tauto.
Qed.

Lemma isSeparator_IsSpace (r : N) : isSeparator r = true -> IsSpace r = true.
Proof.
  rewrite isSeparator_spec.
  intros [->|[->|[->|[->|[->|[->| ->]]]]]]; reflexivity.
Qed.

Lemma splitAtEach_cons (p : N -> bool) (s : gostring) :
  exists w ws, splitAtEach p s = w :: ws.
Proof.
  induction s as [|r s [w [ws IH]]]; [now exists [], []|].
  unfold splitAtEach in *. simpl. rewrite IH.
  destruct (p r); eauto.
Qed.

Lemma FieldsFunc_from_fst (s : gostring) (start : option gostring)
    (st : gostring) :
  (forall w, start = Some w -> w <> []) ->
  fst (FieldsFunc_from isDelimiter s start st)
  = List.filter nonEmpty (attach start (splitAtEach isSeparator s)).
Proof.
  revert start st. induction s as [|r s IH]; intros start st Hne.
  - destruct start as [w|]; [|reflexivity]. simpl.
    rewrite app_nil_r. destruct w; [now specialize (Hne [] eq_refl)|reflexivity].
  - cbn [FieldsFunc_from].
    pose proof (isDelimiter_fst r st) as Hsep.
    destruct (isDelimiter r st) as [sep st']. simpl in Hsep. subst sep.
    destruct (splitAtEach_cons isSeparator s) as [p [ps Hp]].
    unfold splitAtEach in *. cbn [fold_right]. rewrite Hp.
    destruct (isSeparator r) eqn:Er.
    + destruct start as [w|].
      * specialize (IH None st' ltac:(discriminate)).
        destruct (FieldsFunc_from isDelimiter s None st') as [spans st''].
        simpl in IH. simpl. rewrite app_nil_r, IH, Hp.
        destruct w; [now specialize (Hne [] eq_refl)|reflexivity].
      * rewrite (IH None st') by discriminate. rewrite Hp. reflexivity.
    + destruct start as [w|].
      * rewrite IH by (intros ? [= <-]; destruct w; discriminate).
        rewrite Hp. simpl attach. now rewrite <- app_assoc.
      * rewrite IH by (intros ? [= <-]; discriminate).
        rewrite Hp. reflexivity.
Qed.

Lemma FieldsFunc_from_snd (s : gostring) (start : option gostring)
    (st : gostring) :
  snd (FieldsFunc_from isDelimiter s start st)
  = if containsRune japaneseSpace s then [japaneseSpace] else st.
Proof.
  revert start st. induction s as [|r s IH]; intros start st; [now destruct start|].
  cbn [FieldsFunc_from containsRune existsb].
  pose proof (isDelimiter_snd r st) as Hst.
  destruct (isDelimiter r st) as [sep st']. simpl in Hst. subst st'.
  fold (containsRune japaneseSpace s).
  assert (Hgoal : forall start',
    snd (FieldsFunc_from isDelimiter s start'
           (if (japaneseSpace =? r)%N then [japaneseSpace] else st))
    = if (japaneseSpace =? r)%N || containsRune japaneseSpace s
      then [japaneseSpace] else st).
  { intros start'. rewrite IH.
    destruct (japaneseSpace =? r)%N, (containsRune japaneseSpace s);
      reflexivity. }
  destruct sep; [destruct start as [w|]|]; try apply Hgoal.
  specialize (Hgoal None).
  destruct (FieldsFunc_from isDelimiter s None _) as [spans st'']. exact Hgoal.
Qed.

Lemma SplitMnemonic_spec (mnemonic : gostring) :
  SplitMnemonic mnemonic
  = (splitOnRuns isSeparator (TrimSpace mnemonic),
     if containsRune japaneseSpace (TrimSpace mnemonic)
     then [japaneseSpace] else regularSpace).
Proof.
  unfold SplitMnemonic, FieldsFunc, splitOnRuns.
  rewrite (surjective_pairing (FieldsFunc_from _ _ _ _)).
  rewrite FieldsFunc_from_fst by discriminate.
  now rewrite FieldsFunc_from_snd.
Qed.

(** ** Joining, then splitting *)

Lemma splitAtEach_word (w s : gostring) :
  forallb (fun r => negb (isSeparator r)) w = true ->
  splitAtEach isSeparator (w ++ s)
  = match splitAtEach isSeparator s with
    | [] => [w]
    | p :: ps => (w ++ p) :: ps
    end.
Proof.
  intros Hw. induction w as [|r w IH].
  - simpl. now destruct (splitAtEach_cons isSeparator s) as [p [ps ->]].
  - simpl in Hw. apply andb_prop in Hw as [Hr Hw].
    apply negb_true_iff in Hr.
    unfold splitAtEach in *. simpl. rewrite Hr, IH by assumption.
    now destruct (fold_right _ _ s).
Qed.

Lemma wordOK_nonEmpty (w : gostring) : wordOK w = true -> nonEmpty w = true.
Proof. now destruct w. Qed.

Lemma wordOK_noSpace (w : gostring) :
  wordOK w = true -> forallb (fun r => negb (IsSpace r)) w = true.
Proof. now destruct w. Qed.

Lemma wordOK_noSeparator (w : gostring) :
  wordOK w = true -> forallb (fun r => negb (isSeparator r)) w = true.
Proof.
  intros H. apply wordOK_noSpace in H. rewrite forallb_forall in *.
  intros r Hr. specialize (H r Hr). apply negb_true_iff in H.
  apply negb_true_iff. destruct (isSeparator r) eqn:E; [|reflexivity].
  apply isSeparator_IsSpace in E. congruence.
Qed.

Lemma splitOnRuns_Join (ws : list gostring) (sep : gostring) :
  sep = regularSpace \/ sep = [japaneseSpace] ->
  Forall (fun w => wordOK w = true) ws ->
  splitOnRuns isSeparator (Join ws sep) = ws.
Proof.
  intros Hsep Hall. unfold splitOnRuns.
  induction Hall as [|w ws Hw Hall IH]; [reflexivity|].
  destruct ws as [|w2 ws].
  - simpl Join. rewrite <- (app_nil_r w) at 1.
    rewrite splitAtEach_word by now apply wordOK_noSeparator.
    simpl. rewrite app_nil_r, wordOK_nonEmpty by assumption. reflexivity.
  - change (Join (w :: w2 :: ws) sep) with (w ++ sep ++ Join (w2 :: ws) sep).
    rewrite splitAtEach_word by now apply wordOK_noSeparator.
    assert (Hs : splitAtEach isSeparator (sep ++ Join (w2 :: ws) sep)
                 = [] :: splitAtEach isSeparator (Join (w2 :: ws) sep)).
    { destruct Hsep as [-> | ->]; reflexivity. }
    rewrite Hs. cbn [List.filter]. rewrite app_nil_r.
    rewrite wordOK_nonEmpty by assumption. now rewrite IH.
Qed.

Lemma TrimLeft_id (s : gostring) :
  match s with [] => True | r :: _ => IsSpace r = false end -> TrimLeft s = s.
Proof. destruct s as [|r s]; [reflexivity|]. simpl. now intros ->. Qed.

Lemma Join_split_last (ws : list gostring) (sep : gostring) :
  ws <> [] -> exists p w, Join ws sep = p ++ w /\ In w ws.
Proof.
  induction ws as [|w ws IH]; [congruence|]. intros _.
  destruct ws as [|w2 ws].
  - exists [], w. split; [reflexivity | now left].
  - destruct IH as [p [w' [E Hin]]]; [discriminate|].
    exists (w ++ sep ++ p), w'. split; [|now right].
    change (Join (w :: w2 :: ws) sep) with (w ++ sep ++ Join (w2 :: ws) sep).
    rewrite E. now rewrite <- !app_assoc.
Qed.

Lemma TrimSpace_Join (ws : list gostring) (sep : gostring) :
  Forall (fun w => wordOK w = true) ws ->
  TrimSpace (Join ws sep) = Join ws sep.
Proof.
  intros Hall. destruct ws as [|w ws]; [reflexivity|].
  unfold TrimSpace.
  assert (Hhead : TrimLeft (Join (w :: ws) sep) = Join (w :: ws) sep).
  { apply TrimLeft_id.
    assert (Hw : wordOK w = true) by now inversion Hall.
    assert (E : exists t, Join (w :: ws) sep = w ++ t).
    { destruct ws; [exists []; simpl; now rewrite app_nil_r | eauto]. }
    destruct E as [t ->]. destruct w as [|r w]; [discriminate|].
    simpl in *. apply andb_prop in Hw as [Hr _]. now apply negb_true_iff. }
  rewrite Hhead.
  destruct (Join_split_last (w :: ws) sep) as [p [w' [E Hin]]]; [discriminate|].
  rewrite E, rev_app_distr.
  assert (Hw' : wordOK w' = true).
  { rewrite List.Forall_forall in Hall. now apply Hall. }
  rewrite TrimLeft_id.
  - now rewrite <- rev_app_distr, rev_involutive.
  - destruct (rev w') as [|r t] eqn:Er.
    + apply (f_equal (@rev N)) in Er. rewrite rev_involutive in Er.
      subst w'. discriminate.
    + simpl. apply wordOK_noSpace in Hw'. rewrite forallb_forall in Hw'.
      apply negb_true_iff, Hw', in_rev. rewrite Er. now left.
Qed.

Lemma SplitMnemonic_Join (ws : list gostring) (sep : gostring) :
  sep = regularSpace \/ sep = [japaneseSpace] ->
  Forall (fun w => wordOK w = true) ws ->
  fst (SplitMnemonic (Join ws sep)) = ws.
Proof.
  intros Hsep Hall. rewrite SplitMnemonic_spec. simpl.
  rewrite TrimSpace_Join by assumption. now apply splitOnRuns_Join.
Qed.

Lemma NewMnemonic_WithLanguage (wordlists : Language -> languageData)
    (lang : Language) :
  NewMnemonic wordlists [WithLanguage lang]
  = Ok {| wordList := words (wordlists lang);
          wordMap := wordsMap (wordlists lang);
          delimiter := if decide (lang = Japanese) then [japaneseSpace]
                       else regularSpace |}.
Proof. destruct lang; reflexivity. Qed.

Lemma NewMnemonic_wf (wordlists : Language -> languageData)
    (lang : Language) (m : Mnemonic) :
  wfData (wordlists lang) = true ->
  NewMnemonic wordlists [WithLanguage lang] = Ok m ->
  wfMnemonic m = true.
Proof.
  intros Hwf. rewrite NewMnemonic_WithLanguage. intros [= <-].
  unfold wfMnemonic, tableOf. simpl.
  destruct (wordlists lang) as [ws wm]. simpl. rewrite Hwf. simpl.
  apply bool_decide_eq_true. destruct (decide (lang = Japanese)); auto.
Qed.

(** The entropy and checksum parts of the packed integer. *)
Lemma split_packed (E H t k : Z) :
  0 <= k <= t -> 0 <= H < 2 ^ t ->
  (E * 2 ^ t + H) / 2 ^ (t - k) = E * 2 ^ k + H / 2 ^ (t - k)
  /\ 0 <= H / 2 ^ (t - k) < 2 ^ k.
Proof.
  intros Hk HH.
  assert (Hp : 0 < 2 ^ (t - k)) by (apply Z.pow_pos_nonneg; lia).
  assert (Ht : 2 ^ t = 2 ^ k * 2 ^ (t - k)).
  { rewrite <- Z.pow_add_r by lia. f_equal. lia. }
  split.
  - rewrite Ht, Z.mul_assoc, Z.div_add_l by lia. reflexivity.
  - split; [apply Z.div_pos; lia|].
    apply Z.div_lt_upper_bound; [lia|]. rewrite Z.mul_comm, <- Ht. lia.
Qed.

Lemma land_mask (b k : Z) : 0 <= k -> Z.land b (2 ^ k - 1) = b mod 2 ^ k.
Proof.
  intros Hk. rewrite <- Z.land_ones by assumption.
  rewrite Z.ones_equiv, <- Z.sub_1_r. reflexivity.
Qed.

Lemma packed_parts (E H t k : Z) :
  0 <= E -> 0 <= k <= t -> 0 <= H < 2 ^ t ->
  let b := (E * 2 ^ t + H) / 2 ^ (t - k) in
  Z.land b (2 ^ k - 1) = H / 2 ^ (t - k) /\ b / 2 ^ k = E.
Proof.
  intros HE Hk HH b.
  destruct (split_packed E H t k Hk HH) as [Hb Hr]. fold b in Hb.
  assert (Hp : 0 < 2 ^ k) by (apply Z.pow_pos_nonneg; lia).
  rewrite land_mask, Hb by lia. split.
  - rewrite Z.add_comm, Z_mod_plus_full. apply Z.mod_small. lia.
  - rewrite Z.div_add_l by lia. rewrite (Z.div_small (H / _)) by lia. lia.
Qed.

Lemma valid_sizes (cs : nat) :
  (4 <= cs <= 8)%nat ->
  isValidEntropyBits (4 * cs * 8) = true /\ isValidWordsSize (3 * cs) = true.
Proof.
  intros H.
  assert (C : (cs = 4 \/ cs = 5 \/ cs = 6 \/ cs = 7 \/ cs = 8)%nat) by lia.
  destruct C as [->|[->|[->|[->| ->]]]]; split; reflexivity.
Qed.

Lemma Sum256_cons (e : list byte) :
  exists h0 rest, SHA256.Sum256 e = h0 :: rest.
Proof.
  pose proof (Sum256_length e) as H.
  destruct (SHA256.Sum256 e) as [|h0 rest]; [discriminate | eauto].
Qed.

Lemma computeChecksum_ok (e : list byte) :
  V1.computeChecksum e = Ok (nth 0 (SHA256.Sum256 e) x00).
Proof.
  unfold V1.computeChecksum.
  destruct (Sum256_cons e) as [h0 [rest ->]]. reflexivity.
Qed.

(** The standard codec of the later revision differs from the earlier one
    only in where the first hash byte is taken. *)
Lemma standard_encoder_unchanged (m : Mnemonic) (e : list byte) :
  V2.EntropyToMnemonic m e = V1.EntropyToMnemonic m e.
Proof.
  unfold V2.EntropyToMnemonic, V1.EntropyToMnemonic, V2.computeChecksum,
    V1.computeChecksum, V2.index.
  destruct (negb (isValidEntropyBits (length e * 8))); [reflexivity|].
  cbn [bind]. now destruct (SHA256.Sum256 e).
Qed.

Lemma standard_decoder_unchanged (m : Mnemonic) (mnemonic : gostring) :
  V2.EntropyFromMnemonic m mnemonic = V1.EntropyFromMnemonic m mnemonic.
Proof.
  unfold V2.EntropyFromMnemonic, V1.EntropyFromMnemonic, V2.computeChecksum,
    V1.computeChecksum, V2.index.
  destruct (SplitMnemonic mnemonic) as [ws dl]. cbv zeta.
  destruct (negb (isValidWordsSize (length ws))); [reflexivity|].
  destruct (decodeWords m ws 0) as [b| |]; [|reflexivity|reflexivity].
  cbn [bind].
  destruct (wordLengthChecksumMasks !! length ws) as [mask|]; [|reflexivity].
  destruct (big_Div b (mask + 1)) as [b'| |]; [|reflexivity|reflexivity].
  cbn [bind]. now destruct (SHA256.Sum256 _).
Qed.

Lemma EntropyToMnemonic_spec (m : Mnemonic) (cs : nat) (e : list byte) :
  length (wordList m) = 2048%nat ->
  (4 <= cs <= 8)%nat -> length e = (4 * cs)%nat ->
  V1.EntropyToMnemonic m e
  = Ok (Join (packedWords m (standardBuffer e) (3 * cs)) (delimiter m)).
Proof.
  intros Hm Hcs Hlen. unfold V1.EntropyToMnemonic.
  destruct (valid_sizes cs Hcs) as [Hv _]. rewrite Hlen, Hv. cbn [negb].
  rewrite computeChecksum_ok. cbn [bind]. fold (standardBuffer e).
  assert (Hl : length (standardBuffer e) = (4 * cs + 1)%nat).
  { unfold standardBuffer. rewrite length_app, Hlen. simpl. lia. }
  assert (Hwc : (length (standardBuffer e) * 8 / 11 = 3 * cs)%nat).
  { rewrite Hl.
    assert (C : (cs = 4 \/ cs = 5 \/ cs = 6 \/ cs = 7 \/ cs = 8)%nat) by lia.
    destruct C as [->|[->|[->|[->| ->]]]]; reflexivity. }
  rewrite Hwc, (packWords_spec m Hm) by lia. reflexivity.
Qed.

Section Standard.

Variable m : Mnemonic.
Hypothesis Hwf : wfMnemonic m = true.

Lemma packedWords_OK (buf : list byte) (wordCount : nat) :
  Forall (fun w => wordOK w = true) (packedWords m buf wordCount).
Proof.
  apply List.Forall_forall. intros w Hw. unfold packedWords in Hw.
  apply in_map_iff in Hw as [i [<- _]].
  apply (nthWord_OK m Hwf), indexAt_range.
Qed.

Lemma packedWords_length (buf : list byte) (wordCount : nat) :
  length (packedWords m buf wordCount) = wordCount.
Proof. unfold packedWords. now rewrite length_map, length_seq. Qed.

Lemma split_packedWords (buf : list byte) (wordCount : nat) :
  fst (SplitMnemonic (Join (packedWords m buf wordCount) (delimiter m)))
  = packedWords m buf wordCount.
Proof.
  apply SplitMnemonic_Join; [apply (wfm_delimiter m Hwf) | apply packedWords_OK].
Qed.

Lemma masks_lookup (cs : nat) :
  (4 <= cs <= 8)%nat ->
  wordLengthChecksumMasks !! (3 * cs)%nat = Some (2 ^ Z.of_nat cs - 1).
Proof.
  intros H.
  assert (C : (cs = 4 \/ cs = 5 \/ cs = 6 \/ cs = 7 \/ cs = 8)%nat) by lia.
  destruct C as [->|[->|[->|[->| ->]]]]; reflexivity.
Qed.

Lemma shifts_lookup (cs : nat) :
  (4 <= cs <= 7)%nat ->
  wordLengthChecksumShifts !! (3 * cs)%nat = Some (2 ^ (8 - Z.of_nat cs)).
Proof.
  intros H. assert (C : (cs = 4 \/ cs = 5 \/ cs = 6 \/ cs = 7)%nat) by lia.
  destruct C as [->|[->|[-> | ->]]]; reflexivity.
Qed.

Lemma EntropyFromMnemonic_spec (cs : nat) (e : list byte) :
  (4 <= cs <= 8)%nat -> length e = (4 * cs)%nat ->
  V1.EntropyFromMnemonic m
    (Join (packedWords m (standardBuffer e) (3 * cs)) (delimiter m))
  = Ok e.
Proof.
  intros Hcs Hlen. unfold V1.EntropyFromMnemonic.
  pose proof (split_packedWords (standardBuffer e) (3 * cs)) as Hsplit.
  remember (3 * cs)%nat as wc eqn:Ewc.
  destruct (SplitMnemonic _) as [ws dl]. simpl in Hsplit. subst ws.
  cbv beta iota zeta. rewrite !packedWords_length. subst wc.
  destruct (valid_sizes cs Hcs) as [_ Hv]. rewrite Hv. cbn [negb].
  assert (Hl : length (standardBuffer e) = (4 * cs + 1)%nat).
  { unfold standardBuffer. rewrite length_app, Hlen. simpl. lia. }
  rewrite (decode_packed m Hwf) by lia. cbn [bind].
  rewrite masks_lookup by assumption.
  set (h0 := nth 0 (SHA256.Sum256 e) x00).
  pose proof (byteZ_range h0) as Hh.
  pose proof (SetBytes_range e) as HE.
  assert (HV : big_SetBytes (standardBuffer e)
               = big_SetBytes e * 2 ^ 8 + byteZ h0).
  { unfold standardBuffer. rewrite SetBytes_app. fold h0.
    rewrite SetBytes_cons, SetBytes_nil. simpl length. simpl Z.of_nat.
    rewrite Z.pow_0_r, Z.pow_1_r. change (2 ^ 8) with 256. lia. }
  rewrite HV, Hl.
  replace (8 * Z.of_nat (4 * cs + 1) - 11 * Z.of_nat (3 * cs))
    with (8 - Z.of_nat cs) by lia.
  destruct (packed_parts (big_SetBytes e) (byteZ h0) 8 (Z.of_nat cs))
    as [Hck Hent]; [lia | lia | simpl; lia |].
  cbv zeta in Hck, Hent.
  set (b := (big_SetBytes e * 2 ^ 8 + byteZ h0) / 2 ^ (8 - Z.of_nat cs)) in *.
  replace (2 ^ Z.of_nat cs - 1 + 1) with (2 ^ Z.of_nat cs) by lia.
  assert (Hp : 0 < 2 ^ Z.of_nat cs) by (apply Z.pow_pos_nonneg; lia).
  unfold big_Div at 1.
  destruct (Z.eqb_spec (2 ^ Z.of_nat cs) 0); [lia|].
  destruct (Z.ltb_spec 0 (2 ^ Z.of_nat cs)); [|lia].
  cbn [bind]. rewrite Hent.
  assert (Hdiv : (3 * cs / 3 = cs)%nat)
    by (rewrite Nat.mul_comm; apply Nat.div_mul; lia).
  replace (3 * cs / 3 * 4)%nat with (length e) by lia.
  rewrite pad_Bytes_SetBytes, computeChecksum_ok. cbn [bind]. fold h0.
  rewrite Hck.
  assert (Hcmp : forall x, x = byteZ h0 / 2 ^ (8 - Z.of_nat cs) ->
     (if negb (byteZ h0 / 2 ^ (8 - Z.of_nat cs) =? x)
      then Err ErrChecksumIncorrect else Ok e) = Ok e).
  { intros x ->. now rewrite Z.eqb_refl. }
  destruct (Nat.eqb_spec (3 * cs) 24) as [E24|N24]; cbn [negb bind].
  - apply Hcmp. assert (cs = 8%nat) by lia. subst cs. simpl.
    now rewrite Z.div_1_r.
  - rewrite shifts_lookup by lia.
    assert (Hq : 0 < 2 ^ (8 - Z.of_nat cs)) by (apply Z.pow_pos_nonneg; lia).
    unfold big_Div.
    destruct (Z.eqb_spec (2 ^ (8 - Z.of_nat cs)) 0); [lia|].
    destruct (Z.ltb_spec 0 (2 ^ (8 - Z.of_nat cs))); [|lia].
    cbn [bind]. now apply Hcmp.
Qed.

End Standard.

(** ** Padding and sizes of the generalized variant *)

Lemma padEntropy_spec (e : list byte) :
  exists k pad : nat,
    V1.padEntropy e = e ++ repeat x00 pad
    /\ length (V1.padEntropy e) = (4 * k)%nat
    /\ (length e <= 4 * k < length e + 4)%nat.
Proof.
  unfold V1.padEntropy.
  pose proof (Nat.div_mod_eq (length e) 4) as Hqr.
  pose proof (Nat.mod_upper_bound (length e) 4 ltac:(lia)) as Hr.
  set (q := (length e / 4)%nat) in *. set (r := (length e mod 4)%nat) in *.
  assert (Hrem : ((length e * 8) mod 32 = 8 * r)%nat).
  { symmetry. apply (Nat.mod_unique _ 32 q); lia. }
  rewrite Hrem.
  assert (C : (r = 0 \/ r = 1 \/ r = 2 \/ r = 3)%nat) by lia.
  destruct C as [E|[E|[E|E]]]; rewrite E.
  - exists q, 0%nat. simpl. rewrite app_nil_r. split; [reflexivity | lia].
  - exists (S q), 3%nat. split; [reflexivity|].
    change ((32 - 8 * 1) / 8)%nat with 3%nat. cbn [Nat.mul Nat.add Nat.eqb negb].
    rewrite length_app, repeat_length. lia.
  - exists (S q), 2%nat. split; [reflexivity|].
    change ((32 - 8 * 2) / 8)%nat with 2%nat. cbn [Nat.mul Nat.add Nat.eqb negb].
    rewrite length_app, repeat_length. lia.
  - exists (S q), 1%nat. split; [reflexivity|].
    change ((32 - 8 * 3) / 8)%nat with 1%nat. cbn [Nat.mul Nat.add Nat.eqb negb].
    rewrite length_app, repeat_length. lia.
Qed.

Lemma sizes (k : nat) :
  (4 * k / 4 = k /\ (4 * k * 8 + k) / 11 = 3 * k
   /\ 3 * k / 3 * 4 = 4 * k /\ (3 * k) mod 3 = 0)%nat.
Proof.
  repeat split.
  - rewrite Nat.mul_comm. apply Nat.div_mul. lia.
  - replace (4 * k * 8 + k)%nat with (3 * k * 11)%nat by lia.
    apply Nat.div_mul. lia.
  - rewrite (Nat.mul_comm 3 k), Nat.div_mul by lia. lia.
  - rewrite Nat.mul_comm. apply Nat.Div0.mod_mul.
Qed.

Lemma checksumBytes_bound (k : nat) :
  (k <= 8 * ((k + 7) / 8) < k + 8)%nat.
Proof.
  pose proof (Nat.div_mod_eq (k + 7) 8).
  pose proof (Nat.mod_upper_bound (k + 7) 8 ltac:(lia)). lia.
Qed.

(** ** The buffers of the two generalized encoders *)

Lemma insert_repeat_boundary (x : byte) (j r : nat) :
  <[j := x]> (repeat x j ++ repeat x00 (S r)) = repeat x (S j) ++ repeat x00 r.
Proof.
  induction j as [|j IH]; [reflexivity|].
  simpl in *. now rewrite IH.
Qed.

Lemma fillChecksum_spec (entropy : list byte) (c : nat) (x : byte) :
  V1.fillChecksum entropy c x = entropy ++ repeat x c.
Proof.
  unfold V1.fillChecksum.
  assert (G : forall j, (j <= c)%nat ->
    fold_left (fun buf i => <[(length entropy + i)%nat := x]> buf) (seq 0 j)
              (entropy ++ repeat x00 c)
    = entropy ++ repeat x j ++ repeat x00 (c - j)).
  { induction j as [|j IH]; intros Hj.
    - simpl. now rewrite Nat.sub_0_r.
    - rewrite seq_S, fold_left_app, IH by lia. cbn [fold_left Nat.add].
      rewrite insert_app_r.
      replace (c - j)%nat with (S (c - S j)) by lia.
      now rewrite insert_repeat_boundary. }
  rewrite (G c) by lia. rewrite Nat.sub_diag. simpl. now rewrite app_nil_r.
Qed.

Lemma copyAt_head (src : list byte) (c : nat) :
  V2.copyAt (repeat x00 (length src + c)) 0 src = src ++ repeat x00 c.
Proof.
  unfold V2.copyAt. rewrite repeat_length, take_0. cbn [app Nat.add].
  rewrite Nat.sub_0_r, take_ge by lia.
  rewrite repeat_app, drop_app_length' by (now rewrite repeat_length).
  reflexivity.
Qed.

Lemma copyAt_tail (a z src : list byte) :
  length z = length src ->
  V2.copyAt (a ++ z) (length a) src = a ++ src.
Proof.
  intros Hz. unfold V2.copyAt.
  rewrite take_app_length, length_app.
  replace (length a + length z - length a)%nat with (length src) by lia.
  rewrite firstn_all, drop_ge by (rewrite length_app; lia).
  now rewrite app_nil_r.
Qed.

Lemma appendChecksum_spec (entropy hash : list byte) (c : nat) :
  (c <= length hash)%nat ->
  V2.appendChecksum entropy c hash = Ok (entropy ++ take c hash).
Proof.
  intros Hc. unfold V2.appendChecksum, V2.sliceTo.
  destruct (Nat.leb_spec c (length hash)); [|lia]. cbn [bind].
  rewrite copyAt_head, copyAt_tail; [reflexivity|].
  rewrite repeat_length, length_take. lia.
Qed.

(** ** The checksum that the later decoder expects *)

Lemma readHash_spec (h : list byte) (n i : nat) (acc : Z) :
  (i + n <= length h)%nat -> 0 <= acc ->
  V2.readHash h i n acc
  = Ok (fold_left (fun a b => a * 256 + byteZ b) (take n (drop i h)) acc).
Proof.
  revert i acc. induction n as [|n IH]; intros i acc Hin Hacc.
  - reflexivity.
  - cbn [V2.readHash]. unfold V2.index.
    destruct (lookup_lt_is_Some_2 h i ltac:(lia)) as [b Hb].
    rewrite Hb. cbn [bind].
    rewrite (drop_S _ _ _ Hb). cbn [take fold_left].
    pose proof (byteZ_range b).
    rewrite Z.shiftl_mul_pow2, lor_shift_add by (simpl; lia).
    change (2 ^ 8) with 256. apply IH; lia.
Qed.

Lemma leadingBits_take (k c : nat) (h : list byte) :
  (k <= 8 * c)%nat -> (c <= length h)%nat ->
  big_SetBytes (take c h) / 2 ^ (8 * Z.of_nat c - Z.of_nat k)
  = leadingBits k h.
Proof.
  intros Hk Hc. unfold leadingBits.
  rewrite <- (take_drop c h) at 2 3.
  rewrite SetBytes_app, length_app, length_take, Nat.min_l by lia.
  pose proof (SetBytes_range (drop c h)) as R.
  set (n := Z.of_nat (length (drop c h))) in *.
  assert (Hn : 0 <= n) by lia.
  change 256 with (2 ^ 8) in *. rewrite <- Z.pow_mul_r in * by lia.
  replace (8 * Z.of_nat (c + length (drop c h)) - Z.of_nat k)
    with (8 * n + (8 * Z.of_nat c - Z.of_nat k)) by lia.
  rewrite Z.pow_add_r, <- Z.div_div by lia.
  rewrite Z.div_add_l by lia.
  rewrite (Z.div_small (big_SetBytes (drop c h))) by lia.
  now rewrite Z.add_0_r.
Qed.

Lemma expectedChecksum_spec (k : nat) (h : list byte) :
  (1 <= k)%nat -> ((k + 7) / 8 <= length h)%nat ->
  V2.expectedChecksum k h = Ok (leadingBits k h).
Proof.
  intros Hk Hh. unfold V2.expectedChecksum.
  pose proof (checksumBytes_bound k) as Hc.
  destruct (Nat.leb_spec k 8) as [Hle|Hgt].
  - assert (Hc1 : ((k + 7) / 8 = 1)%nat) by lia.
    rewrite Hc1 in Hh.
    unfold V2.index. destruct h as [|h0 h]; [simpl in Hh; lia|].
    cbn [lookup list_lookup bind]. f_equal.
    rewrite <- (leadingBits_take k 1) by (simpl; lia).
    change (take 1 (h0 :: h)) with [h0].
    rewrite SetBytes_cons, SetBytes_nil. change (length (@nil byte)) with 0%nat.
    rewrite Z.shiftr_div_pow2 by lia. change (Z.of_nat 0) with 0.
    rewrite Z.pow_0_r. f_equal; [lia|]. f_equal. lia.
  - rewrite readHash_spec by lia. cbn [bind]. rewrite drop_0.
    fold (big_SetBytes (take ((k + 7) / 8) h)).
    rewrite <- (leadingBits_take k ((k + 7) / 8)) by lia.
    destruct (Nat.ltb_spec 0 ((k + 7) / 8 * 8 - k)) as [Hx|Hx].
    + rewrite Z.shiftr_div_pow2 by lia. do 3 f_equal. lia.
    + replace (8 * Z.of_nat ((k + 7) / 8) - Z.of_nat k) with 0 by lia.
      now rewrite Z.pow_0_r, Z.div_1_r.
Qed.

Lemma hashBuffer_length (p : list byte) (k : nat) :
  length p = (4 * k)%nat -> (k <= 256)%nat ->
  length (hashBuffer p) = (4 * k + (k + 7) / 8)%nat.
Proof.
  intros Hp Hk. unfold hashBuffer.
  destruct (sizes k) as [H4 _]. rewrite Hp, H4.
  rewrite length_app, length_take, Sum256_length, Hp.
  pose proof (checksumBytes_bound k). lia.
Qed.

Lemma byteBuffer_length (p : list byte) (k : nat) :
  length p = (4 * k)%nat ->
  length (byteBuffer p) = (4 * k + (k + 7) / 8)%nat.
Proof.
  intros Hp. unfold byteBuffer.
  destruct (sizes k) as [H4 _]. rewrite Hp, H4.
  now rewrite length_app, repeat_length, Hp.
Qed.

Lemma V2_encode_spec (m : Mnemonic) (e : list byte) (k : nat) :
  length (wordList m) = 2048%nat ->
  length e <> 0%nat -> length (V1.padEntropy e) = (4 * k)%nat ->
  (k <= 256)%nat ->
  V2.ArbitraryEntropyToMnemonic m e
  = Ok (Join (packedWords m (hashBuffer (V1.padEntropy e)) (3 * k))
             (delimiter m)).
Proof.
  intros Hm He Hp Hk. unfold V2.ArbitraryEntropyToMnemonic.
  destruct (Nat.eqb_spec (length e) 0); [contradiction|].
  cbv zeta. set (p := V1.padEntropy e) in *.
  destruct (Nat.ltb_spec 1024 (length p)); [lia|].
  unfold V2.computeChecksum. cbn [bind].
  destruct (sizes k) as [H4 [Hwc _]].
  pose proof (checksumBytes_bound k) as Hc.
  rewrite Hp, H4, Hwc.
  rewrite appendChecksum_spec by (rewrite Sum256_length; lia).
  cbn [bind].
  assert (Hbuf : p ++ take ((k + 7) / 8) (SHA256.Sum256 p) = hashBuffer p).
  { unfold hashBuffer. now rewrite Hp, H4. }
  rewrite Hbuf.
  rewrite (packWords_spec m Hm)
    by (rewrite (hashBuffer_length p k) by assumption; lia).
  reflexivity.
Qed.

Lemma V1_encode_spec (m : Mnemonic) (e : list byte) (k : nat) :
  length (wordList m) = 2048%nat ->
  length e <> 0%nat -> length (V1.padEntropy e) = (4 * k)%nat ->
  V1.ArbitraryEntropyToMnemonic m e
  = Ok (Join (packedWords m (byteBuffer (V1.padEntropy e)) (3 * k))
             (delimiter m)).
Proof.
  intros Hm He Hp. unfold V1.ArbitraryEntropyToMnemonic.
  destruct (Nat.eqb_spec (length e) 0); [contradiction|].
  cbv zeta. set (p := V1.padEntropy e) in *.
  rewrite computeChecksum_ok. cbn [bind].
  destruct (sizes k) as [H4 [Hwc _]].
  pose proof (checksumBytes_bound k) as Hc.
  rewrite Hp, H4, Hwc, fillChecksum_spec.
  assert (Hbuf : p ++ repeat (nth 0 (SHA256.Sum256 p) x00) ((k + 7) / 8)
                 = byteBuffer p).
  { unfold byteBuffer. now rewrite Hp, H4. }
  rewrite Hbuf.
  rewrite (packWords_spec m Hm)
    by (rewrite (byteBuffer_length p k) by assumption; lia).
  reflexivity.
Qed.

Section Arbitrary.

Variable m : Mnemonic.
Hypothesis Hwf : wfMnemonic m = true.

Lemma mnemonicValue_packed (buf : list byte) (wordCount : nat) :
  (11 * wordCount <= 8 * length buf)%nat ->
  mnemonicValue m (Join (packedWords m buf wordCount) (delimiter m))
  = Ok (big_SetBytes buf
        / 2 ^ (8 * Z.of_nat (length buf) - 11 * Z.of_nat wordCount)).
Proof.
  intros Hfit. unfold mnemonicValue.
  rewrite (split_packedWords m Hwf). now apply decode_packed.
Qed.

Lemma hashBuffer_value (p : list byte) (k : nat) :
  length p = (4 * k)%nat -> (1 <= k <= 256)%nat ->
  big_SetBytes (hashBuffer p)
  / 2 ^ (8 * Z.of_nat (length (hashBuffer p)) - 11 * Z.of_nat (3 * k))
  = big_SetBytes p * 2 ^ Z.of_nat k + leadingBits k (SHA256.Sum256 p)
  /\ 0 <= leadingBits k (SHA256.Sum256 p) < 2 ^ Z.of_nat k.
Proof.
  intros Hp Hk.
  pose proof (checksumBytes_bound k) as Hc.
  rewrite (hashBuffer_length p k) by (assumption || lia).
  unfold hashBuffer. destruct (sizes k) as [H4 _]. rewrite Hp, H4.
  set (c := ((k + 7) / 8)%nat) in *.
  set (hp := take c (SHA256.Sum256 p)).
  assert (Hhp : length hp = c).
  { unfold hp. rewrite length_take, Sum256_length. lia. }
  rewrite SetBytes_app, Hhp.
  pose proof (SetBytes_range hp) as R. rewrite Hhp in R.
  change 256 with (2 ^ 8) in *. rewrite <- Z.pow_mul_r in * by lia.
  replace (8 * Z.of_nat (4 * k + c) - 11 * Z.of_nat (3 * k))
    with (8 * Z.of_nat c - Z.of_nat k) by lia.
  destruct (split_packed (big_SetBytes p) (big_SetBytes hp)
              (8 * Z.of_nat c) (Z.of_nat k)) as [Hb Hr]; [lia | lia |].
  unfold hp in Hb, Hr.
  rewrite leadingBits_take in Hb, Hr by (rewrite ?Sum256_length; lia).
  split; assumption.
Qed.

Lemma V2_decode_spec (p : list byte) (k : nat) :
  length p = (4 * k)%nat -> (1 <= k <= 256)%nat ->
  V2.ArbitraryMnemonicToEntropy m
    (Join (packedWords m (hashBuffer p) (3 * k)) (delimiter m))
  = Ok p.
Proof.
  intros Hp Hk. unfold V2.ArbitraryMnemonicToEntropy.
  pose proof (split_packedWords m Hwf (hashBuffer p) (3 * k)) as Hsplit.
  remember (3 * k)%nat as wc eqn:Ewc.
  destruct (SplitMnemonic _) as [ws dl]. simpl in Hsplit. subst ws.
  cbv beta iota zeta. rewrite !(packedWords_length m). subst wc.
  destruct (sizes k) as [H4 [_ [H3 Hmod]]].
  pose proof (checksumBytes_bound k) as Hc.
  rewrite Hmod, H3, H4.
  destruct (Nat.eqb_spec (3 * k) 0); [lia|]. cbn [Nat.eqb negb orb].
  rewrite (decode_packed m Hwf)
    by (rewrite (hashBuffer_length p k) by (assumption || lia); lia).
  cbn [bind].
  destruct (hashBuffer_value p k Hp Hk) as [Hb Hr]. rewrite Hb.
  set (E := big_SetBytes p) in *.
  set (c := leadingBits k (SHA256.Sum256 p)) in *.
  pose proof (SetBytes_range p) as HE. fold E in HE.
  assert (Hpk : 0 < 2 ^ Z.of_nat k) by (apply Z.pow_pos_nonneg; lia).
  rewrite Z.shiftl_mul_pow2, Z.mul_1_l by lia.
  replace (2 ^ Z.of_nat k - 1 + 1) with (2 ^ Z.of_nat k) by lia.
  unfold big_Div.
  destruct (Z.eqb_spec (2 ^ Z.of_nat k) 0); [lia|].
  destruct (Z.ltb_spec 0 (2 ^ Z.of_nat k)); [|lia].
  cbn [bind].
  rewrite Z.div_add_l, (Z.div_small c), Z.add_0_r by lia.
  unfold E. rewrite <- Hp, pad_Bytes_SetBytes.
  unfold V2.computeChecksum. cbn [bind].
  rewrite expectedChecksum_spec by (rewrite ?Sum256_length; lia).
  cbn [bind]. fold c. fold E.
  rewrite land_mask by lia.
  rewrite Z.add_comm, Z_mod_plus_full, Z.mod_small by lia.
  now rewrite Z.eqb_refl.
Qed.

Lemma V1_decode_panic (p : list byte) (k : nat) :
  length p = (4 * k)%nat -> (64 <= k)%nat ->
  V1.ArbitraryMnemonicToEntropy m
    (Join (packedWords m (byteBuffer p) (3 * k)) (delimiter m))
  = Panic.
Proof.
  intros Hp Hk. unfold V1.ArbitraryMnemonicToEntropy.
  pose proof (split_packedWords m Hwf (byteBuffer p) (3 * k)) as Hsplit.
  remember (3 * k)%nat as wc eqn:Ewc.
  destruct (SplitMnemonic _) as [ws dl]. simpl in Hsplit. subst ws.
  cbv beta iota zeta. rewrite !(packedWords_length m). subst wc.
  destruct (sizes k) as [H4 [_ [H3 Hmod]]].
  pose proof (checksumBytes_bound k) as Hc.
  rewrite Hmod, H3, H4.
  destruct (Nat.eqb_spec (3 * k) 0); [lia|]. cbn [Nat.eqb negb orb].
  rewrite (decode_packed m Hwf)
    by (rewrite (byteBuffer_length p k) by assumption; lia).
  cbn [bind]. unfold shl64.
  destruct (Nat.leb_spec 64 k); [|lia]. reflexivity.
Qed.

End Arbitrary.

(** ** TrimSpace *)

Lemma TrimLeft_spec (s : gostring) :
  exists a, s = a ++ TrimLeft s /\ forallb IsSpace a = true
            /\ startsClean (TrimLeft s).
Proof.
  induction s as [|r s [a [E [Ha Hc]]]].
  - exists []. repeat split.
  - simpl. destruct (IsSpace r) eqn:Er.
    + exists (r :: a). simpl. rewrite Er, Ha. repeat split; [|assumption].
      now rewrite <- E.
    + exists []. repeat split. exact Er.
Qed.

Lemma forallb_rev {A} (f : A -> bool) (l : list A) :
  forallb f l = true -> forallb f (rev l) = true.
Proof.
  rewrite !forallb_forall. intros H x Hx. apply H. now apply in_rev.
Qed.

Lemma TrimSpace_spec (s : gostring) :
  exists a b, s = a ++ TrimSpace s ++ b
    /\ forallb IsSpace a = true /\ forallb IsSpace b = true
    /\ startsClean (TrimSpace s) /\ startsClean (rev (TrimSpace s)).
Proof.
  unfold TrimSpace.
  destruct (TrimLeft_spec s) as [a [E [Ha Hc]]].
  destruct (TrimLeft_spec (rev (TrimLeft s))) as [b [E' [Hb Hc']]].
  set (t := TrimLeft (rev (TrimLeft s))) in *.
  assert (Et : TrimLeft s = rev t ++ rev b).
  { rewrite <- rev_app_distr, <- E'. now rewrite rev_involutive. }
  exists a, (rev b). repeat split.
  - now rewrite <- Et.
  - assumption.
  - now apply forallb_rev.
  - rewrite Et in Hc. destruct (rev t) as [|r u]; [exact I | exact Hc].
  - now rewrite rev_involutive.
Qed.

(** ** DetectLanguage *)

Section DetectLemmas.

Variable wordlists : Language -> languageData.

Lemma narrow_single (w : gostring) (q : Language * languageData) :
  narrow w [q] = [q] \/ narrow w [q] = [].
Proof.
  unfold narrow. rewrite filter_cons, filter_nil.
  destruct (decide _); auto.
Qed.

Lemma exhaustiveLoop_nil (ws : list gostring) :
  exhaustiveLoop ws [] = ([], false).
Proof. induction ws as [|w ws IH]; [reflexivity | exact IH]. Qed.

Lemma exhaustiveLoop_single (ws : list gostring) (q : Language * languageData) :
  exhaustiveLoop ws [q] = ([fst q], true)
  \/ exhaustiveLoop ws [q] = ([], false).
Proof.
  induction ws as [|w ws IH]; [now left|].
  cbn [exhaustiveLoop]. destruct (narrow_single w q) as [-> | ->].
  - exact IH.
  - right. apply exhaustiveLoop_nil.
Qed.

Lemma detectLoop_exhaustive (ws : list gostring)
    (possible : list (Language * languageData)) :
  detectLoop ws possible = exhaustiveLoop ws possible
  \/ (exhaustiveLoop ws possible = ([], false)
      /\ exists l, detectLoop ws possible = ([l], true)).
Proof.
  revert possible. induction ws as [|w ws IH]; intros possible; [now left|].
  cbn [detectLoop exhaustiveLoop].
  destruct (Nat.eqb_spec (length (narrow w possible)) 1) as [H1|H1];
    [|apply IH].
  destruct (narrow w possible) as [|q [|q' rest]]; try discriminate.
  destruct (exhaustiveLoop_single ws q) as [E|E]; rewrite E.
  - now left.
  - right. split; [reflexivity|]. now exists (fst q).
Qed.

End DetectLemmas.

(** *** The early return of [DetectLanguage] *)

Lemma narrowAll_cons (w : gostring) (ws : list gostring)
    (possible : list (Language * languageData)) :
  narrowAll (w :: ws) possible = narrowAll ws (narrow w possible).
Proof. reflexivity. Qed.

Lemma narrowAll_app (ws1 ws2 : list gostring)
    (possible : list (Language * languageData)) :
  narrowAll (ws1 ++ ws2) possible = narrowAll ws2 (narrowAll ws1 possible).
Proof. apply fold_left_app. Qed.

Lemma narrowAll_nil (ws : list gostring) : narrowAll ws [] = [].
Proof. induction ws as [|w ws IH]; [reflexivity | exact IH]. Qed.

(** One candidate is kept by the words of its table, and deleted for good by
    the first word that its table lacks. *)
Lemma narrowAll_single (ws : list gostring) (q : Language * languageData) :
  (Forall (fun w => is_Some (wordsMap (snd q) !! w)) ws ->
   narrowAll ws [q] = [q])
  /\ (~ Forall (fun w => is_Some (wordsMap (snd q) !! w)) ws ->
      narrowAll ws [q] = []).
Proof.
  induction ws as [|w ws [IH1 IH2]].
  - split; [reflexivity|]. intros H. destruct H. constructor.
  - rewrite narrowAll_cons. unfold narrow.
    rewrite filter_cons, filter_nil.
    destruct (decide (is_Some (wordsMap (snd q) !! w))) as [Hw|Hw]; split.
    + intros H. apply IH1. now apply Forall_inv_tail in H.
    + intros H. apply IH2. intros H'. apply H. now constructor.
    + intros H. apply Forall_inv in H. contradiction.
    + intros _. apply narrowAll_nil.
Qed.

(** Checking every word returns what is left after all of them. *)
Lemma exhaustiveLoop_narrowAll (ws : list gostring)
    (possible : list (Language * languageData)) :
  exhaustiveLoop ws possible
  = (map fst (narrowAll ws possible),
     (0 <? length (narrowAll ws possible))%nat).
Proof.
  revert possible. induction ws as [|w ws IH]; intros possible;
    [reflexivity | apply IH].
Qed.

(** The loop of [DetectLanguage] returns at the first word after which one
    candidate is left alone, whatever the words after it. *)
Lemma detectLoop_early (ws : list gostring)
    (possible : list (Language * languageData)) (n : nat)
    (q : Language * languageData) :
  (n < length ws)%nat ->
  (forall k, (k < n)%nat ->
             length (narrowAll (take (S k) ws) possible) <> 1%nat) ->
  narrowAll (take (S n) ws) possible = [q] ->
  detectLoop ws possible = ([fst q], true).
Proof.
  revert possible n. induction ws as [|w ws IH]; intros possible n Hn Hk Hq;
    [simpl in Hn; lia|].
  cbn [detectLoop]. destruct n as [|n].
  - change (narrowAll (take 1 (w :: ws)) possible) with (narrow w possible)
      in Hq.
    now rewrite Hq.
  - pose proof (Hk 0%nat ltac:(lia)) as H0.
    change (narrowAll (take 1 (w :: ws)) possible) with (narrow w possible)
      in H0.
    destruct (Nat.eqb_spec (length (narrow w possible)) 1) as [E|_];
      [contradiction|].
    apply (IH _ n); [simpl in Hn; lia | | exact Hq].
    intros k Hlt. apply (Hk (S k)). lia.
Qed.

(** When no word leaves one candidate alone, the loop checks every word. *)
Lemma detectLoop_late (ws : list gostring)
    (possible : list (Language * languageData)) :
  (forall k, (k < length ws)%nat ->
             length (narrowAll (take (S k) ws) possible) <> 1%nat) ->
  detectLoop ws possible = exhaustiveLoop ws possible.
Proof.
  revert possible. induction ws as [|w ws IH]; intros possible Hk;
    [reflexivity|].
  cbn [detectLoop exhaustiveLoop].
  pose proof (Hk 0%nat ltac:(simpl; lia)) as H0.
  change (narrowAll (take 1 (w :: ws)) possible) with (narrow w possible)
    in H0.
  destruct (Nat.eqb_spec (length (narrow w possible)) 1) as [E|_];
    [contradiction|].
  apply IH. intros k Hlt. apply (Hk (S k)). simpl. lia.
Qed.

Lemma candidates_tables (wordlists : Language -> languageData)
    (options : DetectLanguageOptions) (delim : gostring)
    (q : Language * languageData) :
  In q (candidates wordlists options delim) -> snd q = wordlists (fst q).
Proof.
  assert (Hin : forall q, In q (innerLanguages wordlists) ->
                          snd q = wordlists (fst q)).
  { unfold innerLanguages. intros q' H.
    apply in_map_iff in H as [l [<- _]]. reflexivity. }
  assert (Hf : forall (P : Language * languageData -> Prop)
                      `{!forall x, Decision (P x)} l,
             In q (filter P l) -> In q l).
  { intros P ? l H. apply list_elem_of_In, list_elem_of_filter in H.
    now apply list_elem_of_In. }
  unfold candidates. intros H. apply Hin.
  destruct (0 <? length (languages options))%nat;
    destruct (decide _); repeat (apply Hf in H); exact H.
Qed.

Lemma narrowAll_In (ws : list gostring)
    (possible : list (Language * languageData))
    (q : Language * languageData) :
  In q (narrowAll ws possible) -> In q possible.
Proof.
  revert possible. induction ws as [|w ws IH]; intros possible H;
    [exact H|].
  apply IH in H. unfold narrow in H.
  apply list_elem_of_In, list_elem_of_filter in H.
  now apply list_elem_of_In.
Qed.

(** ** The standard codec *)

(** The first test vector of BIP39: sixteen zero bytes spell the indices of
    "abandon" eleven times and of "about". *)
Example bip39_vector_zero :
  map (indexAt (standardBuffer (repeat x00 16))) (seq 0 12)
  = [0; 0; 0; 0; 0; 0; 0; 0; 0; 0; 0; 3].
Proof. vm_compute. reflexivity. Qed.

Lemma standard_size (n : nat) :
  In n [16; 20; 24; 28; 32]%nat ->
  exists cs, (4 <= cs <= 8)%nat /\ n = (4 * cs)%nat.
Proof.
  intros [<-|[<-|[<-|[<-|[<-|[]]]]]];
    [exists 4%nat | exists 5%nat | exists 6%nat | exists 7%nat | exists 8%nat];
    lia.
Qed.

Lemma valid_bits_size (n : nat) :
  isValidEntropyBits (n * 8) = true -> In n [16; 20; 24; 28; 32]%nat.
Proof.
  unfold isValidEntropyBits, validEntropyBits. intros H.
  apply bool_decide_eq_true in H.
  rewrite !elem_of_cons, elem_of_nil in H. simpl. lia.
Qed.

(** C1. For every supported language with a well-formed table and every
    entropy of 16, 20, 24, 28 or 32 bytes, [EntropyToMnemonic] succeeds,
    [EntropyFromMnemonic] maps the mnemonic back to exactly that entropy, and
    decoding then encoding the mnemonic gives the mnemonic back. *)
Theorem standard_round_trip (wordlists : Language -> languageData)
    (lang : Language) (m : Mnemonic) (e : list byte) :
  wfData (wordlists lang) = true ->
  NewMnemonic wordlists [WithLanguage lang] = Ok m ->
  In (length e) [16; 20; 24; 28; 32]%nat ->
  exists s,
    V1.EntropyToMnemonic m e = Ok s
    /\ V1.EntropyFromMnemonic m s = Ok e
    /\ (let* e' := V1.EntropyFromMnemonic m s in V1.EntropyToMnemonic m e')
       = Ok s
    /\ V2.EntropyToMnemonic m e = Ok s
    /\ V2.EntropyFromMnemonic m s = Ok e.
Proof.
  intros Hwf Hm Hn.
  pose proof (NewMnemonic_wf wordlists lang m Hwf Hm) as Hwfm.
  destruct (standard_size _ Hn) as [cs [Hcs Hlen]].
  pose proof (EntropyToMnemonic_spec m cs e (wfm_length m Hwfm) Hcs Hlen) as He.
  pose proof (EntropyFromMnemonic_spec m Hwfm cs e Hcs Hlen) as Hd.
  eexists. split; [exact He|]. split; [exact Hd|].
  split; [rewrite Hd; exact He|].
  split.
  - exact (eq_trans (standard_encoder_unchanged m e) He).
  - exact (eq_trans (standard_decoder_unchanged m _) Hd).
Qed.

Lemma standard_round_trip_witness :
  exists s,
    V1.EntropyToMnemonic (sampleMnemonic Japanese) sampleEntropy16 = Ok s
    /\ V1.EntropyFromMnemonic (sampleMnemonic Japanese) s = Ok sampleEntropy16
    /\ (let* e' := V1.EntropyFromMnemonic (sampleMnemonic Japanese) s in
        V1.EntropyToMnemonic (sampleMnemonic Japanese) e') = Ok s
    /\ V2.EntropyToMnemonic (sampleMnemonic Japanese) sampleEntropy16 = Ok s
    /\ V2.EntropyFromMnemonic (sampleMnemonic Japanese) s
       = Ok sampleEntropy16.
Proof.
  apply (standard_round_trip sampleWordlists Japanese).
  - vm_compute. reflexivity.
  - reflexivity.
  - simpl. tauto.
Defined.

(** C8. For entropy of n bytes, n in 16, 20, 24, 28, 32, the integer that the
    mnemonic of [EntropyToMnemonic] spells is the entropy followed by the
    leading n*8/32 bits of SHA-256(entropy), which are the top bits of the
    first hash byte, and the mnemonic has (n*8 + n*8/32)/11 words, that is
    12, 15, 18, 21 or 24. *)
Theorem standard_checksum_and_word_count
    (wordlists : Language -> languageData) (lang : Language) (m : Mnemonic)
    (e : list byte) :
  wfData (wordlists lang) = true ->
  NewMnemonic wordlists [WithLanguage lang] = Ok m ->
  In (length e) [16; 20; 24; 28; 32]%nat ->
  let n := length e in
  let checksumBits := (n * 8 / 32)%nat in
  exists s h0,
    V1.EntropyToMnemonic m e = Ok s
    /\ SHA256.Sum256 e !! 0%nat = Some h0
    /\ mnemonicValue m s
       = Ok (big_SetBytes e * 2 ^ Z.of_nat checksumBits
             + leadingBits checksumBits (SHA256.Sum256 e))
    /\ leadingBits checksumBits (SHA256.Sum256 e)
       = Z.shiftr (byteZ h0) (8 - Z.of_nat checksumBits)
    /\ 0 <= leadingBits checksumBits (SHA256.Sum256 e)
         < 2 ^ Z.of_nat checksumBits
    /\ length (fst (SplitMnemonic s)) = ((n * 8 + checksumBits) / 11)%nat
    /\ In (n, checksumBits, length (fst (SplitMnemonic s)))
          [(16, 4, 12); (20, 5, 15); (24, 6, 18); (28, 7, 21);
           (32, 8, 24)]%nat
    /\ V2.EntropyToMnemonic m e = Ok s.
Proof.
  intros Hwf Hm Hn n checksumBits.
  pose proof (NewMnemonic_wf wordlists lang m Hwf Hm) as Hwfm.
  destruct (standard_size _ Hn) as [cs [Hcs Hlen]].
  assert (Hbits : checksumBits = cs).
  { unfold checksumBits, n. rewrite Hlen.
    replace (4 * cs * 8)%nat with (cs * 32)%nat by lia.
    apply Nat.div_mul. lia. }
  rewrite Hbits.
  destruct (Sum256_cons e) as [h0 [rest Hh]].
  exists (Join (packedWords m (standardBuffer e) (3 * cs)) (delimiter m)), h0.
  assert (Hl : length (standardBuffer e) = (4 * cs + 1)%nat).
  { unfold standardBuffer. rewrite length_app, Hlen. simpl. lia. }
  assert (Hlead : leadingBits cs (SHA256.Sum256 e)
                  = byteZ h0 / 2 ^ (8 - Z.of_nat cs)).
  { rewrite <- (leadingBits_take cs 1)
      by (rewrite ?Sum256_length; simpl; lia).
    rewrite Hh. change (take 1 (h0 :: rest)) with [h0].
    rewrite SetBytes_cons, SetBytes_nil. change (length (@nil byte)) with 0%nat.
    change (Z.of_nat 0) with 0. rewrite Z.pow_0_r.
    rewrite Z.mul_1_r, Z.add_0_r.
    replace (8 * Z.of_nat 1 - Z.of_nat cs) with (8 - Z.of_nat cs) by lia.
    reflexivity. }
  pose proof (byteZ_range h0) as Hr.
  destruct (split_packed (big_SetBytes e) (byteZ h0) 8 (Z.of_nat cs))
    as [Hb Hc]; [lia | simpl; lia |].
  assert (Henc : V1.EntropyToMnemonic m e
                 = Ok (Join (packedWords m (standardBuffer e) (3 * cs))
                            (delimiter m))).
  { apply EntropyToMnemonic_spec; [now apply wfm_length | assumption..]. }
  split; [exact Henc|].
  split; [now rewrite Hh|].
  split.
  { rewrite (mnemonicValue_packed m Hwfm) by lia. f_equal.
    rewrite Hl, Hlead, <- Hb.
    replace (8 * Z.of_nat (4 * cs + 1) - 11 * Z.of_nat (3 * cs))
      with (8 - Z.of_nat cs) by lia.
    f_equal. unfold standardBuffer. rewrite SetBytes_app, Hh.
    change (nth 0 (h0 :: rest) x00) with h0.
    rewrite SetBytes_cons, SetBytes_nil. change (length [h0]) with 1%nat.
    change (length (@nil byte)) with 0%nat. change (Z.of_nat 0) with 0.
    change (Z.of_nat 1) with 1. rewrite Z.pow_0_r, Z.pow_1_r.
    change (2 ^ 8) with 256. lia. }
  split; [rewrite Hlead, Z.shiftr_div_pow2 by lia; reflexivity|].
  split; [rewrite Hlead; exact Hc|].
  rewrite (split_packedWords m Hwfm), (packedWords_length m).
  unfold n. rewrite Hlen.
  split; [|split].
  - replace (4 * cs * 8 + cs)%nat with (3 * cs * 11)%nat by lia.
    symmetry. apply Nat.div_mul. lia.
  - assert (C : (cs = 4 \/ cs = 5 \/ cs = 6 \/ cs = 7 \/ cs = 8)%nat) by lia.
    destruct C as [->|[->|[->|[->| ->]]]]; simpl; tauto.
  - exact (eq_trans (standard_encoder_unchanged m e) Henc).
Qed.

Lemma standard_checksum_and_word_count_witness :
  let m := sampleMnemonic English in
  let e := sampleEntropy32 in
  exists s h0,
    V1.EntropyToMnemonic m e = Ok s
    /\ SHA256.Sum256 e !! 0%nat = Some h0
    /\ mnemonicValue m s
       = Ok (big_SetBytes e * 2 ^ Z.of_nat 8 + leadingBits 8 (SHA256.Sum256 e))
    /\ leadingBits 8 (SHA256.Sum256 e) = Z.shiftr (byteZ h0) (8 - Z.of_nat 8)
    /\ 0 <= leadingBits 8 (SHA256.Sum256 e) < 2 ^ Z.of_nat 8
    /\ length (fst (SplitMnemonic s)) = ((32 * 8 + 8) / 11)%nat
    /\ In (32, 8, length (fst (SplitMnemonic s)))%nat
          [(16, 4, 12); (20, 5, 15); (24, 6, 18); (28, 7, 21);
           (32, 8, 24)]%nat
    /\ V2.EntropyToMnemonic m e = Ok s.
Proof.
  apply (standard_checksum_and_word_count sampleWordlists English
           (sampleMnemonic English) sampleEntropy32).
  - vm_compute. reflexivity.
  - reflexivity.
  - simpl. tauto.
Defined.

(** ** Word-count gating *)

(** C5. Whatever the word table is, [EntropyFromMnemonic] answers
    [ErrInvalidNumberWords] when the word count is not 12, 15, 18, 21 or 24,
    and both revisions of [ArbitraryMnemonicToEntropy] answer it when the
    word count is not a positive multiple of 3.  No condition is put on the
    table [m]: the answer is given before any word is looked up. *)
Theorem word_count_gating (m : Mnemonic) (mnemonic : gostring) :
  let n := length (fst (SplitMnemonic mnemonic)) in
  (~ In n [12; 15; 18; 21; 24]%nat ->
   V1.EntropyFromMnemonic m mnemonic = Err ErrInvalidNumberWords
   /\ V2.EntropyFromMnemonic m mnemonic = Err ErrInvalidNumberWords)
  /\ (~ (0 < n /\ n mod 3 = 0)%nat ->
      V1.ArbitraryMnemonicToEntropy m mnemonic = Err ErrInvalidNumberWords
      /\ V2.ArbitraryMnemonicToEntropy m mnemonic = Err ErrInvalidNumberWords).
Proof.
  intros n. subst n.
  pose proof (standard_decoder_unchanged m mnemonic) as Hsame.
  unfold V1.EntropyFromMnemonic, V1.ArbitraryMnemonicToEntropy,
    V2.ArbitraryMnemonicToEntropy in *.
  destruct (SplitMnemonic mnemonic) as [ws dl]. cbn [fst].
  split.
  - intros Hn. unfold isValidWordsSize, validWordsSizes in *.
    rewrite bool_decide_eq_false_2 in *;
      try (rewrite !elem_of_cons, elem_of_nil; simpl in Hn; lia).
    split; [reflexivity | exact Hsame].
  - intros Hn.
    assert (Hg : (length ws =? 0)%nat || negb (length ws mod 3 =? 0)%nat
                 = true).
    { destruct (Nat.eqb_spec (length ws) 0); [reflexivity|].
      destruct (Nat.eqb_spec (length ws mod 3) 0); [lia | reflexivity]. }
    cbv zeta. rewrite Hg. split; reflexivity.
Qed.

Lemma word_count_gating_witness :
  (V1.EntropyFromMnemonic (sampleMnemonic English) twoWords
   = Err ErrInvalidNumberWords
   /\ V2.EntropyFromMnemonic (sampleMnemonic English) twoWords
      = Err ErrInvalidNumberWords)
  /\ V1.ArbitraryMnemonicToEntropy (sampleMnemonic English) twoWords
     = Err ErrInvalidNumberWords
  /\ V2.ArbitraryMnemonicToEntropy (sampleMnemonic English) twoWords
     = Err ErrInvalidNumberWords.
Proof.
  pose proof (word_count_gating (sampleMnemonic English) twoWords) as [H1 H2].
  split.
  - apply H1. vm_compute. intuition discriminate.
  - apply H2. vm_compute. intros [_ H]. discriminate.
Defined.

(** ** Word indices *)

Lemma encoders_never_panic (m : Mnemonic) (e : list byte) :
  length (wordList m) = 2048%nat ->
  V1.EntropyToMnemonic m e <> Panic
  /\ V1.ArbitraryEntropyToMnemonic m e <> Panic
  /\ V2.ArbitraryEntropyToMnemonic m e <> Panic
  /\ V2.EntropyToMnemonic m e <> Panic.
Proof.
  intros Hm.
  assert (H1 : V1.EntropyToMnemonic m e <> Panic).
  { destruct (isValidEntropyBits (length e * 8)) eqn:Hv.
    - apply valid_bits_size, standard_size in Hv as [cs [Hcs Hlen]].
      now rewrite (EntropyToMnemonic_spec m cs e Hm Hcs Hlen).
    - unfold V1.EntropyToMnemonic. now rewrite Hv. }
  split; [exact H1|]. split; [|split].
  3: { intros H2. apply H1.
       exact (eq_trans (eq_sym (standard_encoder_unchanged m e)) H2). }
  - destruct (Nat.eq_dec (length e) 0%nat) as [E0|N0].
    + unfold V1.ArbitraryEntropyToMnemonic. now rewrite E0.
    + destruct (padEntropy_spec e) as [k [pad [_ [Hp _]]]].
      now rewrite (V1_encode_spec m e k Hm N0 Hp).
  - destruct (Nat.eq_dec (length e) 0%nat) as [E0|N0].
    + unfold V2.ArbitraryEntropyToMnemonic. now rewrite E0.
    + destruct (padEntropy_spec e) as [k [pad [_ [Hp _]]]].
      destruct (Nat.le_gt_cases k 256%nat) as [Hk|Hk].
      * now rewrite (V2_encode_spec m e k Hm N0 Hp Hk).
      * unfold V2.ArbitraryEntropyToMnemonic.
        destruct (Nat.eqb_spec (length e) 0); [contradiction|].
        cbv zeta. destruct (Nat.ltb_spec 1024 (length (V1.padEntropy e)));
          [discriminate | lia].
Qed.

(** C9. For a table of 2048 words, every index that [extractBits] returns
    for a length of 11 is in [0, 2048) and [m.wordList[index]] is a word of
    the table; the encoders [EntropyToMnemonic] and
    [ArbitraryEntropyToMnemonic] (both revisions) never panic, that is, no
    slice or table access in them is out of range. *)
Theorem word_index_in_table (m : Mnemonic) :
  length (wordList m) = 2048%nat ->
  (forall data start index,
     extractBits data start 11 = Ok index ->
     0 <= index < 2048
     /\ exists w, wordAt m index = Ok w
                  /\ wordList m !! Z.to_nat index = Some w)
  /\ (forall e, V1.EntropyToMnemonic m e <> Panic)
  /\ (forall e, V1.ArbitraryEntropyToMnemonic m e <> Panic)
  /\ (forall e, V2.ArbitraryEntropyToMnemonic m e <> Panic)
  /\ (forall e, V2.EntropyToMnemonic m e <> Panic).
Proof.
  intros Hm.
  split; [|repeat split; intros e; now apply (encoders_never_panic m e Hm)].
  intros data start index Hx.
  pose proof (extractBits_loop_bound data start 11 0 0 index
                ltac:(lia) ltac:(simpl; lia) Hx) as Hr.
  change (2 ^ Z.of_nat (0 + 11)) with 2048 in Hr.
  split; [exact Hr|]. exists (nthWord m index).
  pose proof (nthWord_lookup m Hm index Hr) as Hw.
  split; [|exact Hw].
  unfold wordAt. destruct (Z.ltb_spec index 0); [lia|]. now rewrite Hw.
Qed.

Lemma word_index_in_table_witness :
  (forall data start index,
     extractBits data start 11 = Ok index ->
     0 <= index < 2048
     /\ exists w, wordAt (sampleMnemonic English) index = Ok w
                  /\ wordList (sampleMnemonic English) !! Z.to_nat index
                     = Some w)
  /\ (forall e, V1.EntropyToMnemonic (sampleMnemonic English) e <> Panic)
  /\ (forall e,
        V1.ArbitraryEntropyToMnemonic (sampleMnemonic English) e <> Panic)
  /\ (forall e,
        V2.ArbitraryEntropyToMnemonic (sampleMnemonic English) e <> Panic)
  /\ (forall e, V2.EntropyToMnemonic (sampleMnemonic English) e <> Panic).
Proof.
  apply (word_index_in_table (sampleMnemonic English)).
  vm_compute. reflexivity.
Defined.

(** ** DetectLanguage *)


(** C6, as stated, fails: after the first word only English is left and
    [DetectLanguage] returns it, but the second word is in no table, so
    checking every word finds no language. *)
Lemma detect_early_return_counterexample :
  DetectLanguage sampleWordlists wordThenStranger [] = ([English], true)
  /\ DetectLanguage_exhaustive sampleWordlists wordThenStranger []
     = ([], false)
  /\ wordsMap (sampleWordlists English) !! runes [0x7A; 0x7A] = None.
Proof. vm_compute. repeat split. Qed.

(** C6, amended. [DetectLanguage] returns at the first word after whose
    check exactly one candidate language [l] is left: it returns [l] with
    found = true, whatever the words after it.  Checking the remaining words
    as well gives the same result exactly when [l]'s table holds all of
    them, and no language with found = false otherwise.  When no word leaves
    exactly one candidate there is no early return: every word is checked
    and what is left after the last word is returned.  So the two results
    differ only in the way just said. *)
Theorem detect_early_return (wordlists : Language -> languageData)
    (mnemonic : gostring) (opts : list DetectLanguageOption) :
  let options := applyOptions opts {| languages := [] |} in
  let ws := fst (splitMnemonic mnemonic) in
  let start := candidates wordlists options (snd (splitMnemonic mnemonic)) in
  let remaining (n : nat) := map fst (narrowAll (take n ws) start) in
  let result := DetectLanguage wordlists mnemonic opts in
  let reference := DetectLanguage_exhaustive wordlists mnemonic opts in
  (forall n l,
     (n < length ws)%nat ->
     (forall k, (k < n)%nat -> length (remaining (S k)) <> 1%nat) ->
     remaining (S n) = [l] ->
     let inTable w := is_Some (wordsMap (wordlists l) !! w) in
     result = ([l], true)
     /\ (Forall inTable (drop (S n) ws) -> reference = ([l], true))
     /\ (~ Forall inTable (drop (S n) ws) -> reference = ([], false))
     /\ (result = reference <-> Forall inTable (drop (S n) ws)))
  /\ ((forall k, (k < length ws)%nat -> length (remaining (S k)) <> 1%nat) ->
      result = reference
      /\ result = (remaining (length ws),
                   (0 <? length (remaining (length ws)))%nat))
  /\ (result = reference
      \/ (reference = ([], false) /\ exists l, result = ([l], true))).
Proof.
  intros options ws start remaining result reference.
  assert (Er : result = detectLoop ws start).
  { unfold result, DetectLanguage, ws, start. fold options.
    now destruct (splitMnemonic mnemonic). }
  assert (Ex : reference = exhaustiveLoop ws start).
  { unfold reference, DetectLanguage_exhaustive, ws, start. fold options.
    now destruct (splitMnemonic mnemonic). }
  rewrite Er, Ex. split; [|split].
  - intros n l Hn Hk Hl inTable. unfold remaining in Hl, Hk.
    destruct (narrowAll (take (S n) ws) start) as [|q [|q' qs]] eqn:Eq;
      try discriminate.
    injection Hl as Hl.
    assert (Hq : snd q = wordlists l).
    { rewrite <- Hl. apply (candidates_tables wordlists options
                              (snd (splitMnemonic mnemonic))).
      apply (narrowAll_In (take (S n) ws)). fold start. rewrite Eq.
      now left. }
    assert (E1 : detectLoop ws start = ([l], true)).
    { rewrite <- Hl. apply (detectLoop_early ws start n q Hn); [|exact Eq].
      intros k Hlt. specialize (Hk k Hlt). now rewrite length_map in Hk. }
    assert (E2 : exhaustiveLoop ws start
                 = (map fst (narrowAll (drop (S n) ws) [q]),
                    (0 <? length (narrowAll (drop (S n) ws) [q]))%nat)).
    { rewrite exhaustiveLoop_narrowAll.
      rewrite <- (take_drop (S n) ws) at 1 2.
      now rewrite narrowAll_app, Eq. }
    destruct (narrowAll_single (drop (S n) ws) q) as [Hall Hnot].
    rewrite Hq in Hall, Hnot. fold inTable in Hall, Hnot.
    assert (Ha : Forall inTable (drop (S n) ws) ->
                 exhaustiveLoop ws start = ([l], true)).
    { intros H. rewrite E2, (Hall H), <- Hl. reflexivity. }
    assert (Hb : ~ Forall inTable (drop (S n) ws) ->
                 exhaustiveLoop ws start = ([], false)).
    { intros H. rewrite E2, (Hnot H). reflexivity. }
    split; [exact E1|]. split; [exact Ha|]. split; [exact Hb|].
    rewrite E1. split.
    + intros E.
      destruct (decide (Forall inTable (drop (S n) ws))) as [H|H];
        [exact H|].
      rewrite (Hb H) in E. discriminate.
    + intros H. now rewrite (Ha H).
  - intros Hk. unfold remaining in *.
    assert (E : detectLoop ws start = exhaustiveLoop ws start).
    { apply detectLoop_late. intros k Hlt. specialize (Hk k Hlt).
      now rewrite length_map in Hk. }
    split; [exact E|].
    rewrite E, exhaustiveLoop_narrowAll, firstn_all, length_map.
    reflexivity.
  - apply detectLoop_exhaustive.
Qed.

Lemma detect_early_return_witness :
  DetectLanguage pocketWordlists wordThenStranger [] = ([English], true)
  /\ DetectLanguage_exhaustive pocketWordlists wordThenStranger []
     = ([], false).
Proof.
  destruct (detect_early_return pocketWordlists wordThenStranger [])
    as [Hearly _].
  destruct (Hearly 0%nat English) as [H1 [_ [H2 _]]].
  - vm_compute. lia.
  - intros k Hk. lia.
  - vm_compute. reflexivity.
  - split; [exact H1|]. apply H2. intros H.
    apply Forall_inv in H. vm_compute in H. destruct H as [i Hi].
    discriminate.
Defined.

(** ** SplitMnemonic *)

(** C7, as stated, fails: an ideographic space at the edge of the input is
    trimmed before the text is scanned, and the ordinary space is reported. *)
Lemma split_delimiter_counterexample :
  containsRune japaneseSpace ideographicFirst = true
  /\ SplitMnemonic ideographicFirst
     = ([runes [0x61]; runes [0x62]], regularSpace).
Proof. vm_compute. split; reflexivity. Qed.

(** C7, amended. [SplitMnemonic] trims the white space at both ends of the
    input, splits what is left on every run of tab, newline, vertical tab,
    form feed, carriage return, space and ideographic space, and reports the
    ideographic space exactly when it occurs in the trimmed text, the
    ordinary space otherwise. *)
Theorem SplitMnemonic_correct (mnemonic : gostring) :
  SplitMnemonic mnemonic
  = (splitOnRuns isSeparator (TrimSpace mnemonic),
     if containsRune japaneseSpace (TrimSpace mnemonic)
     then [japaneseSpace] else regularSpace)
  /\ (forall r,
        isSeparator r = true <->
        r = 9%N \/ r = 10%N \/ r = 11%N \/ r = 12%N \/ r = 13%N \/ r = 32%N
        \/ r = 0x3000%N)
  /\ exists a b,
       mnemonic = a ++ TrimSpace mnemonic ++ b
       /\ forallb IsSpace a = true /\ forallb IsSpace b = true
       /\ startsClean (TrimSpace mnemonic)
       /\ startsClean (rev (TrimSpace mnemonic)).
Proof.
  split; [apply SplitMnemonic_spec|].
  split; [apply isSeparator_spec | apply TrimSpace_spec].
Qed.

(** ** The generalized variant, later revision (src/unnamed/part_002) *)

Lemma padEntropy_idem (p : list byte) (k : nat) :
  length p = (4 * k)%nat -> V1.padEntropy p = p.
Proof.
  intros Hp. unfold V1.padEntropy. rewrite Hp.
  replace (4 * k * 8)%nat with (k * 32)%nat by lia.
  now rewrite Nat.Div0.mod_mul.
Qed.

(** X24. The later revision packs, after the padded entropy, the leading
    [len/4] bits of SHA-256(padded entropy), and its decoder expects the
    same bits. *)
Theorem hash_revision_checksum (m : Mnemonic) (e : list byte) :
  wfMnemonic m = true -> length e <> 0%nat ->
  (length (V1.padEntropy e) <= 1024)%nat ->
  let p := V1.padEntropy e in
  let checksumBits := (length p / 4)%nat in
  exists s,
    V2.ArbitraryEntropyToMnemonic m e = Ok s
    /\ mnemonicValue m s
       = Ok (big_SetBytes p * 2 ^ Z.of_nat checksumBits
             + leadingBits checksumBits (SHA256.Sum256 p))
    /\ 0 <= leadingBits checksumBits (SHA256.Sum256 p)
         < 2 ^ Z.of_nat checksumBits
    /\ V2.expectedChecksum checksumBits (SHA256.Sum256 p)
       = Ok (leadingBits checksumBits (SHA256.Sum256 p)).
Proof.
  intros Hwf He Hmax p checksumBits.
  destruct (padEntropy_spec e) as [k [pad [_ [Hp Hk]]]]. fold p in Hp.
  destruct (sizes k) as [H4 _].
  assert (Hbits : checksumBits = k) by (unfold checksumBits; now rewrite Hp).
  rewrite Hbits. fold p in Hmax.
  assert (Hk1 : (1 <= k <= 256)%nat) by lia.
  pose proof (checksumBytes_bound k) as Hc.
  destruct (hashBuffer_value p k Hp Hk1) as [Hb Hr].
  eexists. split.
  { apply (V2_encode_spec m e k); [now apply wfm_length | assumption | exact Hp | lia]. }
  fold p. split.
  { rewrite (mnemonicValue_packed m Hwf)
      by (rewrite (hashBuffer_length p k) by (assumption || lia); lia).
    now rewrite Hb. }
  split; [exact Hr|].
  apply expectedChecksum_spec; [lia | rewrite Sum256_length; lia].
Qed.

(** X25. The later revision round-trips every non-empty entropy whose padded
    length is at most 1024 bytes: decoding returns the entropy followed by
    zero bytes up to the next multiple of 4, and encoding that again gives
    the same mnemonic. *)
Theorem hash_revision_round_trip (m : Mnemonic) (e : list byte) :
  wfMnemonic m = true -> length e <> 0%nat ->
  (length (V1.padEntropy e) <= 1024)%nat ->
  exists s pad,
    V2.ArbitraryEntropyToMnemonic m e = Ok s
    /\ V2.ArbitraryMnemonicToEntropy m s = Ok (e ++ repeat x00 pad)
    /\ (pad < 4)%nat /\ ((length e + pad) mod 4 = 0)%nat
    /\ V2.ArbitraryEntropyToMnemonic m (e ++ repeat x00 pad) = Ok s.
Proof.
  intros Hwf He Hmax.
  destruct (padEntropy_spec e) as [k [pad [Hpad [Hp Hk]]]].
  assert (Hk1 : (1 <= k <= 256)%nat) by lia.
  pose proof (wfm_length m Hwf) as Hm.
  assert (Hlp : length (e ++ repeat x00 pad) = (4 * k)%nat)
    by now rewrite <- Hpad.
  exists (Join (packedWords m (hashBuffer (V1.padEntropy e)) (3 * k))
               (delimiter m)), pad.
  split; [apply (V2_encode_spec m e k); (assumption || lia)|].
  split; [rewrite <- Hpad; now apply V2_decode_spec|].
  rewrite length_app, repeat_length in Hlp.
  split; [lia|].
  split; [rewrite Hlp, Nat.mul_comm; apply Nat.Div0.mod_mul|].
  rewrite <- Hpad.
  rewrite <- (padEntropy_idem (V1.padEntropy e) k Hp) at 2.
  apply (V2_encode_spec m (V1.padEntropy e) k); try (assumption || lia).
  now rewrite padEntropy_idem with (k := k), Hp.
Qed.

(** X26. The later revision at the boundary: 1024 bytes are encoded, a padded
    length above 1024 bytes (1025 bytes of input, for one) is refused with
    [ErrEntropyTooLarge], and empty input with [ErrInvalidEntropy]. *)
Theorem hash_revision_boundary (m : Mnemonic) (e : list byte) :
  length (wordList m) = 2048%nat ->
  (length e = 1024%nat ->
   exists s, V2.ArbitraryEntropyToMnemonic m e = Ok s)
  /\ ((1024 < length (V1.padEntropy e))%nat ->
      V2.ArbitraryEntropyToMnemonic m e = Err ErrEntropyTooLarge)
  /\ (length e = 1025%nat ->
      V2.ArbitraryEntropyToMnemonic m e = Err ErrEntropyTooLarge)
  /\ (length e = 0%nat ->
      V2.ArbitraryEntropyToMnemonic m e = Err ErrInvalidEntropy).
Proof.
  intros Hm.
  assert (Hbig : (1024 < length (V1.padEntropy e))%nat ->
                 V2.ArbitraryEntropyToMnemonic m e = Err ErrEntropyTooLarge).
  { intros Hp. unfold V2.ArbitraryEntropyToMnemonic.
    destruct (Nat.eqb_spec (length e) 0) as [E0|N0].
    - destruct e; [simpl in Hp; lia | discriminate].
    - cbv zeta. destruct (Nat.ltb_spec 1024 (length (V1.padEntropy e)));
        [reflexivity | lia]. }
  split; [|split; [exact Hbig | split]].
  - intros He. eexists.
    apply (V2_encode_spec m e 256 Hm); [lia | | lia].
    rewrite (padEntropy_idem e 256); lia.
  - intros He. apply Hbig.
    destruct (padEntropy_spec e) as [k [pad [_ [Hp Hk]]]]. lia.
  - intros He. unfold V2.ArbitraryEntropyToMnemonic. now rewrite He.
Qed.

Lemma hash_revision_checksum_witness :
  let m := sampleMnemonic English in
  let p := V1.padEntropy zeros36 in
  let checksumBits := (length p / 4)%nat in
  exists s,
    V2.ArbitraryEntropyToMnemonic m zeros36 = Ok s
    /\ mnemonicValue m s
       = Ok (big_SetBytes p * 2 ^ Z.of_nat checksumBits
             + leadingBits checksumBits (SHA256.Sum256 p))
    /\ 0 <= leadingBits checksumBits (SHA256.Sum256 p)
         < 2 ^ Z.of_nat checksumBits
    /\ V2.expectedChecksum checksumBits (SHA256.Sum256 p)
       = Ok (leadingBits checksumBits (SHA256.Sum256 p)).
Proof.
  apply (hash_revision_checksum (sampleMnemonic English) zeros36).
  - vm_compute. reflexivity.
  - vm_compute. discriminate.
  - vm_compute. repeat constructor.
Defined.

Lemma hash_revision_round_trip_witness :
  exists s pad,
    V2.ArbitraryEntropyToMnemonic (sampleMnemonic Japanese) sampleEntropy5
    = Ok s
    /\ V2.ArbitraryMnemonicToEntropy (sampleMnemonic Japanese) s
       = Ok (sampleEntropy5 ++ repeat x00 pad)
    /\ (pad < 4)%nat /\ ((length sampleEntropy5 + pad) mod 4 = 0)%nat
    /\ V2.ArbitraryEntropyToMnemonic (sampleMnemonic Japanese)
         (sampleEntropy5 ++ repeat x00 pad) = Ok s.
Proof.
  apply (hash_revision_round_trip (sampleMnemonic Japanese) sampleEntropy5).
  - vm_compute. reflexivity.
  - vm_compute. discriminate.
  - vm_compute. repeat constructor.
Defined.

Lemma hash_revision_boundary_witness :
  (exists s,
     V2.ArbitraryEntropyToMnemonic (sampleMnemonic English) (repeat x00 1024)
     = Ok s)
  /\ V2.ArbitraryEntropyToMnemonic (sampleMnemonic English) zeros1025
     = Err ErrEntropyTooLarge
  /\ V2.ArbitraryEntropyToMnemonic (sampleMnemonic English) [] 
     = Err ErrInvalidEntropy.
Proof.
  assert (Hm : length (wordList (sampleMnemonic English)) = 2048%nat)
    by (vm_compute; reflexivity).
  split; [|split].
  - apply (hash_revision_boundary (sampleMnemonic English) (repeat x00 1024) Hm).
    vm_compute. reflexivity.
  - apply (hash_revision_boundary (sampleMnemonic English) zeros1025 Hm).
    vm_compute. reflexivity.
  - apply (hash_revision_boundary (sampleMnemonic English) [] Hm).
    reflexivity.
Defined.

(** ** The generalized variant, earlier revision (src/mnemonic.go) *)

(** From 256 bytes of padded entropy on, the decoder of the earlier revision
    panics on the mnemonic that its own encoder produced: the [int64] mask
    [(1 << checksumBits) - 1] is -1 from 64 checksum bits on, and the
    division by [mask + 1] is a division by zero. *)
Theorem byte_revision_panics_from_256_bytes (m : Mnemonic) (e : list byte) :
  wfMnemonic m = true -> length e <> 0%nat ->
  (256 <= length (V1.padEntropy e))%nat ->
  (let* s := V1.ArbitraryEntropyToMnemonic m e in
   V1.ArbitraryMnemonicToEntropy m s) = Panic.
Proof.
  intros Hwf He Hbig.
  destruct (padEntropy_spec e) as [k [pad [_ [Hp _]]]].
  rewrite (V1_encode_spec m e k (wfm_length m Hwf) He Hp). cbn [bind].
  apply V1_decode_panic; [assumption | exact Hp | lia].
Qed.

(** C3 at 256 zero bytes, earlier revision: encoding succeeds and decoding
    the result panics. *)
Theorem byte_revision_round_trip_panics :
  let m := sampleMnemonic English in
  (exists s, V1.ArbitraryEntropyToMnemonic m zeros256 = Ok s)
  /\ (let* s := V1.ArbitraryEntropyToMnemonic m zeros256 in
      V1.ArbitraryMnemonicToEntropy m s) = Panic.
Proof.
  intros m. split.
  - eexists. apply (V1_encode_spec m zeros256 64); vm_compute; congruence.
  - apply byte_revision_panics_from_256_bytes.
    + vm_compute. reflexivity.
    + vm_compute. congruence.
    + vm_compute. repeat constructor.
Qed.

(* ================================================================== *)
(** * Further properties of the code *)

(* ------------------------------------------------------------------ *)
(** ** language.go: the words that [SplitMnemonic] returns *)

Lemma splitAtEach_noSeparator (p : N -> bool) (s w : gostring) :
  In w (splitAtEach p s) -> forallb (fun r => negb (p r)) w = true.
Proof.
  revert w. induction s as [|r s IH]; intros w Hin.
  - destruct Hin as [<- | []]. reflexivity.
  - unfold splitAtEach in Hin. cbn [fold_right] in Hin.
    fold (splitAtEach p s) in Hin.
    destruct (p r) eqn:Er.
    + destruct Hin as [<- | Hin]; [reflexivity | now apply IH].
    + destruct (splitAtEach p s) as [|w0 ws] eqn:Es.
      * destruct Hin as [<- | []]. simpl. now rewrite Er.
      * destruct Hin as [<- | Hin].
        -- simpl. rewrite Er. apply IH. now left.
        -- apply IH. now right.
Qed.

Lemma splitAtEach_concat (p : N -> bool) (s : gostring) :
  concat (splitAtEach p s) = List.filter (fun r => negb (p r)) s.
Proof.
  induction s as [|r s IH]; [reflexivity|].
  unfold splitAtEach. cbn [fold_right]. fold (splitAtEach p s).
  cbn [List.filter]. destruct (p r) eqn:Er; cbn [negb].
  - exact IH.
  - destruct (splitAtEach p s) as [|w0 ws] eqn:Es.
    + simpl in IH. now rewrite <- IH.
    + simpl in *. now rewrite IH.
Qed.

Lemma concat_filter_nonEmpty (l : list gostring) :
  concat (List.filter nonEmpty l) = concat l.
Proof.
  induction l as [|w l IH]; [reflexivity|].
  cbn [List.filter]. destruct w as [|r w]; simpl; now rewrite IH.
Qed.

Lemma splitAtEach_length (p : N -> bool) (s : gostring) :
  length (splitAtEach p s) = S (length (List.filter p s)).
Proof.
  induction s as [|r s IH]; [reflexivity|].
  unfold splitAtEach. cbn [fold_right]. fold (splitAtEach p s).
  cbn [List.filter]. destruct (p r).
  - simpl. now rewrite IH.
  - destruct (splitAtEach p s); simpl in *; lia.
Qed.

(** The first piece of a text that begins with a rune that does not
    separate begins with that rune. *)
Lemma splitAtEach_head (p : N -> bool) (r : N) (s : gostring) :
  p r = false ->
  exists w ws, splitAtEach p s = w :: ws
               /\ splitAtEach p (r :: s) = (r :: w) :: ws.
Proof.
  intros Hr. destruct (splitAtEach_cons p s) as [w [ws E]].
  exists w, ws. split; [assumption|].
  unfold splitAtEach in *. cbn [fold_right]. now rewrite Hr, E.
Qed.

(** The last piece of a text that ends with a rune that does not separate
    ends with that rune. *)
Lemma splitAtEach_sep (p : N -> bool) (r : N) (s : gostring) :
  p r = true -> splitAtEach p (r :: s) = [] :: splitAtEach p s.
Proof. intros Hr. unfold splitAtEach. cbn [fold_right]. now rewrite Hr. Qed.

Lemma splitAtEach_last (p : N -> bool) (s : gostring) (d : N) :
  s <> [] -> p (List.last s d) = false ->
  List.last (splitAtEach p s) [] <> []
  /\ List.last (List.last (splitAtEach p s) []) d = List.last s d.
Proof.
  induction s as [|r s IH]; [congruence|]. intros _ Hl.
  destruct s as [|r2 s].
  - simpl in Hl. unfold splitAtEach. simpl. rewrite Hl. simpl.
    split; [discriminate | reflexivity].
  - change (List.last (r :: r2 :: s) d) with (List.last (r2 :: s) d) in *.
    destruct IH as [IH1 IH2]; [discriminate | assumption |].
    destruct (p r) eqn:Er.
    + rewrite (splitAtEach_sep p r _ Er).
      destruct (splitAtEach_cons p (r2 :: s)) as [w [ws E]].
      rewrite E in *.
      change (List.last ([] :: w :: ws) []) with (List.last (w :: ws) []).
      now split.
    + destruct (splitAtEach_head p r (r2 :: s) Er) as [w [ws [E E']]].
      rewrite E'. rewrite E in *.
      destruct ws as [|w2 ws].
      * simpl in *. split; [discriminate|].
        destruct w as [|a w]; [congruence | exact IH2].
      * change (List.last ((r :: w) :: w2 :: ws) [])
          with (List.last (w2 :: ws) []).
        change (List.last (w :: w2 :: ws) [])
          with (List.last (w2 :: ws) []) in *.
        now split.
Qed.

Lemma last_filter {A} (f : A -> bool) (l : list A) (d : A) :
  l <> [] -> f (List.last l d) = true ->
  List.last (List.filter f l) d = List.last l d.
Proof.
  induction l as [|x l IH]; [congruence|]. intros _ Hl.
  destruct l as [|y l].
  - simpl in *. now rewrite Hl.
  - change (List.last (x :: y :: l) d) with (List.last (y :: l) d) in *.
    specialize (IH ltac:(discriminate) Hl).
    cbn [List.filter] in *. destruct (f x); [|exact IH].
    destruct (f y) eqn:Ey.
    + exact IH.
    + destruct (List.filter f l) as [|z fl] eqn:Ef.
      * (* the last element passes the filter, so the filter is not empty *)
        exfalso. clear IH.
        assert (Hin : In (List.last (y :: l) d) (List.filter f (y :: l))).
        { apply filter_In. split; [|assumption].
          clear. revert y. induction l as [|z l IH]; intros y;
            [now left|].
          change (List.last (y :: z :: l) d) with (List.last (z :: l) d).
          right. apply IH. }
        cbn [List.filter] in Hin. rewrite Ey, Ef in Hin. destruct Hin.
      * exact IH.
Qed.

Lemma length_filter_ends {A} (f : A -> bool) (x : A) (l : list A) (d : A) :
  l <> [] -> f x = true -> f (List.last l d) = true ->
  (2 <= length (List.filter f (x :: l)))%nat.
Proof.
  intros Hl Hx Hlast. cbn [List.filter]. rewrite Hx. simpl.
  destruct (List.filter f l) as [|y fl] eqn:Ef; [|simpl; lia].
  exfalso.
  assert (Hin : In (List.last l d) (List.filter f l)).
  { apply filter_In. split; [|assumption].
    clear -Hl. induction l as [|z l IH]; [congruence|].
    destruct l as [|z2 l]; [now left|].
    change (List.last (z :: z2 :: l) d) with (List.last (z2 :: l) d).
    right. apply IH. discriminate. }
  rewrite Ef in Hin. destruct Hin.
Qed.

Lemma Join_last (ws : list gostring) (sep : gostring) :
  ws <> [] -> exists p, Join ws sep = p ++ List.last ws [].
Proof.
  induction ws as [|w ws IH]; [congruence|]. intros _.
  destruct ws as [|w2 ws].
  - now exists [].
  - destruct IH as [p E]; [discriminate|].
    exists (w ++ sep ++ p).
    change (Join (w :: w2 :: ws) sep) with (w ++ sep ++ Join (w2 :: ws) sep).
    change (List.last (w :: w2 :: ws) []) with (List.last (w2 :: ws) []).
    rewrite E. now rewrite <- !app_assoc.
Qed.

Lemma last_snoc_rev {A} (s : list A) (r d : A) (q : list A) :
  rev s = r :: q -> List.last s d = r /\ s <> [].
Proof.
  intros E. apply (f_equal (@rev A)) in E. rewrite rev_involutive in E.
  subst s. simpl. split.
  - now rewrite last_last.
  - destruct (rev q); discriminate.
Qed.

Lemma rev_last_cons {A} (w : list A) (d : A) :
  w <> [] -> exists q, rev w = List.last w d :: q.
Proof.
  intros Hw. destruct (exists_last Hw) as [w' [r ->]].
  rewrite rev_app_distr, last_last. simpl. eauto.
Qed.

Lemma containsRune_app (r : N) (a b : gostring) :
  containsRune r (a ++ b) = containsRune r a || containsRune r b.
Proof. unfold containsRune. apply existsb_app. Qed.

Lemma containsRune_separator (w : gostring) :
  forallb (fun r => negb (isSeparator r)) w = true ->
  containsRune japaneseSpace w = false.
Proof.
  intros H. unfold containsRune. apply not_true_iff_false. intros E.
  apply existsb_exists in E as [r [Hin Hr]]. apply N.eqb_eq in Hr. subst r.
  rewrite forallb_forall in H. specialize (H _ Hin). discriminate.
Qed.

Lemma containsRune_filter (s : gostring) :
  containsRune japaneseSpace s = true ->
  List.filter isSeparator s <> [].
Proof.
  unfold containsRune. intros E.
  apply existsb_exists in E as [r [Hin Hr]]. apply N.eqb_eq in Hr. subst r.
  intros Hnil.
  assert (H : In japaneseSpace (List.filter isSeparator s))
    by (apply filter_In; now split).
  rewrite Hnil in H. destruct H.
Qed.

Lemma splitOnRuns_clean (s : gostring) :
  Forall cleanWord (splitOnRuns isSeparator s).
Proof.
  apply List.Forall_forall. intros w Hin. unfold splitOnRuns in Hin.
  apply filter_In in Hin as [Hin Hne]. split; [assumption|].
  now apply (splitAtEach_noSeparator _ s).
Qed.

Lemma splitOnRuns_Join_clean (ws : list gostring) (sep : gostring) :
  sep = regularSpace \/ sep = [japaneseSpace] ->
  Forall cleanWord ws ->
  splitOnRuns isSeparator (Join ws sep) = ws.
Proof.
  intros Hsep Hall. unfold splitOnRuns.
  induction Hall as [|w ws [Hne Hw] Hall IH]; [reflexivity|].
  destruct ws as [|w2 ws].
  - simpl Join. rewrite <- (app_nil_r w) at 1.
    rewrite splitAtEach_word by assumption.
    simpl. rewrite app_nil_r, Hne. reflexivity.
  - change (Join (w :: w2 :: ws) sep) with (w ++ sep ++ Join (w2 :: ws) sep).
    rewrite splitAtEach_word by assumption.
    assert (Hs : splitAtEach isSeparator (sep ++ Join (w2 :: ws) sep)
                 = [] :: splitAtEach isSeparator (Join (w2 :: ws) sep)).
    { destruct Hsep as [-> | ->]; reflexivity. }
    rewrite Hs. cbn [List.filter]. rewrite app_nil_r, Hne. now rewrite IH.
Qed.

Lemma containsRune_Join (ws : list gostring) (sep : gostring) :
  Forall cleanWord ws ->
  containsRune japaneseSpace (Join ws sep)
  = (2 <=? length ws)%nat && containsRune japaneseSpace sep.
Proof.
  intros Hall. induction Hall as [|w ws [_ Hw] Hall IH]; [reflexivity|].
  destruct ws as [|w2 ws].
  - simpl Join. now rewrite containsRune_separator.
  - change (Join (w :: w2 :: ws) sep) with (w ++ sep ++ Join (w2 :: ws) sep).
    rewrite !containsRune_app, IH, containsRune_separator by assumption.
    cbn [orb length Nat.leb andb].
    destruct (containsRune japaneseSpace sep);
      [reflexivity | now rewrite andb_false_r].
Qed.

Lemma TrimSpace_id (s : gostring) :
  startsClean s -> startsClean (rev s) -> TrimSpace s = s.
Proof.
  intros H1 H2. unfold TrimSpace.
  rewrite (TrimLeft_id s) by exact H1.
  rewrite (TrimLeft_id (rev s)) by exact H2.
  apply rev_involutive.
Qed.

(** The words of a trimmed text, joined again, begin and end as the text
    does; and a text with a separator inside has two words at least. *)
Lemma splitOnRuns_trimmed (t : gostring) (sep : gostring) :
  startsClean t -> startsClean (rev t) ->
  let ws := splitOnRuns isSeparator t in
  startsClean (Join ws sep) /\ startsClean (rev (Join ws sep))
  /\ (List.filter isSeparator t <> [] -> (2 <= length ws)%nat).
Proof.
  intros H1 H2 ws. destruct t as [|r t]; [now repeat split|].
  simpl in H1.
  assert (Hr : isSeparator r = false).
  { destruct (isSeparator r) eqn:E; [|reflexivity].
    apply isSeparator_IsSpace in E. congruence. }
  destruct (splitAtEach_head isSeparator r t Hr) as [w [rest [Et E]]].
  destruct (rev (r :: t)) as [|l q] eqn:Erev.
  { apply (f_equal (@length N)) in Erev. rewrite length_rev in Erev.
    discriminate. }
  simpl in H2.
  destruct (last_snoc_rev (r :: t) l 0%N q Erev) as [Hlast _].
  assert (Hl : isSeparator (List.last (r :: t) 0%N) = false).
  { rewrite Hlast. destruct (isSeparator l) eqn:E'; [|reflexivity].
    apply isSeparator_IsSpace in E'. congruence. }
  destruct (splitAtEach_last isSeparator (r :: t) 0%N ltac:(discriminate) Hl)
    as [Hne Hll].
  assert (Hws : ws = (r :: w) :: List.filter nonEmpty rest).
  { unfold ws, splitOnRuns. now rewrite E. }
  assert (Hlastw : List.last ws [] = List.last (splitAtEach isSeparator (r :: t)) []).
  { unfold ws, splitOnRuns. apply last_filter.
    - rewrite E. discriminate.
    - destruct (List.last (splitAtEach isSeparator (r :: t)) []);
        [congruence | reflexivity]. }
  split; [|split].
  - rewrite Hws. destruct (List.filter nonEmpty rest); simpl; assumption.
  - destruct (Join_last ws sep) as [p Ep]; [rewrite Hws; discriminate|].
    rewrite Ep, rev_app_distr, Hlastw.
    destruct (rev_last_cons _ 0%N Hne) as [q' Eq']. rewrite Eq'.
    unfold startsClean. cbn [app]. now rewrite Hll, Hlast.
  - intros Hsep.
    assert (Hrest : rest <> []).
    { pose proof (splitAtEach_length isSeparator (r :: t)) as Hlen.
      rewrite E in Hlen. intros ->.
      destruct (List.filter isSeparator (r :: t)) as [|x xs];
        [congruence | discriminate]. }
    unfold ws, splitOnRuns. rewrite E.
    apply (length_filter_ends nonEmpty (r :: w) rest []);
      [assumption | reflexivity |].
    rewrite E in Hne.
    destruct rest as [|w2 rest]; [congruence|].
    change (List.last ((r :: w) :: w2 :: rest) [])
      with (List.last (w2 :: rest) []) in Hne.
    destruct (List.last (w2 :: rest) []); [congruence | reflexivity].
Qed.

Lemma SplitMnemonic_Normalize (s : gostring) :
  SplitMnemonic (NormalizeMnemonic s) = SplitMnemonic s.
Proof.
  unfold NormalizeMnemonic. rewrite (SplitMnemonic_spec s).
  destruct (TrimSpace_spec s) as [a [b [_ [_ [_ [H1 H2]]]]]].
  set (t := TrimSpace s) in *.
  set (sep := if containsRune japaneseSpace t then [japaneseSpace]
              else regularSpace).
  assert (Hsep : sep = regularSpace \/ sep = [japaneseSpace]).
  { unfold sep. destruct (containsRune japaneseSpace t); auto. }
  destruct (splitOnRuns_trimmed t sep H1 H2) as [Hc1 [Hc2 Hlen]].
  pose proof (splitOnRuns_clean t) as Hclean.
  rewrite SplitMnemonic_spec, (TrimSpace_id _ Hc1 Hc2).
  rewrite splitOnRuns_Join_clean by assumption.
  rewrite containsRune_Join by assumption.
  f_equal. unfold sep at 1.
  destruct (containsRune japaneseSpace t) eqn:Et.
  - apply containsRune_filter in Et. specialize (Hlen Et).
    destruct (Nat.leb_spec 2 (length (splitOnRuns isSeparator t))); [|lia].
    reflexivity.
  - now rewrite andb_false_r.
Qed.

(** X1. [NormalizeMnemonic] keeps the words and the delimiter that
    [SplitMnemonic] reads off a text, so normalizing twice is normalizing
    once; the words of the normalized text are separated by single
    delimiters only, as it is the words joined by the delimiter. *)
Theorem NormalizeMnemonic_idempotent (mnemonic : gostring) :
  SplitMnemonic (NormalizeMnemonic mnemonic) = SplitMnemonic mnemonic
  /\ NormalizeMnemonic (NormalizeMnemonic mnemonic)
     = NormalizeMnemonic mnemonic
  /\ TrimSpace (NormalizeMnemonic mnemonic) = NormalizeMnemonic mnemonic.
Proof.
  split; [apply SplitMnemonic_Normalize|]. split.
  - unfold NormalizeMnemonic at 1 3.
    now rewrite SplitMnemonic_Normalize.
  - unfold NormalizeMnemonic. rewrite (SplitMnemonic_spec mnemonic).
    destruct (TrimSpace_spec mnemonic) as [a [b [_ [_ [_ [H1 H2]]]]]].
    destruct (splitOnRuns_trimmed (TrimSpace mnemonic)
                (if containsRune japaneseSpace (TrimSpace mnemonic)
                 then [japaneseSpace] else regularSpace) H1 H2)
      as [Hc1 [Hc2 _]].
    now apply TrimSpace_id.
Qed.

(** X2. Whatever the text is, the words that [SplitMnemonic] returns are
    not empty and hold none of the seven separators; put end to end they are
    the runes of the trimmed text that are not separators, in their order;
    and the delimiter is the ordinary or the ideographic space. *)
Theorem SplitMnemonic_words (mnemonic : gostring) :
  let '(ws, delim) := SplitMnemonic mnemonic in
  Forall (fun w => w <> [] /\ forallb (fun r => negb (isSeparator r)) w = true)
         ws
  /\ concat ws
     = List.filter (fun r => negb (isSeparator r)) (TrimSpace mnemonic)
  /\ (delim = regularSpace \/ delim = [japaneseSpace]).
Proof.
  rewrite SplitMnemonic_spec. split; [|split].
  - pose proof (splitOnRuns_clean (TrimSpace mnemonic)) as H.
    eapply List.Forall_impl; [|exact H]. intros w [Hne Hw]. split; [|exact Hw].
    destruct w; [discriminate | discriminate].
  - unfold splitOnRuns. rewrite concat_filter_nonEmpty.
    apply splitAtEach_concat.
  - destruct (containsRune japaneseSpace (TrimSpace mnemonic)); auto.
Qed.

(** X3. A text of white space only (the empty text too) has no words, and
    its delimiter is the ordinary space, also when the white space holds
    ideographic spaces. *)
Theorem SplitMnemonic_blank (mnemonic : gostring) :
  forallb IsSpace mnemonic = true ->
  SplitMnemonic mnemonic = ([], regularSpace)
  /\ NormalizeMnemonic mnemonic = [].
Proof.
  intros H.
  assert (Ht : TrimSpace mnemonic = []).
  { unfold TrimSpace.
    assert (E : forall s, forallb IsSpace s = true -> TrimLeft s = []).
    { induction s as [|r s IH]; [reflexivity|]. simpl.
      intros Hs. apply andb_prop in Hs as [-> Hs]. now apply IH. }
    now rewrite (E _ H). }
  assert (Hs : SplitMnemonic mnemonic = ([], regularSpace)).
  { rewrite SplitMnemonic_spec, Ht. reflexivity. }
  split; [exact Hs|]. unfold NormalizeMnemonic. now rewrite Hs.
Qed.

Lemma SplitMnemonic_blank_witness :
  SplitMnemonic (runes [0x3000; 0x20; 0x3000]) = ([], regularSpace)
  /\ NormalizeMnemonic (runes [0x3000; 0x20; 0x3000]) = [].
Proof. apply SplitMnemonic_blank. reflexivity. Defined.

(* ------------------------------------------------------------------ *)
(** ** bip39.go: what [DetectLanguage] returns *)

Lemma allLanguages_all (l : Language) : In l allLanguages.
Proof. destruct l; simpl; tauto. Qed.

Lemma allLanguages_NoDup : NoDup allLanguages.
Proof.
  apply (bool_decide_unpack _). vm_compute. exact I.
Qed.

Section DetectMore.

Variable wordlists : Language -> languageData.

Lemma In_innerLanguages (l : Language) (d : languageData) :
  In (l, d) (innerLanguages wordlists) <-> d = wordlists l.
Proof.
  unfold innerLanguages. rewrite in_map_iff. split.
  - intros [x [E _]]. now inversion E.
  - intros ->. exists l. split; [reflexivity | apply allLanguages_all].
Qed.

Lemma In_candidates (options : DetectLanguageOptions) (delim : gostring)
    (l : Language) (d : languageData) :
  In (l, d) (candidates wordlists options delim)
  <-> d = wordlists l
      /\ (languages options = [] \/ In l (languages options))
      /\ (delim = [japaneseSpace] -> l = Japanese).
Proof.
  unfold candidates.
  assert (H1 : In (l, d)
                 (if (0 <? length (languages options))%nat
                  then filter (fun p => fst p ∈ languages options)
                              (innerLanguages wordlists)
                  else innerLanguages wordlists)
               <-> d = wordlists l
                   /\ (languages options = [] \/ In l (languages options))).
  { destruct (languages options) as [|x xs] eqn:E.
    - change (0 <? length (@nil Language))%nat with false. cbv iota.
      rewrite In_innerLanguages. tauto.
    - change (0 <? length (x :: xs))%nat with true. cbv iota.
      rewrite <- list_elem_of_In, list_elem_of_filter, !list_elem_of_In.
      rewrite In_innerLanguages. cbn [fst].
      split; [intros [? ?]; split; auto|].
      intros [? [?|?]]; [discriminate | now split]. }
  destruct (decide (delim = [japaneseSpace])) as [Hd|Hd].
  - rewrite <- list_elem_of_In, list_elem_of_filter, list_elem_of_In, H1.
    cbn [fst]. tauto.
  - rewrite H1. tauto.
Qed.

Lemma candidates_NoDup (options : DetectLanguageOptions) (delim : gostring) :
  NoDup (map fst (candidates wordlists options delim)).
Proof.
  assert (H0 : map fst (innerLanguages wordlists) = allLanguages).
  { unfold innerLanguages. rewrite map_map. apply map_id. }
  assert (Hsub : sublist (candidates wordlists options delim)
                         (innerLanguages wordlists)).
  { unfold candidates.
    destruct (0 <? length (languages options))%nat;
      destruct (decide _);
      repeat (etransitivity; [apply sublist_filter|]); reflexivity. }
  apply (sublist_NoDup _ allLanguages); [apply allLanguages_NoDup|].
  rewrite <- H0. now apply (fmap_sublist fst).
Qed.

Lemma In_narrow (w : gostring) (possible : list (Language * languageData))
    (p : Language * languageData) :
  In p (narrow w possible) <-> is_Some (wordsMap (snd p) !! w) /\ In p possible.
Proof.
  unfold narrow.
  now rewrite <- !list_elem_of_In, list_elem_of_filter.
Qed.

Lemma detectLoop_found (ws : list gostring)
    (possible : list (Language * languageData)) :
  snd (detectLoop ws possible)
  = (0 <? length (fst (detectLoop ws possible)))%nat.
Proof.
  revert possible. induction ws as [|w ws IH]; intros possible.
  - simpl. now rewrite length_map.
  - cbn [detectLoop].
    destruct (Nat.eqb_spec (length (narrow w possible)) 1) as [H1|H1];
      [|apply IH].
    cbn [fst snd]. rewrite length_map, H1. reflexivity.
Qed.

Lemma detectLoop_sublist (ws : list gostring)
    (possible : list (Language * languageData)) :
  sublist (fst (detectLoop ws possible)) (map fst possible).
Proof.
  revert possible. induction ws as [|w ws IH]; intros possible.
  - reflexivity.
  - cbn [detectLoop].
    assert (Hn : sublist (map fst (narrow w possible)) (map fst possible)).
    { apply (fmap_sublist fst). apply sublist_filter. }
    destruct (length (narrow w possible) =? 1)%nat; [exact Hn|].
    etransitivity; [apply IH | exact Hn].
Qed.

(** Every language returned holds the first word; when two languages or more
    are returned, no word was skipped, and they hold every word. *)
Lemma detectLoop_sound (ws : list gostring)
    (possible : list (Language * languageData)) (l : Language) :
  In l (fst (detectLoop ws possible)) ->
  exists d,
    In (l, d) possible
    /\ (forall w, head ws = Some w -> is_Some (wordsMap d !! w))
    /\ ((2 <= length (fst (detectLoop ws possible)))%nat ->
        Forall (fun w => is_Some (wordsMap d !! w)) ws).
Proof.
  revert possible. induction ws as [|w ws IH]; intros possible Hin.
  - simpl in Hin. apply in_map_iff in Hin as [[l' d] [E Hin]].
    simpl in E. subst l'. exists d. split; [assumption|].
    split; [discriminate | constructor].
  - cbn [detectLoop] in *.
    destruct (Nat.eqb_spec (length (narrow w possible)) 1) as [H1|H1].
    + cbn [fst] in *. apply in_map_iff in Hin as [[l' d] [E Hin]].
      simpl in E. subst l'. apply In_narrow in Hin as [Hw Hin].
      exists d. split; [assumption|]. split.
      * intros w' [= <-]. exact Hw.
      * rewrite length_map, H1. lia.
    + destruct (IH _ Hin) as [d [Hd [_ Hall]]].
      apply In_narrow in Hd as [Hw Hd]. exists d.
      split; [assumption|]. split.
      * intros w' [= <-]. exact Hw.
      * intros Hlen. constructor; [exact Hw | now apply Hall].
Qed.

(** A candidate that holds every word is never deleted, so it is returned. *)
Lemma detectLoop_complete (ws : list gostring)
    (possible : list (Language * languageData)) (l : Language)
    (d : languageData) :
  In (l, d) possible ->
  Forall (fun w => is_Some (wordsMap d !! w)) ws ->
  In l (fst (detectLoop ws possible)).
Proof.
  intros Hin Hall. revert possible Hin.
  induction Hall as [|w ws Hw Hall IH]; intros possible Hin.
  - simpl. apply in_map_iff. now exists (l, d).
  - cbn [detectLoop].
    assert (Hn : In (l, d) (narrow w possible)) by now apply In_narrow.
    destruct (length (narrow w possible) =? 1)%nat.
    + cbn [fst]. apply in_map_iff. now exists (l, d).
    + now apply IH.
Qed.

End DetectMore.

Lemma found_nonempty {A} (ls : list A) :
  (0 <? length ls)%nat = true <-> ls <> [].
Proof.
  destruct ls; simpl; split; intros H; try congruence; try discriminate.
  reflexivity.
Qed.

(** X4. What [DetectLanguage] returns: found is true exactly when a language
    is returned; no language is returned twice; every returned language is
    one of the supplied ones (when some are supplied), is Japanese when the
    delimiter of the text is the ideographic space, and holds the first word
    of the text; and when two languages or more are returned, each of them
    holds every word of the text. *)
Theorem DetectLanguage_sound (wordlists : Language -> languageData)
    (mnemonic : gostring) (opts : list DetectLanguageOption) :
  let supplied := languages (applyOptions opts {| languages := [] |}) in
  let '(ws, delim) := splitMnemonic mnemonic in
  let '(ls, found) := DetectLanguage wordlists mnemonic opts in
  (found = true <-> ls <> [])
  /\ NoDup ls
  /\ (forall l, In l ls ->
        (supplied = [] \/ In l supplied)
        /\ (delim = [japaneseSpace] -> l = Japanese)
        /\ (forall w, head ws = Some w ->
                      is_Some (wordsMap (wordlists l) !! w)))
  /\ ((2 <= length ls)%nat ->
      forall l w, In l ls -> In w ws ->
                  is_Some (wordsMap (wordlists l) !! w)).
Proof.
  intros supplied. unfold DetectLanguage. fold supplied.
  destruct (splitMnemonic mnemonic) as [ws delim].
  set (options := applyOptions opts {| languages := [] |}) in *.
  set (possible := candidates wordlists options delim).
  pose proof (detectLoop_found ws possible) as Hf.
  pose proof (detectLoop_sublist ws possible) as Hsub.
  pose proof (detectLoop_sound ws possible) as Hs.
  destruct (detectLoop ws possible) as [ls found]. cbn [fst snd] in *.
  split; [rewrite Hf; apply found_nonempty|].
  split; [eapply sublist_NoDup; [apply candidates_NoDup | exact Hsub]|].
  split.
  - intros l Hl. destruct (Hs l Hl) as [d [Hd [Hw _]]].
    apply In_candidates in Hd as [-> [Hr Hj]]. auto.
  - intros Hlen l w Hl Hw. destruct (Hs l Hl) as [d [Hd [_ Hall]]].
    apply In_candidates in Hd as [-> _].
    specialize (Hall Hlen). rewrite List.Forall_forall in Hall. auto.
Qed.

Lemma allKnown_Forall (m : Mnemonic) (ws : list gostring) :
  allKnown m ws = true <-> Forall (fun w => is_Some (wordMap m !! w)) ws.
Proof.
  unfold allKnown. rewrite forallb_forall, List.Forall_forall.
  split; intros H w Hw; specialize (H w Hw).
  - now apply bool_decide_eq_true in H.
  - now apply bool_decide_eq_true.
Qed.

(** X5. [DetectLanguage] never misses a language: a language that is among
    the supplied ones (when some are supplied), that is Japanese if the
    delimiter of the text is the ideographic space, and whose table holds
    every word of the text, is among the returned ones, with found true. *)
Theorem DetectLanguage_complete (wordlists : Language -> languageData)
    (mnemonic : gostring) (opts : list DetectLanguageOption) (l : Language) :
  let supplied := languages (applyOptions opts {| languages := [] |}) in
  (supplied = [] \/ In l supplied) ->
  (snd (splitMnemonic mnemonic) = [japaneseSpace] -> l = Japanese) ->
  allKnown (mnemonicOf wordlists l) (fst (splitMnemonic mnemonic)) = true ->
  exists ls, DetectLanguage wordlists mnemonic opts = (ls, true) /\ In l ls.
Proof.
  intros supplied Hsup Hj Hall. apply allKnown_Forall in Hall.
  cbn [mnemonicOf wordMap] in Hall. unfold DetectLanguage.
  destruct (splitMnemonic mnemonic) as [ws delim]. cbn [fst snd] in *.
  set (possible := candidates wordlists _ delim).
  assert (Hin : In (l, wordlists l) possible)
    by (apply In_candidates; auto).
  pose proof (detectLoop_complete ws possible l _ Hin Hall) as Hl.
  pose proof (detectLoop_found ws possible) as Hf.
  destruct (detectLoop ws possible) as [ls found]. cbn [fst snd] in *.
  exists ls. split; [|assumption]. f_equal. rewrite Hf.
  apply found_nonempty. intros ->. destruct Hl.
Qed.

Lemma DetectLanguage_complete_witness :
  exists ls,
    DetectLanguage sampleWordlists
      (sampleWord (languageTag Korean) 5 ++ regularSpace
       ++ sampleWord (languageTag Korean) 7) [WithLanguages [Korean; Czech]]
    = (ls, true) /\ In Korean ls.
Proof.
  apply (DetectLanguage_complete sampleWordlists _ _ Korean).
  - right. simpl. tauto.
  - vm_compute. discriminate.
  - vm_compute. reflexivity.
Defined.

(* ------------------------------------------------------------------ *)
(** ** mnemonic.go: the decoders on any text and any table *)

Lemma decodeWords_unknown (m : Mnemonic) (ws : list gostring) (b : Z) :
  allKnown m ws = false -> decodeWords m ws b = Err ErrInvalidMnemonic.
Proof.
  revert b. induction ws as [|w ws IH]; intros b H; [discriminate|].
  cbn [allKnown forallb] in H. cbn [decodeWords].
  destruct (wordMap m !! w) as [i|]; [|reflexivity].
  apply IH. rewrite bool_decide_eq_true_2 in H by eauto. exact H.
Qed.

Lemma decodeWords_known (m : Mnemonic) (ws : list gostring) (b : Z) :
  allKnown m ws = true -> 0 <= b ->
  exists v, decodeWords m ws b = Ok v /\ 0 <= v.
Proof.
  revert b. induction ws as [|w ws IH]; intros b H Hb; [now exists b|].
  cbn [allKnown forallb] in H. apply andb_prop in H as [Hw H].
  apply bool_decide_eq_true in Hw as [i Hi]. cbn [decodeWords]. rewrite Hi.
  apply IH; [exact H|]. apply Z.lor_nonneg. split; [lia|].
  apply SetBytes_range.
Qed.

Lemma valid_count (n : nat) :
  isValidWordsSize n = true -> exists cs, (4 <= cs <= 8)%nat /\ n = (3 * cs)%nat.
Proof.
  unfold isValidWordsSize, validWordsSizes. intros H.
  apply bool_decide_eq_true in H.
  rewrite !elem_of_cons, elem_of_nil in H.
  destruct H as [->|[->|[->|[->|[->|[]]]]]];
    [exists 4%nat | exists 5%nat | exists 6%nat | exists 7%nat | exists 8%nat];
    lia.
Qed.

Lemma big_Div_pow2 (b : Z) (k : Z) :
  0 <= k -> big_Div b (2 ^ k - 1 + 1) = Ok (b / 2 ^ k).
Proof.
  intros Hk. replace (2 ^ k - 1 + 1) with (2 ^ k) by lia.
  assert (Hp : 0 < 2 ^ k) by (apply Z.pow_pos_nonneg; lia).
  unfold big_Div. destruct (Z.eqb_spec (2 ^ k) 0); [lia|].
  destruct (Z.ltb_spec 0 (2 ^ k)); [reflexivity | lia].
Qed.

Lemma padByteSlice_min (s : list byte) (n : nat) :
  (n <= length (padByteSlice s n))%nat.
Proof.
  unfold padByteSlice. destruct (Z.leb_spec (Z.of_nat n - Z.of_nat (length s)) 0).
  - lia.
  - rewrite length_app, repeat_length. lia.
Qed.

(** The standard decoder once the words are folded into [b]. *)
Lemma EntropyFromMnemonic_decoded (m : Mnemonic) (mnemonic : gostring)
    (cs : nat) (b : Z) :
  (4 <= cs <= 8)%nat ->
  length (fst (SplitMnemonic mnemonic)) = (3 * cs)%nat ->
  decodeWords m (fst (SplitMnemonic mnemonic)) 0 = Ok b ->
  V1.EntropyFromMnemonic m mnemonic
  = let entropy := padByteSlice (big_Bytes (b / 2 ^ Z.of_nat cs)) (4 * cs) in
    if Z.land b (2 ^ Z.of_nat cs - 1)
       =? byteZ (nth 0 (SHA256.Sum256 entropy) x00) / 2 ^ (8 - Z.of_nat cs)
    then Ok entropy else Err ErrChecksumIncorrect.
Proof.
  intros Hcs Hn Hb. unfold V1.EntropyFromMnemonic.
  destruct (SplitMnemonic mnemonic) as [ws dl]. cbn [fst] in *.
  cbv zeta. rewrite Hn, Hb.
  destruct (valid_sizes cs Hcs) as [_ Hv]. rewrite Hv. cbn [negb bind].
  rewrite masks_lookup by assumption.
  rewrite big_Div_pow2 by lia. cbn [bind].
  assert (Hdiv : (3 * cs / 3 * 4 = 4 * cs)%nat).
  { rewrite (Nat.mul_comm 3 cs), Nat.div_mul by lia. lia. }
  rewrite Hdiv, computeChecksum_ok. cbn [bind].
  set (entropy := padByteSlice _ _).
  set (h0 := byteZ (nth 0 (SHA256.Sum256 entropy) x00)).
  destruct (Nat.eqb_spec (3 * cs) 24) as [E24|N24]; cbn [negb bind].
  - assert (cs = 8%nat) by lia. subst cs.
    change (2 ^ (8 - Z.of_nat 8)) with 1. rewrite Z.div_1_r.
    now destruct (Z.land b (2 ^ Z.of_nat 8 - 1) =? h0).
  - rewrite shifts_lookup by lia.
    assert (Hq : 0 < 2 ^ (8 - Z.of_nat cs)) by (apply Z.pow_pos_nonneg; lia).
    unfold big_Div.
    destruct (Z.eqb_spec (2 ^ (8 - Z.of_nat cs)) 0); [lia|].
    destruct (Z.ltb_spec 0 (2 ^ (8 - Z.of_nat cs))); [|lia].
    cbn [bind].
    now destruct (Z.land b (2 ^ Z.of_nat cs - 1) =? h0 / 2 ^ (8 - Z.of_nat cs)).
Qed.

(** X6. [EntropyFromMnemonic] never panics, whatever the table and the text
    are, and its answers come in a fixed order: a word count other than 12,
    15, 18, 21 or 24 gives [ErrInvalidNumberWords]; otherwise a word that is
    not a key of the table gives [ErrInvalidMnemonic]; otherwise the answer
    is [ErrChecksumIncorrect] or an entropy of 4 bytes per 3 words at least.
    The later revision answers the same. *)
Theorem standard_decoder_outcomes (m : Mnemonic) (mnemonic : gostring) :
  let ws := fst (SplitMnemonic mnemonic) in
  let n := length ws in
  match V1.EntropyFromMnemonic m mnemonic with
  | Ok e =>
      isValidWordsSize n = true /\ allKnown m ws = true
      /\ (n / 3 * 4 <= length e)%nat
  | Err err =>
      err = if negb (isValidWordsSize n) then ErrInvalidNumberWords
            else if negb (allKnown m ws) then ErrInvalidMnemonic
                 else ErrChecksumIncorrect
  | Panic => False
  end
  /\ V2.EntropyFromMnemonic m mnemonic = V1.EntropyFromMnemonic m mnemonic.
Proof.
  intros ws n. split; [|apply standard_decoder_unchanged].
  destruct (isValidWordsSize n) eqn:Hv.
  - destruct (valid_count n Hv) as [cs [Hcs Hn]].
    destruct (allKnown m ws) eqn:Hk.
    + destruct (decodeWords_known m ws 0 Hk ltac:(lia)) as [b [Hb _]].
      rewrite (EntropyFromMnemonic_decoded m mnemonic cs b Hcs Hn Hb).
      cbv zeta. destruct (_ =? _); [|reflexivity].
      split; [reflexivity|]. split; [reflexivity|].
      replace (n / 3 * 4)%nat with (4 * cs)%nat.
      * apply padByteSlice_min.
      * rewrite Hn, (Nat.mul_comm 3 cs), Nat.div_mul by lia. lia.
    + unfold V1.EntropyFromMnemonic. fold ws.
      destruct (SplitMnemonic mnemonic) as [ws' dl]. cbn [fst] in *.
      subst ws n. cbv zeta. rewrite Hv. cbn [negb].
      now rewrite (decodeWords_unknown m ws' 0 Hk).
  - unfold V1.EntropyFromMnemonic.
    destruct (SplitMnemonic mnemonic) as [ws' dl]. cbn [fst] in *.
    subst ws n. cbv zeta. now rewrite Hv.
Qed.

(* ------------------------------------------------------------------ *)
(** ** The generalized decoders: where they panic *)

Lemma count_multiple (n : nat) :
  (n =? 0)%nat || negb (n mod 3 =? 0)%nat = false ->
  exists k, (1 <= k)%nat /\ n = (3 * k)%nat.
Proof.
  intros H. apply orb_false_elim in H as [H0 H3].
  apply Nat.eqb_neq in H0. apply negb_false_iff, Nat.eqb_eq in H3.
  exists (n / 3)%nat. pose proof (Nat.div_mod_eq n 3). lia.
Qed.

Lemma int64_mask (k : nat) :
  wrap64 (shl64 1 k - 1) = if (64 <=? k)%nat then -1 else 2 ^ Z.of_nat k - 1.
Proof.
  unfold shl64. destruct (Nat.leb_spec 64 k) as [H|H]; [reflexivity|].
  rewrite Z.shiftl_mul_pow2, Z.mul_1_l by lia.
  destruct (Nat.eq_dec k 63%nat) as [->|Hk]; [reflexivity|].
  assert (Hp : 0 < 2 ^ Z.of_nat k < 2 ^ 63).
  { split; [apply Z.pow_pos_nonneg; lia|].
    apply Z.pow_lt_mono_r; lia. }
  rewrite (wrap64_small (2 ^ Z.of_nat k)) by lia.
  apply wrap64_small. lia.
Qed.

Lemma readHash_short (h : list byte) (n i : nat) (acc : Z) :
  (0 < n)%nat -> (length h < i + n)%nat -> V2.readHash h i n acc = Panic.
Proof.
  revert i acc. induction n as [|n IH]; intros i acc H0 H.
  - lia.
  - cbn [V2.readHash]. unfold V2.index.
    destruct (h !! i) as [x|] eqn:E; [|reflexivity].
    apply lookup_lt_Some in E.
    cbn [bind]. apply IH; lia.
Qed.

Lemma V1_expected_small (k : nat) (h0 : byte) :
  (k <= 8)%nat ->
  V1.expectedChecksum k h0 = byteZ h0 / 2 ^ (8 - Z.of_nat k).
Proof.
  intros Hk. unfold V1.expectedChecksum.
  destruct (Nat.leb_spec k 8); [|lia].
  rewrite Z.shiftr_div_pow2 by lia. do 2 f_equal. lia.
Qed.

(** The generalized decoder of src/mnemonic.go once the words are folded
    into [b]. *)
Lemma V1_decoded (m : Mnemonic) (mnemonic : gostring) (k : nat) (b : Z) :
  (1 <= k)%nat ->
  length (fst (SplitMnemonic mnemonic)) = (3 * k)%nat ->
  decodeWords m (fst (SplitMnemonic mnemonic)) 0 = Ok b ->
  V1.ArbitraryMnemonicToEntropy m mnemonic
  = if (64 <=? k)%nat then Panic
    else
      let entropy := padByteSlice (big_Bytes (b / 2 ^ Z.of_nat k)) (4 * k) in
      if Z.land b (2 ^ Z.of_nat k - 1)
         =? V1.expectedChecksum k (nth 0 (SHA256.Sum256 entropy) x00)
      then Ok entropy else Err ErrChecksumIncorrect.
Proof.
  intros Hk Hn Hb. unfold V1.ArbitraryMnemonicToEntropy.
  destruct (SplitMnemonic mnemonic) as [ws dl]. cbn [fst] in *.
  cbv zeta. rewrite Hn, Hb.
  destruct (sizes k) as [H4 [_ [H3 Hmod]]].
  rewrite Hmod, H3, H4.
  destruct (Nat.eqb_spec (3 * k) 0); [lia|]. cbn [Nat.eqb negb orb bind].
  rewrite int64_mask. destruct (Nat.leb_spec 64 k) as [H|H]; [reflexivity|].
  rewrite big_Div_pow2 by lia. cbn [bind].
  rewrite computeChecksum_ok. cbn [bind].
  now destruct (_ =? _).
Qed.

(** The generalized decoder of the later revision once the words are folded
    into [b]. *)
Lemma V2_decoded (m : Mnemonic) (mnemonic : gostring) (k : nat) (b : Z) :
  (1 <= k)%nat ->
  length (fst (SplitMnemonic mnemonic)) = (3 * k)%nat ->
  decodeWords m (fst (SplitMnemonic mnemonic)) 0 = Ok b ->
  V2.ArbitraryMnemonicToEntropy m mnemonic
  = if (256 <? k)%nat then Panic
    else
      let entropy := padByteSlice (big_Bytes (b / 2 ^ Z.of_nat k)) (4 * k) in
      if Z.land b (2 ^ Z.of_nat k - 1)
         =? leadingBits k (SHA256.Sum256 entropy)
      then Ok entropy else Err ErrChecksumIncorrect.
Proof.
  intros Hk Hn Hb. unfold V2.ArbitraryMnemonicToEntropy.
  destruct (SplitMnemonic mnemonic) as [ws dl]. cbn [fst] in *.
  cbv zeta. rewrite Hn, Hb.
  destruct (sizes k) as [H4 [_ [H3 Hmod]]].
  rewrite Hmod, H3, H4.
  destruct (Nat.eqb_spec (3 * k) 0); [lia|]. cbn [Nat.eqb negb orb bind].
  rewrite Z.shiftl_mul_pow2, Z.mul_1_l by lia.
  rewrite big_Div_pow2 by lia. cbn [bind].
  unfold V2.computeChecksum. cbn [bind].
  pose proof (checksumBytes_bound k) as Hc.
  destruct (Nat.ltb_spec 256 k) as [H|H].
  - unfold V2.expectedChecksum.
    destruct (Nat.leb_spec k 8); [lia|].
    rewrite readHash_short by (rewrite ?Sum256_length; lia). reflexivity.
  - rewrite expectedChecksum_spec by (rewrite ?Sum256_length; lia).
    cbn [bind]. now destruct (_ =? _).
Qed.

(** X7. The generalized decoder of src/mnemonic.go panics exactly on the
    texts of 192 words or more (a multiple of 3) whose words are all keys of
    the table: its [int64] mask is then -1 and it divides by zero.  On every
    other text it answers in a fixed order: [ErrInvalidNumberWords] for a
    word count that is not a positive multiple of 3, else
    [ErrInvalidMnemonic] for an unknown word, else [ErrChecksumIncorrect]
    or an entropy of 4 bytes per 3 words at least. *)
Theorem byte_revision_decoder_outcomes (m : Mnemonic) (mnemonic : gostring) :
  let ws := fst (SplitMnemonic mnemonic) in
  let n := length ws in
  let countOK := negb ((n =? 0)%nat || negb (n mod 3 =? 0)%nat) in
  match V1.ArbitraryMnemonicToEntropy m mnemonic with
  | Panic => countOK = true /\ allKnown m ws = true /\ (192 <= n)%nat
  | Err err =>
      err = (if negb countOK then ErrInvalidNumberWords
             else if negb (allKnown m ws) then ErrInvalidMnemonic
                  else ErrChecksumIncorrect)
      /\ (countOK && allKnown m ws = true -> (n < 192)%nat)
  | Ok e =>
      countOK = true /\ allKnown m ws = true /\ (n < 192)%nat
      /\ (n / 3 * 4 <= length e)%nat
  end.
Proof.
  intros ws n countOK.
  destruct ((n =? 0)%nat || negb (n mod 3 =? 0)%nat) eqn:Hc.
  - unfold V1.ArbitraryMnemonicToEntropy.
    destruct (SplitMnemonic mnemonic) as [ws' dl]. cbn [fst] in *.
    subst ws n countOK. cbv zeta. rewrite Hc. split; [reflexivity|].
    discriminate.
  - destruct (count_multiple n Hc) as [k [Hk Hn]].
    destruct (allKnown m ws) eqn:Hkn.
    + destruct (decodeWords_known m ws 0 Hkn ltac:(lia)) as [b [Hb _]].
      rewrite (V1_decoded m mnemonic k b Hk Hn Hb).
      destruct (Nat.leb_spec 64 k) as [H|H].
      * subst countOK. cbn [negb]. repeat split. lia.
      * cbv zeta. subst countOK. cbn [negb andb].
        destruct (_ =? _).
        -- repeat split; [lia|].
           replace (n / 3 * 4)%nat with (4 * k)%nat.
           ++ apply padByteSlice_min.
           ++ rewrite Hn, (Nat.mul_comm 3 k), Nat.div_mul by lia. lia.
        -- split; [reflexivity | lia].
    + unfold V1.ArbitraryMnemonicToEntropy. fold ws.
      destruct (SplitMnemonic mnemonic) as [ws' dl]. cbn [fst] in *.
      subst ws n countOK. cbv zeta. rewrite Hc.
      rewrite (decodeWords_unknown m ws' 0 Hkn). cbn [bind negb andb].
      split; [reflexivity | discriminate].
Qed.

(** X8. The generalized decoder of the later revision (part_002) panics
    exactly on the texts of more than 768 words (a multiple of 3) whose
    words are all keys of the table: it then reads past the 32 bytes of the
    hash.  On every other text it answers in a fixed order:
    [ErrInvalidNumberWords] for a word count that is not a positive multiple
    of 3, else [ErrInvalidMnemonic] for an unknown word, else
    [ErrChecksumIncorrect] or an entropy of 4 bytes per 3 words at least. *)
Theorem hash_revision_decoder_outcomes (m : Mnemonic) (mnemonic : gostring) :
  let ws := fst (SplitMnemonic mnemonic) in
  let n := length ws in
  let countOK := negb ((n =? 0)%nat || negb (n mod 3 =? 0)%nat) in
  match V2.ArbitraryMnemonicToEntropy m mnemonic with
  | Panic => countOK = true /\ allKnown m ws = true /\ (768 < n)%nat
  | Err err =>
      err = (if negb countOK then ErrInvalidNumberWords
             else if negb (allKnown m ws) then ErrInvalidMnemonic
                  else ErrChecksumIncorrect)
      /\ (countOK && allKnown m ws = true -> (n <= 768)%nat)
  | Ok e =>
      countOK = true /\ allKnown m ws = true /\ (n <= 768)%nat
      /\ (n / 3 * 4 <= length e)%nat
  end.
Proof.
  intros ws n countOK.
  destruct ((n =? 0)%nat || negb (n mod 3 =? 0)%nat) eqn:Hc.
  - unfold V2.ArbitraryMnemonicToEntropy.
    destruct (SplitMnemonic mnemonic) as [ws' dl]. cbn [fst] in *.
    subst ws n countOK. cbv zeta. rewrite Hc. split; [reflexivity|].
    discriminate.
  - destruct (count_multiple n Hc) as [k [Hk Hn]].
    destruct (allKnown m ws) eqn:Hkn.
    + destruct (decodeWords_known m ws 0 Hkn ltac:(lia)) as [b [Hb _]].
      rewrite (V2_decoded m mnemonic k b Hk Hn Hb).
      destruct (Nat.ltb_spec 256 k) as [H|H].
      * subst countOK. cbn [negb]. repeat split. lia.
      * cbv zeta. subst countOK. cbn [negb andb].
        destruct (_ =? _).
        -- repeat split; [lia|].
           replace (n / 3 * 4)%nat with (4 * k)%nat.
           ++ apply padByteSlice_min.
           ++ rewrite Hn, (Nat.mul_comm 3 k), Nat.div_mul by lia. lia.
        -- split; [reflexivity | lia].
    + unfold V2.ArbitraryMnemonicToEntropy. fold ws.
      destruct (SplitMnemonic mnemonic) as [ws' dl]. cbn [fst] in *.
      subst ws n countOK. cbv zeta. rewrite Hc.
      rewrite (decodeWords_unknown m ws' 0 Hkn). cbn [bind negb andb].
      split; [reflexivity | discriminate].
Qed.

(* ------------------------------------------------------------------ *)
(** ** The checksum of the earlier generalized codec *)

Lemma small_bits (x n p : Z) :
  0 <= x < 2 ^ n -> 0 <= n <= p -> Z.testbit x p = false.
Proof.
  intros Hx Hp. destruct (Z.eq_dec x 0) as [->|Hx0]; [apply Z.bits_0|].
  apply Z.bits_above_log2; [lia|].
  apply Z.log2_lt_pow2; [lia|].
  assert (2 ^ n <= 2 ^ p) by (apply Z.pow_le_mono_r; lia). lia.
Qed.

Lemma land_1_testbit (x n : Z) :
  0 <= n -> (Z.land (Z.shiftr x n) 1 =? 1) = Z.testbit x n.
Proof.
  intros Hn. rewrite land_1_mod.
  rewrite <- (Z.add_0_l n) at 2. rewrite <- Z.shiftr_spec by lia.
  rewrite Z.bit0_eqb. reflexivity.
Qed.

(** Bit [p] of the big-endian value of [c] copies of a byte. *)
Lemma repeat_bits (h0 : byte) (c : nat) (p : Z) :
  0 <= p < 8 * Z.of_nat c ->
  Z.testbit (big_SetBytes (repeat h0 c)) p = Z.testbit (byteZ h0) (p mod 8).
Proof.
  revert p. induction c as [|c IH]; intros p Hp; [lia|].
  replace (repeat h0 (S c)) with (repeat h0 c ++ [h0])
    by (rewrite <- repeat_cons; reflexivity).
  rewrite SetBytes_app, SetBytes_cons, SetBytes_nil.
  change (length [h0]) with 1%nat. change (length (@nil byte)) with 0%nat.
  change (256 ^ Z.of_nat 1) with (2 ^ 8). change (256 ^ Z.of_nat 0) with 1.
  pose proof (byteZ_range h0) as Hh.
  replace (byteZ h0 * 1 + 0) with (byteZ h0) by lia.
  rewrite <- lor_shift_add by (simpl; lia).
  rewrite Z.lor_spec.
  destruct (Z.lt_ge_cases p 8) as [Hlt|Hge].
  - rewrite Z.mul_pow2_bits_low by lia. rewrite Z.mod_small by lia.
    reflexivity.
  - rewrite Z.mul_pow2_bits by lia.
    rewrite (small_bits (byteZ h0) 8 p) by (simpl; lia).
    rewrite orb_false_r, IH by lia. f_equal.
    replace p with (p - 8 + 1 * 8) at 2 by lia.
    now rewrite Z_mod_plus_full.
Qed.

Lemma repeatBits_bits (h0 : byte) (a s n : nat) (ec : Z) (j : Z) :
  (s + n <= a)%nat -> 0 <= j ->
  Z.testbit
    (fold_left
       (fun ec i =>
          let bit :=
            Z.land (Z.shiftr (byteZ h0) (7 - Z.of_nat (i mod 8))) 1 in
          if bit =? 1 then Z.setbit ec (Z.of_nat (a - 1 - i)) else ec)
       (seq s n) ec) j
  = Z.testbit ec j
    || (Z.of_nat a - Z.of_nat s - Z.of_nat n <=? j)
       && (j <? Z.of_nat a - Z.of_nat s)
       && Z.testbit (byteZ h0) (7 - (Z.of_nat a - 1 - j) mod 8).
Proof.
  revert s ec. induction n as [|n IH]; intros s ec Hs Hj.
  - simpl fold_left.
    destruct (Z.leb_spec (Z.of_nat a - Z.of_nat s - Z.of_nat 0) j);
      destruct (Z.ltb_spec j (Z.of_nat a - Z.of_nat s)); try lia;
      cbn [andb]; now rewrite orb_false_r.
  - cbn [seq fold_left]. rewrite IH by lia.
    rewrite land_1_testbit
      by (pose proof (Nat.mod_upper_bound s 8 ltac:(lia)); lia).
    assert (Hmod : Z.of_nat (s mod 8) = Z.of_nat s mod 8)
      by (rewrite Nat2Z.inj_mod; reflexivity).
    destruct (Z.eq_dec j (Z.of_nat a - 1 - Z.of_nat s)) as [Ej|Nj].
    + (* the bit that this turn may set *)
      assert (E1 : (j <? Z.of_nat a - Z.of_nat (S s)) = false)
        by (apply Z.ltb_ge; lia).
      rewrite E1, andb_false_r. cbn [andb]. rewrite orb_false_r.
      assert (E2 : (Z.of_nat a - Z.of_nat s - Z.of_nat (S n) <=? j) = true)
        by (apply Z.leb_le; lia).
      assert (E3 : (j <? Z.of_nat a - Z.of_nat s) = true)
        by (apply Z.ltb_lt; lia).
      rewrite E2, E3. cbn [andb].
      replace (Z.of_nat a - 1 - j) with (Z.of_nat s) by lia.
      rewrite <- Hmod.
      destruct (Z.testbit (byteZ h0) (7 - Z.of_nat (s mod 8))).
      * rewrite Z.setbit_eqb by lia.
        replace (Z.of_nat (a - 1 - s)) with j by lia.
        rewrite Z.eqb_refl. cbn [orb]. now rewrite orb_true_r.
      * now rewrite orb_false_r.
    + assert (Hsame : Z.testbit
                (if Z.testbit (byteZ h0) (7 - Z.of_nat (s mod 8))
                 then Z.setbit ec (Z.of_nat (a - 1 - s)) else ec) j
              = Z.testbit ec j).
      { destruct (Z.testbit (byteZ h0) (7 - Z.of_nat (s mod 8)));
          [|reflexivity].
        rewrite Z.setbit_eqb by lia.
        destruct (Z.eqb_spec (Z.of_nat (a - 1 - s)) j); [lia | reflexivity]. }
      rewrite Hsame. f_equal. f_equal.
      destruct (Z.leb_spec (Z.of_nat a - Z.of_nat (S s) - Z.of_nat n) j);
        destruct (Z.ltb_spec j (Z.of_nat a - Z.of_nat (S s)));
        destruct (Z.leb_spec (Z.of_nat a - Z.of_nat s - Z.of_nat (S n)) j);
        destruct (Z.ltb_spec j (Z.of_nat a - Z.of_nat s));
        try lia; reflexivity.
Qed.

Lemma mod8_flip (u : Z) (q : Z) :
  0 <= u -> (8 * q + 7 - u) mod 8 = 7 - u mod 8.
Proof.
  intros Hu.
  pose proof (Z.div_mod u 8 ltac:(lia)) as Hd.
  pose proof (Z.mod_pos_bound u 8 ltac:(lia)) as Hb.
  replace (8 * q + 7 - u) with (7 - u mod 8 + (q - u / 8) * 8) by lia.
  rewrite Z_mod_plus_full. apply Z.mod_small. lia.
Qed.

(** The decoder of src/mnemonic.go expects what its encoder writes: the
    leading [k] bits of the first hash byte repeated. *)
Lemma V1_expectedChecksum_spec (k : nat) (h0 : byte) :
  V1.expectedChecksum k h0 = repeatedBits k h0.
Proof.
  unfold repeatedBits, leadingBits. rewrite repeat_length.
  pose proof (checksumBytes_bound k) as Hc.
  pose proof (byteZ_range h0) as Hh.
  set (c := ((k + 7) / 8)%nat) in *.
  destruct (Nat.leb_spec k 8) as [Hle|Hgt].
  - rewrite V1_expected_small by assumption.
    destruct (Nat.eq_dec k 0%nat) as [->|Hk0].
    + change (big_SetBytes (repeat h0 c)) with 0.
      change (2 ^ (8 - Z.of_nat 0)) with 256.
      rewrite Z.div_0_l by (vm_compute; discriminate).
      apply Z.div_small. lia.
    + assert (Hc1 : c = 1%nat) by lia. rewrite Hc1.
      simpl repeat. rewrite SetBytes_cons, SetBytes_nil.
      change (length (@nil byte)) with 0%nat.
      change (256 ^ Z.of_nat 0) with 1.
      replace (byteZ h0 * 1 + 0) with (byteZ h0) by lia.
      reflexivity.
  - unfold V1.expectedChecksum. destruct (Nat.leb_spec k 8); [lia|].
    unfold V1.repeatBits.
    set (a := (k - 8)%nat).
    pose proof (SetBytes_range (repeat h0 c)) as HR.
    rewrite repeat_length in HR.
    change 256 with (2 ^ 8) in HR. rewrite <- Z.pow_mul_r in HR by lia.
    apply Z.bits_inj'. intros j Hj.
    rewrite (repeatBits_bits h0 a 0 a) by lia.
    rewrite Z.shiftl_spec by lia.
    rewrite Z.div_pow2_bits by lia.
    destruct (Z.lt_ge_cases j (Z.of_nat k)) as [Hjk|Hjk].
    + rewrite repeat_bits by lia.
      destruct (Z.lt_ge_cases j (Z.of_nat a)) as [Hja|Hja].
      * rewrite Z.testbit_neg_r by lia. cbn [orb].
        assert (E1 : (Z.of_nat a - Z.of_nat 0 - Z.of_nat a <=? j) = true)
          by (apply Z.leb_le; lia).
        assert (E2 : (j <? Z.of_nat a - Z.of_nat 0) = true)
          by (apply Z.ltb_lt; lia).
        rewrite E1, E2. cbn [andb]. f_equal.
        replace (j + (8 * Z.of_nat c - Z.of_nat k))
          with (8 * (Z.of_nat c - 2) + 7 - (Z.of_nat a - 1 - j))
          by (unfold a; lia).
        rewrite mod8_flip by lia. reflexivity.
      * assert (E2 : (j <? Z.of_nat a - Z.of_nat 0) = false)
          by (apply Z.ltb_ge; lia).
        rewrite E2, andb_false_r. cbn [andb]. rewrite orb_false_r. f_equal.
        replace (j + (8 * Z.of_nat c - Z.of_nat k))
          with (j - Z.of_nat a + (Z.of_nat c - 1) * 8) by (unfold a; lia).
        rewrite Z_mod_plus_full. rewrite Z.mod_small by (unfold a in *; lia).
        reflexivity.
    + rewrite (small_bits (byteZ h0) 8) by (unfold a; simpl; lia).
      rewrite (small_bits (big_SetBytes (repeat h0 c)) (8 * Z.of_nat c))
        by lia.
      assert (E2 : (j <? Z.of_nat a - Z.of_nat 0) = false)
        by (apply Z.ltb_ge; unfold a; lia).
      now rewrite E2, andb_false_r.
Qed.

Lemma byteBuffer_value (p : list byte) (k : nat) :
  length p = (4 * k)%nat ->
  big_SetBytes (byteBuffer p)
  / 2 ^ (8 * Z.of_nat (length (byteBuffer p)) - 11 * Z.of_nat (3 * k))
  = big_SetBytes p * 2 ^ Z.of_nat k
    + repeatedBits k (nth 0 (SHA256.Sum256 p) x00)
  /\ 0 <= repeatedBits k (nth 0 (SHA256.Sum256 p) x00) < 2 ^ Z.of_nat k.
Proof.
  intros Hp.
  pose proof (checksumBytes_bound k) as Hc.
  rewrite (byteBuffer_length p k) by assumption.
  unfold byteBuffer, repeatedBits, leadingBits.
  destruct (sizes k) as [H4 _]. rewrite Hp, H4.
  set (c := ((k + 7) / 8)%nat) in *.
  set (hp := repeat (nth 0 (SHA256.Sum256 p) x00) c).
  assert (Hhp : length hp = c) by apply repeat_length.
  rewrite SetBytes_app, Hhp.
  pose proof (SetBytes_range hp) as R. rewrite Hhp in R.
  change 256 with (2 ^ 8) in *. rewrite <- Z.pow_mul_r in * by lia.
  replace (8 * Z.of_nat (4 * k + c) - 11 * Z.of_nat (3 * k))
    with (8 * Z.of_nat c - Z.of_nat k) by lia.
  destruct (split_packed (big_SetBytes p) (big_SetBytes hp)
              (8 * Z.of_nat c) (Z.of_nat k)) as [Hb Hr]; [lia | lia |].
  split; assumption.
Qed.

(* ------------------------------------------------------------------ *)
(** ** Every accepted text is the encoding of the entropy it decodes to *)

Lemma fold_digits_range (idxs : list Z) (a : Z) :
  Forall (fun z => 0 <= z < 2048) idxs -> 0 <= a ->
  a * 2048 ^ Z.of_nat (length idxs)
  <= fold_left (fun acc z => acc * 2048 + z) idxs a
  < (a + 1) * 2048 ^ Z.of_nat (length idxs).
Proof.
  intros Hall. revert a. induction Hall as [|z idxs Hz _ IH]; intros a Ha.
  - simpl. lia.
  - cbn [fold_left length]. rewrite Nat2Z.inj_succ, Z.pow_succ_r by lia.
    specialize (IH (a * 2048 + z) ltac:(lia)).
    assert (Hp : 0 < 2048 ^ Z.of_nat (length idxs))
      by (apply Z.pow_pos_nonneg; lia).
    nia.
Qed.

Lemma fold_digits_inj (l1 l2 : list Z) (a1 a2 : Z) :
  length l1 = length l2 ->
  Forall (fun z => 0 <= z < 2048) l1 -> Forall (fun z => 0 <= z < 2048) l2 ->
  fold_left (fun acc z => acc * 2048 + z) l1 a1
  = fold_left (fun acc z => acc * 2048 + z) l2 a2 ->
  a1 = a2 /\ l1 = l2.
Proof.
  intros Hlen H1. revert l2 a1 a2 Hlen.
  induction H1 as [|x l1 Hx _ IH]; intros l2 a1 a2 Hlen H2 E.
  - destruct l2; [now split | discriminate].
  - destruct l2 as [|y l2]; [discriminate|].
    inversion H2 as [|? ? Hy H2']; subst.
    cbn [fold_left] in E. injection Hlen as Hlen.
    destruct (IH l2 _ _ Hlen H2' E) as [Ea ->].
    assert (x = y /\ a1 = a2) as [-> ->] by lia. now split.
Qed.

Section Accepted.

Variable m : Mnemonic.
Hypothesis Hwf : wfMnemonic m = true.
Hypothesis Hmap : mapInTable (tableOf m) = true.

Lemma known_index (w : gostring) (i : Z) :
  wordMap m !! w = Some i -> 0 <= i < 2048 /\ nthWord m i = w.
Proof.
  intros Hi. unfold mapInTable in Hmap. apply bool_decide_eq_true in Hmap.
  destruct (Hmap w i Hi) as [H0 Hl]. cbn [tableOf words] in Hl.
  pose proof (lookup_lt_Some _ _ _ Hl) as Hlt.
  rewrite (wfm_length m Hwf) in Hlt.
  split; [lia|]. unfold nthWord. now rewrite Hl.
Qed.

Lemma known_words (ws : list gostring) :
  allKnown m ws = true ->
  exists idxs, ws = map (nthWord m) idxs
               /\ Forall (fun z => 0 <= z < 2048) idxs.
Proof.
  induction ws as [|w ws IH]; intros H; [now exists []|].
  cbn [allKnown forallb] in H. apply andb_prop in H as [Hw H].
  apply bool_decide_eq_true in Hw as [i Hi].
  destruct (known_index w i Hi) as [Hr <-].
  destruct (IH H) as [idxs [-> Hall]].
  exists (i :: idxs). split; [reflexivity | now constructor].
Qed.

(** A buffer whose leading bits spell the indices packs to their words. *)
Lemma reencode (buf : list byte) (idxs : list Z) :
  (11 * length idxs <= 8 * length buf)%nat ->
  Forall (fun z => 0 <= z < 2048) idxs ->
  big_SetBytes buf
  / 2 ^ (8 * Z.of_nat (length buf) - 11 * Z.of_nat (length idxs))
  = fold_left (fun acc z => acc * 2048 + z) idxs 0 ->
  packedWords m buf (length idxs) = map (nthWord m) idxs.
Proof.
  intros Hfit Hall Hval. unfold packedWords.
  rewrite <- (map_map (indexAt buf) (nthWord m)). f_equal.
  rewrite <- (fold_indices buf (length idxs) Hfit) in Hval.
  apply (fold_digits_inj _ _ 0 0); try assumption.
  - now rewrite length_map, length_seq.
  - apply List.Forall_forall. intros z Hz.
    apply in_map_iff in Hz as [i [<- _]]. apply indexAt_range.
Qed.

(** What a decoder holds once it has folded [3 * k] known words: the entropy
    it returns has [4 * k] bytes, and the value of the words splits into that
    entropy and [k] checksum bits. *)
Lemma decoded_parts (ws : list gostring) (k : nat) :
  allKnown m ws = true -> length ws = (3 * k)%nat ->
  exists idxs b,
    ws = map (nthWord m) idxs
    /\ Forall (fun z => 0 <= z < 2048) idxs
    /\ length idxs = (3 * k)%nat
    /\ decodeWords m ws 0 = Ok b
    /\ b = fold_left (fun acc z => acc * 2048 + z) idxs 0
    /\ let entropy := padByteSlice (big_Bytes (b / 2 ^ Z.of_nat k)) (4 * k) in
       length entropy = (4 * k)%nat
       /\ b = big_SetBytes entropy * 2 ^ Z.of_nat k
              + Z.land b (2 ^ Z.of_nat k - 1).
Proof.
  intros Hk Hn. destruct (known_words ws Hk) as [idxs [-> Hall]].
  rewrite length_map in Hn.
  exists idxs, (fold_left (fun acc z => acc * 2048 + z) idxs 0).
  split; [reflexivity|]. split; [assumption|]. split; [assumption|].
  split; [apply (decodeWords_indices m Hwf); [assumption | lia]|].
  split; [reflexivity|].
  set (b := fold_left _ idxs 0).
  pose proof (fold_digits_range idxs 0 Hall ltac:(lia)) as Hb. fold b in Hb.
  rewrite Hn in Hb.
  assert (Hp : 0 < 2 ^ Z.of_nat k) by (apply Z.pow_pos_nonneg; lia).
  assert (HE : 0 <= b / 2 ^ Z.of_nat k < 256 ^ Z.of_nat (4 * k)).
  { split; [apply Z.div_pos; lia|].
    apply Z.div_lt_upper_bound; [lia|].
    change 256 with (2 ^ 8). rewrite <- !Z.pow_mul_r, <- Z.pow_add_r by lia.
    change 2048 with (2 ^ 11) in Hb. rewrite <- Z.pow_mul_r in Hb by lia.
    replace (Z.of_nat k + 8 * Z.of_nat (4 * k))
      with (11 * Z.of_nat (3 * k)) by lia. lia. }
  cbv zeta. split.
  - apply padByteSlice_length, Bytes_len. exact HE.
  - rewrite padByteSlice_val, Bytes_val by lia.
    rewrite land_mask by lia.
    pose proof (Z.div_mod b (2 ^ Z.of_nat k) ltac:(lia)). lia.
Qed.

End Accepted.

Lemma EntropyFromMnemonic_Ok (m : Mnemonic) (mnemonic : gostring)
    (e : list byte) :
  V1.EntropyFromMnemonic m mnemonic = Ok e ->
  let ws := fst (SplitMnemonic mnemonic) in
  exists cs b,
    (4 <= cs <= 8)%nat /\ length ws = (3 * cs)%nat
    /\ allKnown m ws = true /\ decodeWords m ws 0 = Ok b
    /\ e = padByteSlice (big_Bytes (b / 2 ^ Z.of_nat cs)) (4 * cs)
    /\ Z.land b (2 ^ Z.of_nat cs - 1)
       = byteZ (nth 0 (SHA256.Sum256 e) x00) / 2 ^ (8 - Z.of_nat cs).
Proof.
  intros He ws.
  destruct (isValidWordsSize (length ws)) eqn:Hv.
  - destruct (valid_count _ Hv) as [cs [Hcs Hn]].
    destruct (allKnown m ws) eqn:Hk.
    + destruct (decodeWords_known m ws 0 Hk ltac:(lia)) as [b [Hb _]].
      rewrite (EntropyFromMnemonic_decoded m mnemonic cs b Hcs Hn Hb) in He.
      cbv zeta in He. destruct (Z.eqb_spec
        (Z.land b (2 ^ Z.of_nat cs - 1))
        (byteZ (nth 0 (SHA256.Sum256
           (padByteSlice (big_Bytes (b / 2 ^ Z.of_nat cs)) (4 * cs))) x00)
         / 2 ^ (8 - Z.of_nat cs))) as [Eq|]; [|discriminate].
      injection He as <-. exists cs, b. repeat split; try assumption; lia.
    + exfalso. unfold V1.EntropyFromMnemonic in He. fold ws in He.
      destruct (SplitMnemonic mnemonic) as [ws' dl]. cbn [fst] in *.
      subst ws. cbv zeta in He. rewrite Hv in He. cbn [negb] in He.
      rewrite (decodeWords_unknown m ws' 0 Hk) in He. discriminate.
  - exfalso. unfold V1.EntropyFromMnemonic in He.
    destruct (SplitMnemonic mnemonic) as [ws' dl]. cbn [fst] in *.
    subst ws. cbv zeta in He. rewrite Hv in He. discriminate.
Qed.

Lemma arbitrary_count (m : Mnemonic) (ws : list gostring) :
  (length ws =? 0)%nat || negb (length ws mod 3 =? 0)%nat = false ->
  allKnown m ws = true ->
  exists k b, (1 <= k)%nat /\ length ws = (3 * k)%nat
              /\ decodeWords m ws 0 = Ok b.
Proof.
  intros Hc Hk. destruct (count_multiple _ Hc) as [k [Hk1 Hn]].
  destruct (decodeWords_known m ws 0 Hk ltac:(lia)) as [b [Hb _]].
  now exists k, b.
Qed.

Lemma V2_Ok (m : Mnemonic) (mnemonic : gostring) (e : list byte) :
  V2.ArbitraryMnemonicToEntropy m mnemonic = Ok e ->
  let ws := fst (SplitMnemonic mnemonic) in
  exists k b,
    (1 <= k <= 256)%nat /\ length ws = (3 * k)%nat
    /\ allKnown m ws = true /\ decodeWords m ws 0 = Ok b
    /\ e = padByteSlice (big_Bytes (b / 2 ^ Z.of_nat k)) (4 * k)
    /\ Z.land b (2 ^ Z.of_nat k - 1) = leadingBits k (SHA256.Sum256 e).
Proof.
  intros He ws.
  destruct ((length ws =? 0)%nat || negb (length ws mod 3 =? 0)%nat) eqn:Hc.
  { exfalso. unfold V2.ArbitraryMnemonicToEntropy in He.
    destruct (SplitMnemonic mnemonic) as [ws' dl]. cbn [fst] in *.
    subst ws. cbv zeta in He. rewrite Hc in He. discriminate. }
  destruct (allKnown m ws) eqn:Hk.
  - destruct (arbitrary_count m ws Hc Hk) as [k [b [Hk1 [Hn Hb]]]].
    rewrite (V2_decoded m mnemonic k b Hk1 Hn Hb) in He.
    destruct (Nat.ltb_spec 256 k); [discriminate|].
    cbv zeta in He. destruct (Z.eqb_spec
      (Z.land b (2 ^ Z.of_nat k - 1))
      (leadingBits k (SHA256.Sum256
         (padByteSlice (big_Bytes (b / 2 ^ Z.of_nat k)) (4 * k)))))
      as [Eq|]; [|discriminate].
    injection He as <-. exists k, b. repeat split; try assumption; lia.
  - exfalso. unfold V2.ArbitraryMnemonicToEntropy in He. fold ws in He.
    destruct (SplitMnemonic mnemonic) as [ws' dl]. cbn [fst] in *.
    subst ws. cbv zeta in He. rewrite Hc in He.
    rewrite (decodeWords_unknown m ws' 0 Hk) in He. discriminate.
Qed.

Lemma V1_Ok (m : Mnemonic) (mnemonic : gostring) (e : list byte) :
  V1.ArbitraryMnemonicToEntropy m mnemonic = Ok e ->
  let ws := fst (SplitMnemonic mnemonic) in
  exists k b,
    (1 <= k <= 63)%nat /\ length ws = (3 * k)%nat
    /\ allKnown m ws = true /\ decodeWords m ws 0 = Ok b
    /\ e = padByteSlice (big_Bytes (b / 2 ^ Z.of_nat k)) (4 * k)
    /\ Z.land b (2 ^ Z.of_nat k - 1)
       = repeatedBits k (nth 0 (SHA256.Sum256 e) x00).
Proof.
  intros He ws.
  destruct ((length ws =? 0)%nat || negb (length ws mod 3 =? 0)%nat) eqn:Hc.
  { exfalso. unfold V1.ArbitraryMnemonicToEntropy in He.
    destruct (SplitMnemonic mnemonic) as [ws' dl]. cbn [fst] in *.
    subst ws. cbv zeta in He. rewrite Hc in He. discriminate. }
  destruct (allKnown m ws) eqn:Hk.
  - destruct (arbitrary_count m ws Hc Hk) as [k [b [Hk1 [Hn Hb]]]].
    rewrite (V1_decoded m mnemonic k b Hk1 Hn Hb) in He.
    destruct (Nat.leb_spec 64 k); [discriminate|].
    cbv zeta in He. rewrite V1_expectedChecksum_spec in He.
    destruct (Z.eqb_spec
      (Z.land b (2 ^ Z.of_nat k - 1))
      (repeatedBits k (nth 0 (SHA256.Sum256
         (padByteSlice (big_Bytes (b / 2 ^ Z.of_nat k)) (4 * k))) x00)))
      as [Eq|]; [|discriminate].
    injection He as <-. exists k, b. repeat split; try assumption; lia.
  - exfalso. unfold V1.ArbitraryMnemonicToEntropy in He. fold ws in He.
    destruct (SplitMnemonic mnemonic) as [ws' dl]. cbn [fst] in *.
    subst ws. cbv zeta in He. rewrite Hc in He.
    rewrite (decodeWords_unknown m ws' 0 Hk) in He. discriminate.
Qed.

Lemma leadingBits_first (k : nat) (h : list byte) :
  (1 <= k <= 8)%nat -> (1 <= length h)%nat ->
  leadingBits k h = byteZ (nth 0 h x00) / 2 ^ (8 - Z.of_nat k).
Proof.
  intros Hk Hh. rewrite <- (leadingBits_take k 1) by lia.
  destruct h as [|h0 h]; [simpl in Hh; lia|].
  change (take 1 (h0 :: h)) with [h0]. cbn [nth].
  rewrite SetBytes_cons, SetBytes_nil. change (length (@nil byte)) with 0%nat.
  change (256 ^ Z.of_nat 0) with 1.
  replace (byteZ h0 * 1 + 0) with (byteZ h0) by lia.
  do 2 f_equal.
Qed.

Section Canonical.

Variable m : Mnemonic.
Hypothesis Hwf : wfMnemonic m = true.
Hypothesis Hmap : mapInTable (tableOf m) = true.

Lemma table_words_OK (idxs : list Z) :
  Forall (fun z => 0 <= z < 2048) idxs ->
  Forall (fun w => wordOK w = true) (map (nthWord m) idxs).
Proof.
  intros H. apply List.Forall_forall. intros w Hw.
  apply in_map_iff in Hw as [i [<- Hi]].
  rewrite List.Forall_forall in H. apply (nthWord_OK m Hwf), H, Hi.
Qed.

Lemma standard_canonical (mnemonic : gostring) (e : list byte) :
  V1.EntropyFromMnemonic m mnemonic = Ok e ->
  exists cs idxs,
    (4 <= cs <= 8)%nat /\ length e = (4 * cs)%nat
    /\ fst (SplitMnemonic mnemonic) = map (nthWord m) idxs
    /\ Forall (fun z => 0 <= z < 2048) idxs
    /\ length idxs = (3 * cs)%nat
    /\ V1.EntropyToMnemonic m e
       = Ok (Join (fst (SplitMnemonic mnemonic)) (delimiter m)).
Proof.
  intros He. destruct (EntropyFromMnemonic_Ok m mnemonic e He)
    as [cs [b [Hcs [Hn [Hk [Hb [Ee Hck]]]]]]].
  destruct (decoded_parts m Hwf Hmap _ cs Hk Hn)
    as [idxs [b' [Hws [Hall [Hlen [Hb' [Eb [Hle Hval]]]]]]]].
  rewrite Hb in Hb'. injection Hb' as <-. rewrite <- Ee in Hle, Hval.
  exists cs, idxs. repeat (split; [assumption|]).
  rewrite (EntropyToMnemonic_spec m cs e (wfm_length m Hwf) Hcs Hle).
  do 2 f_equal. rewrite Hws, <- Hlen.
  assert (Hl : length (standardBuffer e) = (4 * cs + 1)%nat).
  { unfold standardBuffer. rewrite length_app, Hle. simpl. lia. }
  apply (reencode m); [rewrite Hl; lia | assumption |].
  rewrite <- Eb, Hl, Hlen.
  set (h0 := nth 0 (SHA256.Sum256 e) x00) in *.
  pose proof (byteZ_range h0) as Hh.
  assert (HV : big_SetBytes (standardBuffer e)
               = big_SetBytes e * 2 ^ 8 + byteZ h0).
  { unfold standardBuffer. rewrite SetBytes_app. fold h0.
    rewrite SetBytes_cons, SetBytes_nil. simpl length. simpl Z.of_nat.
    rewrite Z.pow_0_r, Z.pow_1_r. change (2 ^ 8) with 256. lia. }
  rewrite HV.
  replace (8 * Z.of_nat (4 * cs + 1) - 11 * Z.of_nat (3 * cs))
    with (8 - Z.of_nat cs) by lia.
  destruct (split_packed (big_SetBytes e) (byteZ h0) 8 (Z.of_nat cs))
    as [Hsp _]; [lia | simpl; lia |].
  rewrite Hsp, Hval at 1. rewrite Hck. reflexivity.
Qed.

Lemma hash_canonical (mnemonic : gostring) (e : list byte) :
  V2.ArbitraryMnemonicToEntropy m mnemonic = Ok e ->
  exists k idxs,
    (1 <= k <= 256)%nat /\ length e = (4 * k)%nat
    /\ fst (SplitMnemonic mnemonic) = map (nthWord m) idxs
    /\ Forall (fun z => 0 <= z < 2048) idxs
    /\ length idxs = (3 * k)%nat
    /\ V2.ArbitraryEntropyToMnemonic m e
       = Ok (Join (fst (SplitMnemonic mnemonic)) (delimiter m)).
Proof.
  intros He. destruct (V2_Ok m mnemonic e He)
    as [k [b [Hk1 [Hn [Hk [Hb [Ee Hck]]]]]]].
  destruct (decoded_parts m Hwf Hmap _ k Hk Hn)
    as [idxs [b' [Hws [Hall [Hlen [Hb' [Eb [Hle Hval]]]]]]]].
  rewrite Hb in Hb'. injection Hb' as <-. rewrite <- Ee in Hle, Hval.
  exists k, idxs. repeat (split; [assumption|]).
  assert (Hpe : V1.padEntropy e = e) by (apply (padEntropy_idem e k Hle)).
  rewrite (V2_encode_spec m e k (wfm_length m Hwf));
    [|lia | now rewrite Hpe | lia].
  rewrite Hpe. do 2 f_equal. rewrite Hws, <- Hlen.
  pose proof (checksumBytes_bound k) as Hc.
  pose proof (hashBuffer_length e k Hle ltac:(lia)) as Hl.
  apply (reencode m); [rewrite Hl; lia | assumption |].
  rewrite <- Eb, Hlen.
  destruct (hashBuffer_value e k Hle Hk1) as [Hv _].
  rewrite Hv, Hval at 1. now rewrite Hck.
Qed.

Lemma byte_canonical (mnemonic : gostring) (e : list byte) :
  V1.ArbitraryMnemonicToEntropy m mnemonic = Ok e ->
  exists k idxs,
    (1 <= k <= 63)%nat /\ length e = (4 * k)%nat
    /\ fst (SplitMnemonic mnemonic) = map (nthWord m) idxs
    /\ Forall (fun z => 0 <= z < 2048) idxs
    /\ length idxs = (3 * k)%nat
    /\ V1.ArbitraryEntropyToMnemonic m e
       = Ok (Join (fst (SplitMnemonic mnemonic)) (delimiter m)).
Proof.
  intros He. destruct (V1_Ok m mnemonic e He)
    as [k [b [Hk1 [Hn [Hk [Hb [Ee Hck]]]]]]].
  destruct (decoded_parts m Hwf Hmap _ k Hk Hn)
    as [idxs [b' [Hws [Hall [Hlen [Hb' [Eb [Hle Hval]]]]]]]].
  rewrite Hb in Hb'. injection Hb' as <-. rewrite <- Ee in Hle, Hval.
  exists k, idxs. repeat (split; [assumption|]).
  assert (Hpe : V1.padEntropy e = e) by (apply (padEntropy_idem e k Hle)).
  rewrite (V1_encode_spec m e k (wfm_length m Hwf));
    [|lia | now rewrite Hpe].
  rewrite Hpe. do 2 f_equal. rewrite Hws, <- Hlen.
  pose proof (checksumBytes_bound k) as Hc.
  pose proof (byteBuffer_length e k Hle) as Hl.
  apply (reencode m); [rewrite Hl; lia | assumption |].
  rewrite <- Eb, Hlen.
  destruct (byteBuffer_value e k Hle) as [Hv _].
  rewrite Hv, Hval at 1. now rewrite Hck.
Qed.

(** Two texts whose words are table words and that join to the same text
    have the same words. *)
Lemma same_words (idxs1 idxs2 : list Z) :
  Forall (fun z => 0 <= z < 2048) idxs1 ->
  Forall (fun z => 0 <= z < 2048) idxs2 ->
  Join (map (nthWord m) idxs1) (delimiter m)
  = Join (map (nthWord m) idxs2) (delimiter m) ->
  map (nthWord m) idxs1 = map (nthWord m) idxs2.
Proof.
  intros H1 H2 E.
  rewrite <- (SplitMnemonic_Join (map (nthWord m) idxs1) (delimiter m))
    by (apply (wfm_delimiter m Hwf) || now apply table_words_OK).
  rewrite E.
  apply SplitMnemonic_Join;
    [apply (wfm_delimiter m Hwf) | now apply table_words_OK].
Qed.

(** The round trip of the generalized codec of src/mnemonic.go below 64
    checksum bits. *)
Lemma V1_decode_spec (p : list byte) (k : nat) :
  length p = (4 * k)%nat -> (1 <= k <= 63)%nat ->
  V1.ArbitraryMnemonicToEntropy m
    (Join (packedWords m (byteBuffer p) (3 * k)) (delimiter m))
  = Ok p.
Proof.
  intros Hp Hk.
  pose proof (checksumBytes_bound k) as Hc.
  pose proof (byteBuffer_length p k Hp) as Hl.
  set (s := Join (packedWords m (byteBuffer p) (3 * k)) (delimiter m)).
  assert (Hws : fst (SplitMnemonic s) = packedWords m (byteBuffer p) (3 * k))
    by apply (split_packedWords m Hwf).
  destruct (byteBuffer_value p k Hp) as [Hv Hr].
  rewrite (V1_decoded m s k
             (big_SetBytes p * 2 ^ Z.of_nat k
              + repeatedBits k (nth 0 (SHA256.Sum256 p) x00))).
  - destruct (Nat.leb_spec 64 k); [lia|]. cbv zeta.
    assert (Hpk : 0 < 2 ^ Z.of_nat k) by (apply Z.pow_pos_nonneg; lia).
    rewrite Z.div_add_l, (Z.div_small (repeatedBits _ _)), Z.add_0_r by lia.
    replace (4 * k)%nat with (length p). rewrite pad_Bytes_SetBytes.
    rewrite V1_expectedChecksum_spec, land_mask by lia.
    rewrite Z.add_comm, Z_mod_plus_full, Z.mod_small by lia.
    now rewrite Z.eqb_refl.
  - lia.
  - now rewrite Hws, (packedWords_length m).
  - rewrite Hws, (decode_packed m Hwf) by (rewrite Hl; lia).
    now rewrite Hv.
Qed.

End Canonical.

(** X9. With a well-formed table whose reverse map holds only the words of
    the table, every text that [EntropyFromMnemonic] accepts is, up to white
    space, the text that [EntropyToMnemonic] produces for the entropy it
    returns: the entropy has 16, 20, 24, 28 or 32 bytes, 4 for each 3 words,
    encoding it gives the words of the text joined by the delimiter of the
    language, and no text with other words decodes to the same entropy. *)
Theorem accepted_text_is_canonical (m : Mnemonic) (mnemonic : gostring)
    (e : list byte) :
  wfMnemonic m = true -> mapInTable (tableOf m) = true ->
  V1.EntropyFromMnemonic m mnemonic = Ok e ->
  let ws := fst (SplitMnemonic mnemonic) in
  In (length e) [16; 20; 24; 28; 32]%nat
  /\ (3 * length e = 4 * length ws)%nat
  /\ V1.EntropyToMnemonic m e = Ok (Join ws (delimiter m))
  /\ (forall mnemonic',
        V1.EntropyFromMnemonic m mnemonic' = Ok e ->
        fst (SplitMnemonic mnemonic') = ws).
Proof.
  intros Hwf Hmap He ws.
  destruct (standard_canonical m Hwf Hmap mnemonic e He)
    as [cs [idxs [Hcs [Hle [Hws [Hall [Hlen Henc]]]]]]].
  fold ws in Hws, Henc.
  split; [rewrite Hle; simpl; lia|].
  split; [rewrite Hws, length_map; lia|].
  split; [exact Henc|].
  intros s' He'.
  destruct (standard_canonical m Hwf Hmap s' e He')
    as [cs' [idxs' [_ [_ [Hws' [Hall' [_ Henc']]]]]]].
  rewrite Henc in Henc'. injection Henc' as E.
  rewrite Hws, Hws' in E |- *. symmetry.
  now apply (same_words m Hwf).
Qed.

Lemma accepted_text_is_canonical_witness :
  let m := sampleMnemonic English in
  let e := repeat x00 16 in
  let ws := fst (SplitMnemonic zeroPhrase) in
  In (length e) [16; 20; 24; 28; 32]%nat
  /\ (3 * length e = 4 * length ws)%nat
  /\ V1.EntropyToMnemonic m e = Ok (Join ws (delimiter m))
  /\ (forall mnemonic',
        V1.EntropyFromMnemonic m mnemonic' = Ok e ->
        fst (SplitMnemonic mnemonic') = ws).
Proof.
  apply (accepted_text_is_canonical (sampleMnemonic English) zeroPhrase
           (repeat x00 16)).
  - vm_compute. reflexivity.
  - vm_compute. reflexivity.
  - vm_compute. reflexivity.
Defined.

(** X10. The same for the generalized decoder of the later revision
    (part_002): every text that [ArbitraryMnemonicToEntropy] accepts has at
    most 768 words, the entropy returned has 4 bytes for each 3 words (so
    1024 at most), [ArbitraryEntropyToMnemonic] maps it to the words of the
    text joined by the delimiter of the language, and no text with other
    words decodes to the same entropy. *)
Theorem hash_revision_accepted_is_canonical (m : Mnemonic)
    (mnemonic : gostring) (e : list byte) :
  wfMnemonic m = true -> mapInTable (tableOf m) = true ->
  V2.ArbitraryMnemonicToEntropy m mnemonic = Ok e ->
  let ws := fst (SplitMnemonic mnemonic) in
  (3 * length e = 4 * length ws)%nat
  /\ (0 < length e <= 1024)%nat
  /\ V2.ArbitraryEntropyToMnemonic m e = Ok (Join ws (delimiter m))
  /\ (forall mnemonic',
        V2.ArbitraryMnemonicToEntropy m mnemonic' = Ok e ->
        fst (SplitMnemonic mnemonic') = ws).
Proof.
  intros Hwf Hmap He ws.
  destruct (hash_canonical m Hwf Hmap mnemonic e He)
    as [k [idxs [Hk [Hle [Hws [Hall [Hlen Henc]]]]]]].
  fold ws in Hws, Henc.
  split; [rewrite Hws, length_map; lia|].
  split; [lia|].
  split; [exact Henc|].
  intros s' He'.
  destruct (hash_canonical m Hwf Hmap s' e He')
    as [k' [idxs' [_ [_ [Hws' [Hall' [_ Henc']]]]]]].
  rewrite Henc in Henc'. injection Henc' as E.
  rewrite Hws, Hws' in E |- *. symmetry.
  now apply (same_words m Hwf).
Qed.

Lemma hash_revision_accepted_is_canonical_witness :
  let m := sampleMnemonic English in
  let e := repeat x00 4 in
  let ws := fst (SplitMnemonic shortPhrase) in
  (3 * length e = 4 * length ws)%nat
  /\ (0 < length e <= 1024)%nat
  /\ V2.ArbitraryEntropyToMnemonic m e = Ok (Join ws (delimiter m))
  /\ (forall mnemonic',
        V2.ArbitraryMnemonicToEntropy m mnemonic' = Ok e ->
        fst (SplitMnemonic mnemonic') = ws).
Proof.
  apply (hash_revision_accepted_is_canonical (sampleMnemonic English)
           shortPhrase (repeat x00 4)).
  - vm_compute. reflexivity.
  - vm_compute. reflexivity.
  - vm_compute. reflexivity.
Defined.

(** X11. The same for the generalized decoder of src/mnemonic.go: every
    text that it accepts has fewer than 192 words, the entropy returned has
    4 bytes for each 3 words, its own [ArbitraryEntropyToMnemonic] maps it
    to the words of the text joined by the delimiter of the language, and no
    text with other words decodes to the same entropy. *)
Theorem byte_revision_accepted_is_canonical (m : Mnemonic)
    (mnemonic : gostring) (e : list byte) :
  wfMnemonic m = true -> mapInTable (tableOf m) = true ->
  V1.ArbitraryMnemonicToEntropy m mnemonic = Ok e ->
  let ws := fst (SplitMnemonic mnemonic) in
  (3 * length e = 4 * length ws)%nat
  /\ (0 < length e < 256)%nat
  /\ V1.ArbitraryEntropyToMnemonic m e = Ok (Join ws (delimiter m))
  /\ (forall mnemonic',
        V1.ArbitraryMnemonicToEntropy m mnemonic' = Ok e ->
        fst (SplitMnemonic mnemonic') = ws).
Proof.
  intros Hwf Hmap He ws.
  destruct (byte_canonical m Hwf Hmap mnemonic e He)
    as [k [idxs [Hk [Hle [Hws [Hall [Hlen Henc]]]]]]].
  fold ws in Hws, Henc.
  split; [rewrite Hws, length_map; lia|].
  split; [lia|].
  split; [exact Henc|].
  intros s' He'.
  destruct (byte_canonical m Hwf Hmap s' e He')
    as [k' [idxs' [_ [_ [Hws' [Hall' [_ Henc']]]]]]].
  rewrite Henc in Henc'. injection Henc' as E.
  rewrite Hws, Hws' in E |- *. symmetry.
  now apply (same_words m Hwf).
Qed.

Lemma byte_revision_accepted_is_canonical_witness :
  let m := sampleMnemonic English in
  let e := repeat x00 4 in
  let ws := fst (SplitMnemonic shortPhrase) in
  (3 * length e = 4 * length ws)%nat
  /\ (0 < length e < 256)%nat
  /\ V1.ArbitraryEntropyToMnemonic m e = Ok (Join ws (delimiter m))
  /\ (forall mnemonic',
        V1.ArbitraryMnemonicToEntropy m mnemonic' = Ok e ->
        fst (SplitMnemonic mnemonic') = ws).
Proof.
  apply (byte_revision_accepted_is_canonical (sampleMnemonic English)
           shortPhrase (repeat x00 4)).
  - vm_compute. reflexivity.
  - vm_compute. reflexivity.
  - vm_compute. reflexivity.
Defined.

(* ------------------------------------------------------------------ *)
(** ** The generalized codec of src/mnemonic.go *)

(** X12. Below 256 bytes of padded entropy the generalized codec of
    src/mnemonic.go round-trips: decoding the mnemonic of a non-empty
    entropy returns the entropy followed by zero bytes up to the next
    multiple of 4, and encoding that again gives the same mnemonic. *)
Theorem byte_revision_round_trip (m : Mnemonic) (e : list byte) :
  wfMnemonic m = true -> length e <> 0%nat ->
  (length (V1.padEntropy e) < 256)%nat ->
  exists s pad,
    V1.ArbitraryEntropyToMnemonic m e = Ok s
    /\ V1.ArbitraryMnemonicToEntropy m s = Ok (e ++ repeat x00 pad)
    /\ (pad < 4)%nat /\ ((length e + pad) mod 4 = 0)%nat
    /\ V1.ArbitraryEntropyToMnemonic m (e ++ repeat x00 pad) = Ok s.
Proof.
  intros Hwf He Hmax.
  destruct (padEntropy_spec e) as [k [pad [Hpad [Hp Hk]]]].
  assert (Hk1 : (1 <= k <= 63)%nat) by lia.
  pose proof (wfm_length m Hwf) as Hm.
  assert (Hlp : length (e ++ repeat x00 pad) = (4 * k)%nat)
    by now rewrite <- Hpad.
  exists (Join (packedWords m (byteBuffer (V1.padEntropy e)) (3 * k))
               (delimiter m)), pad.
  split; [apply (V1_encode_spec m e k); (assumption || lia)|].
  split; [rewrite <- Hpad; now apply V1_decode_spec|].
  rewrite length_app, repeat_length in Hlp.
  split; [lia|].
  split; [rewrite Hlp, Nat.mul_comm; apply Nat.Div0.mod_mul|].
  rewrite <- Hpad.
  rewrite <- (padEntropy_idem (V1.padEntropy e) k Hp) at 2.
  apply (V1_encode_spec m (V1.padEntropy e) k); try (assumption || lia).
  now rewrite padEntropy_idem with (k := k), Hp.
Qed.

Lemma byte_revision_round_trip_witness :
  exists s pad,
    V1.ArbitraryEntropyToMnemonic (sampleMnemonic Japanese) sampleEntropy5
    = Ok s
    /\ V1.ArbitraryMnemonicToEntropy (sampleMnemonic Japanese) s
       = Ok (sampleEntropy5 ++ repeat x00 pad)
    /\ (pad < 4)%nat /\ ((length sampleEntropy5 + pad) mod 4 = 0)%nat
    /\ V1.ArbitraryEntropyToMnemonic (sampleMnemonic Japanese)
         (sampleEntropy5 ++ repeat x00 pad) = Ok s.
Proof.
  apply (byte_revision_round_trip (sampleMnemonic Japanese) sampleEntropy5).
  - vm_compute. reflexivity.
  - vm_compute. congruence.
  - vm_compute. repeat constructor.
Defined.

(** X13. The generalized encoder of src/mnemonic.go accepts every non-empty
    entropy, of any size: the mnemonic has 3 words for each 4 bytes of the
    padded entropy, and its words spell the padded entropy followed by the
    leading bits of the first hash byte written again and again, which is
    also what its decoder expects; up to 8 checksum bits (32 bytes) these
    are the leading bits of the hash. *)
Theorem byte_revision_checksum (m : Mnemonic) (e : list byte) :
  wfMnemonic m = true -> length e <> 0%nat ->
  let p := V1.padEntropy e in
  let checksumBits := (length p / 4)%nat in
  let h0 := nth 0 (SHA256.Sum256 p) x00 in
  exists s,
    V1.ArbitraryEntropyToMnemonic m e = Ok s
    /\ length (fst (SplitMnemonic s)) = (3 * checksumBits)%nat
    /\ (length e <= 4 * checksumBits < length e + 4)%nat
    /\ mnemonicValue m s
       = Ok (big_SetBytes p * 2 ^ Z.of_nat checksumBits
             + repeatedBits checksumBits h0)
    /\ V1.expectedChecksum checksumBits h0 = repeatedBits checksumBits h0
    /\ ((checksumBits <= 8)%nat ->
        repeatedBits checksumBits h0
        = leadingBits checksumBits (SHA256.Sum256 p)).
Proof.
  intros Hwf He p checksumBits h0.
  destruct (padEntropy_spec e) as [k [pad [_ [Hp Hk]]]]. fold p in Hp.
  destruct (sizes k) as [H4 _].
  assert (Hbits : checksumBits = k) by (unfold checksumBits; now rewrite Hp).
  rewrite Hbits.
  pose proof (checksumBytes_bound k) as Hc.
  destruct (byteBuffer_value p k Hp) as [Hb Hr].
  eexists. split.
  { apply (V1_encode_spec m e k); [now apply wfm_length | assumption | exact Hp]. }
  fold p. split.
  { now rewrite (split_packedWords m Hwf), (packedWords_length m). }
  split; [lia|]. split.
  { rewrite (mnemonicValue_packed m Hwf)
      by (rewrite (byteBuffer_length p k) by assumption; lia).
    now rewrite Hb. }
  split; [apply V1_expectedChecksum_spec|].
  intros Hk8. rewrite <- V1_expectedChecksum_spec.
  rewrite V1_expected_small by assumption. unfold h0.
  symmetry. apply leadingBits_first; [lia | rewrite Sum256_length; lia].
Qed.

Lemma byte_revision_checksum_witness :
  let m := sampleMnemonic English in
  let p := V1.padEntropy zeros36 in
  let checksumBits := (length p / 4)%nat in
  let h0 := nth 0 (SHA256.Sum256 p) x00 in
  exists s,
    V1.ArbitraryEntropyToMnemonic m zeros36 = Ok s
    /\ length (fst (SplitMnemonic s)) = (3 * checksumBits)%nat
    /\ (length zeros36 <= 4 * checksumBits < length zeros36 + 4)%nat
    /\ mnemonicValue m s
       = Ok (big_SetBytes p * 2 ^ Z.of_nat checksumBits
             + repeatedBits checksumBits h0)
    /\ V1.expectedChecksum checksumBits h0 = repeatedBits checksumBits h0
    /\ ((checksumBits <= 8)%nat ->
        repeatedBits checksumBits h0
        = leadingBits checksumBits (SHA256.Sum256 p)).
Proof.
  apply (byte_revision_checksum (sampleMnemonic English) zeros36).
  - vm_compute. reflexivity.
  - vm_compute. congruence.
Defined.

(* ------------------------------------------------------------------ *)
(** ** The four codecs against each other *)

(** Up to 8 checksum bits both generalized encoders pack the padded entropy
    followed by the first hash byte. *)
Lemma V1_encode_small (m : Mnemonic) (e : list byte) (k : nat) :
  length e <> 0%nat -> length (V1.padEntropy e) = (4 * k)%nat ->
  (k <= 8)%nat ->
  V1.ArbitraryEntropyToMnemonic m e
  = let* words := packWords m (standardBuffer (V1.padEntropy e)) (3 * k) in
    Ok (Join words (delimiter m)).
Proof.
  intros He Hp Hk. unfold V1.ArbitraryEntropyToMnemonic.
  destruct (Nat.eqb_spec (length e) 0); [contradiction|].
  cbv zeta. set (p := V1.padEntropy e) in *.
  rewrite computeChecksum_ok. cbn [bind].
  destruct (sizes k) as [H4 [Hwc _]].
  pose proof (checksumBytes_bound k) as Hc.
  rewrite Hp, H4, Hwc, fillChecksum_spec.
  assert (H1 : ((k + 7) / 8 = 1)%nat).
  { destruct e; [contradiction|].
    destruct (padEntropy_spec (b :: e)) as [k' [pad [_ [Hp' Hk']]]].
    fold p in Hp'. simpl length in Hk'. lia. }
  rewrite H1. reflexivity.
Qed.

Lemma V2_encode_small (m : Mnemonic) (e : list byte) (k : nat) :
  length e <> 0%nat -> length (V1.padEntropy e) = (4 * k)%nat ->
  (k <= 8)%nat ->
  V2.ArbitraryEntropyToMnemonic m e
  = let* words := packWords m (standardBuffer (V1.padEntropy e)) (3 * k) in
    Ok (Join words (delimiter m)).
Proof.
  intros He Hp Hk. unfold V2.ArbitraryEntropyToMnemonic.
  destruct (Nat.eqb_spec (length e) 0); [contradiction|].
  cbv zeta. set (p := V1.padEntropy e) in *.
  destruct (Nat.ltb_spec 1024 (length p)); [lia|].
  unfold V2.computeChecksum. cbn [bind].
  destruct (sizes k) as [H4 [Hwc _]].
  pose proof (checksumBytes_bound k) as Hc.
  rewrite Hp, H4, Hwc.
  rewrite appendChecksum_spec by (rewrite Sum256_length; lia).
  cbn [bind].
  assert (H1 : ((k + 7) / 8 = 1)%nat).
  { destruct e; [contradiction|].
    destruct (padEntropy_spec (b :: e)) as [k' [pad [_ [Hp' Hk']]]].
    fold p in Hp'. simpl length in Hk'. lia. }
  rewrite H1. unfold standardBuffer.
  destruct (Sum256_cons p) as [h0 [rest ->]]. reflexivity.
Qed.

Lemma standard_encode_unfolded (m : Mnemonic) (e : list byte) (cs : nat) :
  (4 <= cs <= 8)%nat -> length e = (4 * cs)%nat ->
  V1.EntropyToMnemonic m e
  = let* words := packWords m (standardBuffer e) (3 * cs) in
    Ok (Join words (delimiter m)).
Proof.
  intros Hcs Hlen. unfold V1.EntropyToMnemonic.
  destruct (valid_sizes cs Hcs) as [Hv _]. rewrite Hlen, Hv. cbn [negb].
  rewrite computeChecksum_ok. cbn [bind]. fold (standardBuffer e).
  assert (Hl : length (standardBuffer e) = (4 * cs + 1)%nat).
  { unfold standardBuffer. rewrite length_app, Hlen. simpl. lia. }
  assert (Hwc : (length (standardBuffer e) * 8 / 11 = 3 * cs)%nat).
  { rewrite Hl.
    assert (C : (cs = 4 \/ cs = 5 \/ cs = 6 \/ cs = 7 \/ cs = 8)%nat) by lia.
    destruct C as [->|[->|[->|[->| ->]]]]; reflexivity. }
  now rewrite Hwc.
Qed.

Lemma arbitrary_unknown (m : Mnemonic) (mnemonic : gostring) :
  let ws := fst (SplitMnemonic mnemonic) in
  (length ws =? 0)%nat || negb (length ws mod 3 =? 0)%nat = false ->
  allKnown m ws = false ->
  V1.ArbitraryMnemonicToEntropy m mnemonic = Err ErrInvalidMnemonic
  /\ V2.ArbitraryMnemonicToEntropy m mnemonic = Err ErrInvalidMnemonic.
Proof.
  intros ws Hc Hk.
  unfold V1.ArbitraryMnemonicToEntropy, V2.ArbitraryMnemonicToEntropy.
  fold ws. destruct (SplitMnemonic mnemonic) as [ws' dl]. cbn [fst] in *.
  subst ws. cbv zeta. rewrite Hc, (decodeWords_unknown m ws' 0 Hk).
  split; reflexivity.
Qed.

Lemma arbitrary_bad_count (m : Mnemonic) (mnemonic : gostring) :
  let ws := fst (SplitMnemonic mnemonic) in
  (length ws =? 0)%nat || negb (length ws mod 3 =? 0)%nat = true ->
  V1.ArbitraryMnemonicToEntropy m mnemonic = Err ErrInvalidNumberWords
  /\ V2.ArbitraryMnemonicToEntropy m mnemonic = Err ErrInvalidNumberWords.
Proof.
  intros ws Hc.
  unfold V1.ArbitraryMnemonicToEntropy, V2.ArbitraryMnemonicToEntropy.
  fold ws. destruct (SplitMnemonic mnemonic) as [ws' dl]. cbn [fst] in *.
  subst ws. cbv zeta. rewrite Hc. split; reflexivity.
Qed.

Lemma standard_unknown (m : Mnemonic) (mnemonic : gostring) :
  let ws := fst (SplitMnemonic mnemonic) in
  isValidWordsSize (length ws) = true -> allKnown m ws = false ->
  V1.EntropyFromMnemonic m mnemonic = Err ErrInvalidMnemonic.
Proof.
  intros ws Hv Hk. unfold V1.EntropyFromMnemonic. fold ws.
  destruct (SplitMnemonic mnemonic) as [ws' dl]. cbn [fst] in *.
  subst ws. cbv zeta. rewrite Hv. cbn [negb].
  now rewrite (decodeWords_unknown m ws' 0 Hk).
Qed.

(** X14. Up to 32 bytes of padded entropy the two revisions of the
    generalized codec are one function: their encoders give the same answer
    on every entropy of at most 32 bytes, and their decoders the same answer
    on every text of at most 24 words, whatever the table is. *)
Theorem revisions_agree_up_to_32_bytes (m : Mnemonic) :
  (forall e, (length e <= 32)%nat ->
             V1.ArbitraryEntropyToMnemonic m e
             = V2.ArbitraryEntropyToMnemonic m e)
  /\ (forall mnemonic,
        (length (fst (SplitMnemonic mnemonic)) <= 24)%nat ->
        V1.ArbitraryMnemonicToEntropy m mnemonic
        = V2.ArbitraryMnemonicToEntropy m mnemonic).
Proof.
  split.
  - intros e Hle. destruct (Nat.eq_dec (length e) 0%nat) as [E0|N0].
    + unfold V1.ArbitraryEntropyToMnemonic, V2.ArbitraryEntropyToMnemonic.
      now rewrite E0.
    + destruct (padEntropy_spec e) as [k [pad [_ [Hp Hk]]]].
      rewrite (V1_encode_small m e k), (V2_encode_small m e k);
        (assumption || lia || reflexivity).
  - intros s Hn. set (ws := fst (SplitMnemonic s)) in *.
    destruct ((length ws =? 0)%nat || negb (length ws mod 3 =? 0)%nat) eqn:Hc.
    { destruct (arbitrary_bad_count m s Hc) as [-> ->]. reflexivity. }
    destruct (allKnown m ws) eqn:Hkn.
    + destruct (arbitrary_count m ws Hc Hkn) as [k [b [Hk1 [Hlen Hb]]]].
      rewrite (V1_decoded m s k b Hk1 Hlen Hb),
        (V2_decoded m s k b Hk1 Hlen Hb).
      destruct (Nat.leb_spec 64 k); [lia|].
      destruct (Nat.ltb_spec 256 k); [lia|]. cbv zeta.
      rewrite V1_expected_small by lia.
      rewrite leadingBits_first by (rewrite ?Sum256_length; lia).
      reflexivity.
    + destruct (arbitrary_unknown m s Hc Hkn) as [-> ->]. reflexivity.
Qed.

(** X15. On the standard sizes the generalized codec is the standard one,
    in both revisions and whatever the table is: for an entropy of 16, 20,
    24, 28 or 32 bytes [ArbitraryEntropyToMnemonic] answers what
    [EntropyToMnemonic] answers, and for a text of 12, 15, 18, 21 or 24
    words [ArbitraryMnemonicToEntropy] answers what [EntropyFromMnemonic]
    answers. *)
Theorem generalized_extends_standard (m : Mnemonic) :
  (forall e, In (length e) [16; 20; 24; 28; 32]%nat ->
             V1.ArbitraryEntropyToMnemonic m e = V1.EntropyToMnemonic m e
             /\ V2.ArbitraryEntropyToMnemonic m e = V2.EntropyToMnemonic m e)
  /\ (forall mnemonic,
        In (length (fst (SplitMnemonic mnemonic))) [12; 15; 18; 21; 24]%nat ->
        V1.ArbitraryMnemonicToEntropy m mnemonic
        = V1.EntropyFromMnemonic m mnemonic
        /\ V2.ArbitraryMnemonicToEntropy m mnemonic
           = V2.EntropyFromMnemonic m mnemonic).
Proof.
  split.
  - intros e Hn. destruct (standard_size _ Hn) as [cs [Hcs Hlen]].
    assert (Hp : V1.padEntropy e = e) by apply (padEntropy_idem e cs Hlen).
    assert (Hstd := standard_encode_unfolded m e cs Hcs Hlen).
    split.
    + rewrite (V1_encode_small m e cs), Hp, Hstd;
        (reflexivity || lia || (rewrite Hp; assumption)).
    + rewrite (V2_encode_small m e cs), Hp;
        [|lia | rewrite Hp; assumption | lia].
      rewrite <- Hstd. symmetry. apply standard_encoder_unchanged.
  - intros s Hn. set (ws := fst (SplitMnemonic s)) in *.
    assert (Hv : isValidWordsSize (length ws) = true).
    { unfold isValidWordsSize, validWordsSizes. apply bool_decide_eq_true.
      rewrite !elem_of_cons, elem_of_nil. simpl in Hn.
      intuition (auto 10 with arith). }
    destruct (valid_count _ Hv) as [cs [Hcs Hlen]].
    assert (Hc : (length ws =? 0)%nat || negb (length ws mod 3 =? 0)%nat
                 = false).
    { destruct (sizes cs) as [_ [_ [_ Hmod]]]. rewrite Hlen, Hmod.
      destruct (Nat.eqb_spec (3 * cs) 0); [lia | reflexivity]. }
    assert (Hstd : V2.EntropyFromMnemonic m s = V1.EntropyFromMnemonic m s)
      by apply standard_decoder_unchanged.
    destruct (allKnown m ws) eqn:Hkn.
    + destruct (decodeWords_known m ws 0 Hkn ltac:(lia)) as [b [Hb _]].
      assert (Hd := EntropyFromMnemonic_decoded m s cs b Hcs Hlen Hb).
      split.
      * rewrite (V1_decoded m s cs b) by (assumption || lia).
        destruct (Nat.leb_spec 64 cs); [lia|]. cbv zeta.
        rewrite V1_expected_small by lia. now rewrite Hd.
      * rewrite (V2_decoded m s cs b) by (assumption || lia).
        destruct (Nat.ltb_spec 256 cs); [lia|]. cbv zeta.
        rewrite leadingBits_first by (rewrite ?Sum256_length; lia).
        exact (eq_trans (eq_sym Hd) (eq_sym Hstd)).
    + destruct (arbitrary_unknown m s Hc Hkn) as [-> ->].
      assert (Hu := standard_unknown m s Hv Hkn).
      split; [now rewrite Hu|].
      exact (eq_trans (eq_sym Hu) (eq_sym Hstd)).
Qed.

Lemma revisions_agree_up_to_32_bytes_witness :
  V1.ArbitraryEntropyToMnemonic (sampleMnemonic English) sampleEntropy5
  = V2.ArbitraryEntropyToMnemonic (sampleMnemonic English) sampleEntropy5
  /\ V1.ArbitraryMnemonicToEntropy (sampleMnemonic English) shortPhrase
     = V2.ArbitraryMnemonicToEntropy (sampleMnemonic English) shortPhrase.
Proof.
  destruct (revisions_agree_up_to_32_bytes (sampleMnemonic English))
    as [H1 H2].
  split; [apply H1 | apply H2]; vm_compute; lia.
Defined.

Lemma generalized_extends_standard_witness :
  (V1.ArbitraryEntropyToMnemonic (sampleMnemonic English) sampleEntropy16
   = V1.EntropyToMnemonic (sampleMnemonic English) sampleEntropy16
   /\ V2.ArbitraryEntropyToMnemonic (sampleMnemonic English) sampleEntropy16
      = V2.EntropyToMnemonic (sampleMnemonic English) sampleEntropy16)
  /\ (V1.ArbitraryMnemonicToEntropy (sampleMnemonic English) zeroPhrase
      = V1.EntropyFromMnemonic (sampleMnemonic English) zeroPhrase
      /\ V2.ArbitraryMnemonicToEntropy (sampleMnemonic English) zeroPhrase
         = V2.EntropyFromMnemonic (sampleMnemonic English) zeroPhrase).
Proof.
  destruct (generalized_extends_standard (sampleMnemonic English))
    as [H1 H2].
  split; [apply H1 | apply H2]; vm_compute; tauto.
Defined.

(* ------------------------------------------------------------------ *)
(** ** mnemonic.go: [extractBits] and [padByteSlice] *)

Lemma extractBits_loop_short (data : list byte) (start n i : nat)
    (result : Z) :
  (0 < n)%nat -> (8 * length data < start + i + n)%nat ->
  extractBits_loop data start i n result = Panic.
Proof.
  revert i result. induction n as [|n IH]; intros i result H0 H; [lia|].
  cbn [extractBits_loop].
  destruct (data !! ((start + i) / 8)%nat) as [b|] eqn:E; [|reflexivity].
  apply lookup_lt_Some in E.
  pose proof (Nat.div_mod_eq (start + i) 8) as Hd.
  pose proof (Nat.mod_upper_bound (start + i) 8 ltac:(lia)) as Hm.
  apply IH; lia.
Qed.

(** X16. [extractBits(data, start, length)] reads the bits
    [start .. start+length-1] of the buffer, counted from the most
    significant bit of its first byte, as an unsigned number (for a length
    up to 62, which leaves the [int] accumulator unwrapped); it panics as
    soon as one of these bits lies beyond the buffer. *)
Theorem extractBits_reads (data : list byte) (start n : nat) :
  ((start + n <= 8 * length data)%nat -> (n <= 62)%nat ->
   extractBits data start n
   = Ok ((big_SetBytes data
          / 2 ^ (8 * Z.of_nat (length data) - Z.of_nat start - Z.of_nat n))
         mod 2 ^ Z.of_nat n))
  /\ ((0 < n)%nat -> (8 * length data < start + n)%nat ->
      extractBits data start n = Panic).
Proof.
  split.
  - apply extractBits_spec.
  - intros H0 H. apply extractBits_loop_short; lia.
Qed.

Lemma extractBits_reads_witness :
  extractBits (map byte_of_Z [0xA5; 0x0F]) 4 8 = Ok 0x50
  /\ extractBits (map byte_of_Z [0xA5; 0x0F]) 9 8 = Panic.
Proof.
  destruct (extractBits_reads (map byte_of_Z [0xA5; 0x0F]) 4 8) as [H1 _].
  destruct (extractBits_reads (map byte_of_Z [0xA5; 0x0F]) 9 8) as [_ H2].
  split.
  - rewrite H1 by (vm_compute; lia). reflexivity.
  - apply H2; vm_compute; lia.
Defined.

(** X17. [padByteSlice] undoes what the detour through [big.Int] loses: a
    byte string turned into a [big.Int] ([SetBytes]) and back ([Bytes]) has
    lost its leading zero bytes, and padding the result to the original
    length gives the original string.  In general [padByteSlice] puts zero
    bytes in front, as many as are missing, and none when the slice is long
    enough already; it never drops a byte. *)
Theorem padByteSlice_restores (e s : list byte) (n : nat) :
  padByteSlice (big_Bytes (big_SetBytes e)) (length e) = e
  /\ padByteSlice s n = repeat x00 (n - length s) ++ s
  /\ big_SetBytes (padByteSlice s n) = big_SetBytes s.
Proof.
  split; [apply pad_Bytes_SetBytes|]. split; [|apply padByteSlice_val].
  unfold padByteSlice.
  destruct (Z.leb_spec (Z.of_nat n - Z.of_nat (length s)) 0) as [H|H].
  - replace (n - length s)%nat with 0%nat by lia. reflexivity.
  - f_equal. f_equal. lia.
Qed.

(* ------------------------------------------------------------------ *)
(** ** mnemonic.go: [GenerateMnemonic] *)

Lemma valid_bits_int (bits : Z) :
  isValidEntropyBitsInt bits = true <->
  In bits [128; 160; 192; 224; 256].
Proof.
  unfold isValidEntropyBitsInt, isValidEntropyBits, validEntropyBits.
  rewrite andb_true_iff, Z.leb_le, bool_decide_eq_true.
  rewrite !elem_of_cons, elem_of_nil. simpl. split.
  - intros [H0 H]. lia.
  - intros H. split; [lia|].
    destruct H as [<-|[<-|[<-|[<-|[<-|[]]]]]]; simpl; tauto.
Qed.

(** X18. [GenerateMnemonic] refuses an [entropyBits] other than 128, 160,
    192, 224 or 256 (negative ones too) with [ErrInvalidEntropy]; otherwise
    it asks the random source for entropyBits/8 bytes, hands on the error
    of the source if there is one, and else returns a mnemonic of
    3 * entropyBits/32 words that [EntropyFromMnemonic] decodes to the
    bytes drawn.  It never panics. *)
Theorem GenerateMnemonic_spec {E : Type} (read : nat -> E + list byte)
    (m : Mnemonic) (opts : list GenerateMnemonicOption) :
  wfMnemonic m = true ->
  (forall n e, read n = inr e -> length e = n) ->
  let bits := entropyBits (applyOptions opts {| entropyBits := 128 |}) in
  match GenerateMnemonic read m opts with
  | inl err =>
      In bits [128; 160; 192; 224; 256]
      /\ read (Z.to_nat (bits / 8)) = inl err
  | inr (Ok s) =>
      In bits [128; 160; 192; 224; 256]
      /\ exists e,
           read (Z.to_nat (bits / 8)) = inr e
           /\ length (fst (SplitMnemonic s)) = Z.to_nat (bits / 32 * 3)
           /\ V1.EntropyFromMnemonic m s = Ok e
  | inr (Err err) =>
      err = ErrInvalidEntropy /\ ~ In bits [128; 160; 192; 224; 256]
  | inr Panic => False
  end.
Proof.
  intros Hwf Hread bits. unfold GenerateMnemonic. fold bits.
  destruct (isValidEntropyBitsInt bits) eqn:Hv; cbn [negb].
  - apply valid_bits_int in Hv.
    destruct (read (Z.to_nat (bits / 8))) as [err|e] eqn:Er; [now split|].
    apply Hread in Er.
    assert (Hcs : exists cs, (4 <= cs <= 8)%nat
                    /\ Z.to_nat (bits / 8) = (4 * cs)%nat
                    /\ Z.to_nat (bits / 32 * 3) = (3 * cs)%nat).
    { destruct Hv as [<-|[<-|[<-|[<-|[<-|[]]]]]];
        [exists 4%nat | exists 5%nat | exists 6%nat | exists 7%nat
         | exists 8%nat]; repeat split; lia. }
    destruct Hcs as [cs [Hcs [H8 H32]]]. rewrite H8 in Er.
    rewrite (EntropyToMnemonic_spec m cs e (wfm_length m Hwf) Hcs Er).
    split; [assumption|]. exists e. split; [reflexivity|]. split.
    + now rewrite (split_packedWords m Hwf), (packedWords_length m), H32.
    + now apply EntropyFromMnemonic_spec.
  - split; [reflexivity|]. intros Hin. apply valid_bits_int in Hin.
    congruence.
Qed.

Lemma GenerateMnemonic_spec_witness :
  let m := sampleMnemonic English in
  let opts := [WithEntropyBits 160] in
  let bits := entropyBits (applyOptions opts {| entropyBits := 128 |}) in
  match GenerateMnemonic (constantSource "042"%byte) m opts with
  | inl err =>
      In bits [128; 160; 192; 224; 256]
      /\ constantSource "042"%byte (Z.to_nat (bits / 8)) = inl err
  | inr (Ok s) =>
      In bits [128; 160; 192; 224; 256]
      /\ exists e,
           constantSource "042"%byte (Z.to_nat (bits / 8)) = inr e
           /\ length (fst (SplitMnemonic s)) = Z.to_nat (bits / 32 * 3)
           /\ V1.EntropyFromMnemonic m s = Ok e
  | inr (Err err) =>
      err = ErrInvalidEntropy /\ ~ In bits [128; 160; 192; 224; 256]
  | inr Panic => False
  end.
Proof.
  apply (GenerateMnemonic_spec (constantSource "042"%byte)
           (sampleMnemonic English) [WithEntropyBits 160]).
  - vm_compute. reflexivity.
  - intros n e [= <-]. apply repeat_length.
Defined.

(* ------------------------------------------------------------------ *)
(** ** bip39.go: the language of an encoded mnemonic, [IsMnemonicValid] *)

Lemma mnemonicOf_wf (wordlists : Language -> languageData) (lang : Language) :
  wfData (wordlists lang) = true ->
  wfMnemonic (mnemonicOf wordlists lang) = true.
Proof.
  intros Hwf.
  apply (NewMnemonic_wf wordlists lang _ Hwf).
  apply NewMnemonic_WithLanguage.
Qed.

Lemma wordOK_clean (ws : list gostring) :
  Forall (fun w => wordOK w = true) ws -> Forall cleanWord ws.
Proof.
  intros H. eapply List.Forall_impl; [|exact H]. intros w Hw. split.
  - now apply wordOK_nonEmpty.
  - now apply wordOK_noSeparator.
Qed.

(** What [splitMnemonic] reads off the text that an encoder builds. *)
Lemma split_encoded (m : Mnemonic) (buf : list byte) (wordCount : nat) :
  wfMnemonic m = true ->
  let s := Join (packedWords m buf wordCount) (delimiter m) in
  fst (splitMnemonic s) = packedWords m buf wordCount
  /\ (snd (splitMnemonic s) = [japaneseSpace] ->
      delimiter m = [japaneseSpace])
  /\ allKnown m (packedWords m buf wordCount) = true.
Proof.
  intros Hwf s.
  change (splitMnemonic s) with (SplitMnemonic s).
  pose proof (packedWords_OK m Hwf buf wordCount) as HOK.
  split; [apply (split_packedWords m Hwf)|]. split.
  - rewrite SplitMnemonic_spec. cbn [snd]. unfold s.
    rewrite TrimSpace_Join by assumption.
    rewrite containsRune_Join by now apply wordOK_clean.
    destruct (wfm_delimiter m Hwf) as [-> | ->]; [|reflexivity].
    rewrite andb_false_r. discriminate.
  - apply allKnown_Forall, List.Forall_forall. intros w Hw.
    unfold packedWords in Hw. apply in_map_iff in Hw as [j [<- _]].
    rewrite (nthWord_index m Hwf) by apply indexAt_range. eauto.
Qed.

(** The text that any of the encoders returns is packed words joined by the
    delimiter. *)
Lemma encoded_shape (m : Mnemonic) (e : list byte) (s : gostring) :
  length (wordList m) = 2048%nat ->
  V1.EntropyToMnemonic m e = Ok s
  \/ V1.ArbitraryEntropyToMnemonic m e = Ok s
  \/ V2.ArbitraryEntropyToMnemonic m e = Ok s ->
  exists buf wordCount,
    (1 <= wordCount)%nat
    /\ s = Join (packedWords m buf wordCount) (delimiter m).
Proof.
  intros Hm [H|[H|H]].
  - destruct (isValidEntropyBits (length e * 8)) eqn:Hv.
    + apply valid_bits_size, standard_size in Hv as [cs [Hcs Hlen]].
      rewrite (EntropyToMnemonic_spec m cs e Hm Hcs Hlen) in H.
      injection H as <-. exists (standardBuffer e), (3 * cs)%nat.
      split; [lia | reflexivity].
    + unfold V1.EntropyToMnemonic in H. rewrite Hv in H. discriminate.
  - destruct (Nat.eq_dec (length e) 0%nat) as [E0|N0].
    + unfold V1.ArbitraryEntropyToMnemonic in H. rewrite E0 in H.
      discriminate.
    + destruct (padEntropy_spec e) as [k [pad [_ [Hp Hk]]]].
      rewrite (V1_encode_spec m e k Hm N0 Hp) in H. injection H as <-.
      exists (byteBuffer (V1.padEntropy e)), (3 * k)%nat.
      split; [lia | reflexivity].
  - destruct (Nat.eq_dec (length e) 0%nat) as [E0|N0].
    + unfold V2.ArbitraryEntropyToMnemonic in H. rewrite E0 in H.
      discriminate.
    + destruct (padEntropy_spec e) as [k [pad [_ [Hp Hk]]]].
      destruct (Nat.le_gt_cases k 256%nat) as [Hk2|Hk2].
      * rewrite (V2_encode_spec m e k Hm N0 Hp Hk2) in H. injection H as <-.
        exists (hashBuffer (V1.padEntropy e)), (3 * k)%nat.
        split; [lia | reflexivity].
      * unfold V2.ArbitraryEntropyToMnemonic in H.
        destruct (Nat.eqb_spec (length e) 0); [contradiction|].
        cbv zeta in H.
        destruct (Nat.ltb_spec 1024 (length (V1.padEntropy e)));
          [discriminate | lia].
Qed.

Lemma NoDup_all_same {A} (a : A) (l : list A) :
  NoDup l -> In a l -> (forall x, In x l -> x = a) -> l = [a].
Proof.
  intros Hnd Hin Hall. destruct l as [|x l]; [destruct Hin|].
  assert (x = a) by (apply Hall; now left). subst x.
  destruct l as [|y l]; [reflexivity|].
  assert (y = a) by (apply Hall; right; now left). subst y.
  apply NoDup_cons in Hnd as [Hn _]. exfalso. apply Hn. now left.
Qed.

Section DetectEncoded.

Variable wordlists : Language -> languageData.

Lemma detect_parts (mnemonic : gostring) (opts : list DetectLanguageOption) :
  let supplied := languages (applyOptions opts {| languages := [] |}) in
  let ws := fst (splitMnemonic mnemonic) in
  let ls := fst (DetectLanguage wordlists mnemonic opts) in
  snd (DetectLanguage wordlists mnemonic opts) = (0 <? length ls)%nat
  /\ NoDup ls
  /\ (forall l, In l ls ->
        (supplied = [] \/ In l supplied)
        /\ (forall w, head ws = Some w ->
                      is_Some (wordsMap (wordlists l) !! w)))
  /\ (forall l,
        (supplied = [] \/ In l supplied) ->
        (snd (splitMnemonic mnemonic) = [japaneseSpace] -> l = Japanese) ->
        allKnown (mnemonicOf wordlists l) ws = true ->
        In l ls).
Proof.
  intros supplied ws ls. subst ls ws. unfold DetectLanguage. fold supplied.
  destruct (splitMnemonic mnemonic) as [ws delim]. cbn [fst snd].
  set (possible := candidates wordlists _ delim).
  split; [apply detectLoop_found|].
  split; [eapply sublist_NoDup;
          [apply candidates_NoDup | apply detectLoop_sublist]|].
  split.
  - intros l Hl. destruct (detectLoop_sound ws possible l Hl)
      as [d [Hd [Hw _]]].
    apply In_candidates in Hd as [-> [Hr _]]. auto.
  - intros l Hsup Hj Hall. apply allKnown_Forall in Hall.
    cbn [mnemonicOf wordMap] in Hall.
    apply (detectLoop_complete ws possible l (wordlists l));
      [|assumption].
    apply In_candidates. auto.
Qed.

(** X19. The language of a mnemonic that one of the encoders built with a
    well-formed table is never missed: [DetectLanguage] answers found, with
    that language among the returned ones; and asked about that language
    alone ([WithLanguages]) it answers that language. *)
Theorem encoded_language_is_detected (lang : Language) (e : list byte)
    (s : gostring) :
  wfData (wordlists lang) = true ->
  (let m := mnemonicOf wordlists lang in
   V1.EntropyToMnemonic m e = Ok s
   \/ V1.ArbitraryEntropyToMnemonic m e = Ok s
   \/ V2.ArbitraryEntropyToMnemonic m e = Ok s) ->
  (exists ls, DetectLanguage wordlists s [] = (ls, true) /\ In lang ls)
  /\ DetectLanguage wordlists s [WithLanguages [lang]] = ([lang], true).
Proof.
  intros Hwfd Henc. cbv zeta in Henc.
  pose proof (mnemonicOf_wf wordlists lang Hwfd) as Hwf.
  set (m := mnemonicOf wordlists lang) in *.
  destruct (encoded_shape m e s (wfm_length m Hwf) Henc)
    as [buf [wc [Hwc ->]]].
  destruct (split_encoded m buf wc Hwf) as [Hws [Hd Hk]].
  set (s := Join (packedWords m buf wc) (delimiter m)) in *.
  assert (Hj : snd (splitMnemonic s) = [japaneseSpace] -> lang = Japanese).
  { intros H. specialize (Hd H). unfold m in Hd. cbn [mnemonicOf delimiter] in Hd.
    destruct (decide (lang = Japanese)); [assumption | discriminate]. }
  rewrite <- Hws in Hk.
  split.
  - destruct (detect_parts s []) as [Hf [_ [_ Hc]]].
    specialize (Hc lang (or_introl eq_refl) Hj Hk).
    destruct (DetectLanguage wordlists s []) as [ls found].
    cbn [fst snd] in *. exists ls. split; [|assumption].
    f_equal. rewrite Hf. destruct ls; [destruct Hc | reflexivity].
  - destruct (detect_parts s [WithLanguages [lang]]) as [Hf [Hnd [Hs Hc]]].
    cbn [applyOptions fold_left WithLanguages languages] in Hs, Hc.
    specialize (Hc lang (or_intror (or_introl eq_refl)) Hj Hk).
    destruct (DetectLanguage wordlists s [WithLanguages [lang]])
      as [ls found].
    cbn [fst snd] in *.
    assert (Hls : ls = [lang]).
    { apply NoDup_all_same; [assumption | assumption |].
      intros x Hx. destruct (Hs x Hx) as [[Hn|[Hl|[]]] _];
        [discriminate | now symmetry]. }
    subst ls. now rewrite Hf.
Qed.

End DetectEncoded.

Lemma encoded_language_is_detected_witness :
  (exists ls,
     DetectLanguage sampleWordlists zeroPhrase [] = (ls, true)
     /\ In English ls)
  /\ DetectLanguage sampleWordlists zeroPhrase [WithLanguages [English]]
     = ([English], true).
Proof.
  apply (encoded_language_is_detected sampleWordlists English
           (repeat x00 16) zeroPhrase).
  - vm_compute. reflexivity.
  - left. vm_compute. reflexivity.
Defined.

Lemma EntropyFromMnemonic_no_panic (m : Mnemonic) (mnemonic : gostring) :
  V1.EntropyFromMnemonic m mnemonic <> Panic.
Proof.
  set (ws := fst (SplitMnemonic mnemonic)).
  destruct (isValidWordsSize (length ws)) eqn:Hv.
  - destruct (allKnown m ws) eqn:Hk.
    + destruct (valid_count _ Hv) as [cs [Hcs Hn]].
      destruct (decodeWords_known m ws 0 Hk ltac:(lia)) as [b [Hb _]].
      rewrite (EntropyFromMnemonic_decoded m mnemonic cs b Hcs Hn Hb).
      cbv zeta. now destruct (_ =? _).
    + now rewrite (standard_unknown m mnemonic Hv Hk).
  - unfold V1.EntropyFromMnemonic. fold ws.
    destruct (SplitMnemonic mnemonic) as [ws' dl]. cbn [fst] in *.
    subst ws. cbv zeta. now rewrite Hv.
Qed.

Section ValidityLemmas.

Variable wordlists : Language -> languageData.

Lemma validLoop_spec (mnemonic : gostring) (ls : list Language) :
  exists b,
    validLoop wordlists mnemonic ls = Ok b
    /\ (b = true <->
        forall lang, In lang ls ->
          exists e,
            V1.EntropyFromMnemonic (mnemonicOf wordlists lang) mnemonic
            = Ok e).
Proof.
  induction ls as [|lang ls [b [IH1 IH2]]].
  - exists true. split; [reflexivity|]. split; [intros _ l []|reflexivity].
  - cbn [validLoop]. rewrite NewMnemonic_WithLanguage.
    fold (mnemonicOf wordlists lang).
    pose proof (EntropyFromMnemonic_no_panic (mnemonicOf wordlists lang)
                  mnemonic) as Hnp.
    destruct (V1.EntropyFromMnemonic (mnemonicOf wordlists lang) mnemonic)
      as [e|err|] eqn:Ed; [| |congruence].
    + exists b. split; [exact IH1|]. rewrite IH2. split.
      * intros H l [<-|Hl]; [eauto | now apply H].
      * intros H l Hl. apply H. now right.
    + exists false. split; [reflexivity|]. split; [discriminate|].
      intros H. destruct (H lang (or_introl eq_refl)) as [e He].
      rewrite Ed in He. discriminate.
Qed.

Lemma exclusive_spec (lang l : Language) (w : gostring) :
  exclusive wordlists lang = true ->
  In w (words (wordlists lang)) ->
  is_Some (wordsMap (wordlists l) !! w) -> l = lang.
Proof.
  intros Hex Hw Hs. unfold exclusive in Hex.
  rewrite forallb_forall in Hex. specialize (Hex l (allLanguages_all l)).
  cbv zeta in Hex. apply orb_prop in Hex as [H|H].
  - now apply bool_decide_eq_true in H.
  - rewrite forallb_forall in H. specialize (H w Hw).
    apply negb_true_iff, bool_decide_eq_false in H. contradiction.
Qed.

End ValidityLemmas.

(** X20. [IsMnemonicValid] never panics.  It answers true exactly when
    [DetectLanguage] returns some language and [EntropyFromMnemonic]
    accepts the text with the table of every returned language; the text
    then has 12, 15, 18, 21 or 24 words. *)
Theorem IsMnemonicValid_sound (wordlists : Language -> languageData)
    (mnemonic : gostring) :
  let detected := fst (DetectLanguage wordlists mnemonic []) in
  exists b,
    IsMnemonicValid wordlists mnemonic = Ok b
    /\ (b = true <->
        detected <> []
        /\ forall lang, In lang detected ->
             exists e,
               V1.EntropyFromMnemonic (mnemonicOf wordlists lang) mnemonic
               = Ok e)
    /\ (b = true ->
        In (length (fst (SplitMnemonic mnemonic))) [12; 15; 18; 21; 24]%nat).
Proof.
  intros detected. unfold IsMnemonicValid.
  destruct (detect_parts wordlists mnemonic []) as [Hf _].
  fold detected in Hf. subst detected.
  destruct (DetectLanguage wordlists mnemonic []) as [ls found].
  cbn [fst snd] in *. subst found.
  destruct (validLoop_spec wordlists mnemonic ls) as [b [Hb Hiff]].
  assert (Hcount : ls <> [] ->
            (forall lang, In lang ls ->
               exists e,
                 V1.EntropyFromMnemonic (mnemonicOf wordlists lang) mnemonic
                 = Ok e) ->
            In (length (fst (SplitMnemonic mnemonic)))
               [12; 15; 18; 21; 24]%nat).
  { intros Hne Hall. destruct ls as [|l ls]; [congruence|].
    destruct (Hall l (or_introl eq_refl)) as [e He].
    destruct (EntropyFromMnemonic_Ok _ _ _ He) as [cs [_ [Hcs [Hn _]]]].
    rewrite Hn. simpl. lia. }
  destruct ls as [|l ls].
  - exists false. cbn [length Nat.ltb Nat.leb negb].
    split; [reflexivity|]. split; [|discriminate].
    split; [discriminate | intros [H _]; congruence].
  - exists b. cbn [length Nat.ltb Nat.leb negb]. split; [exact Hb|].
    split.
    + rewrite Hiff. split; [intros H; split; [discriminate | exact H]|].
      now intros [_ H].
    + intros Hbt. apply Hcount; [discriminate | now apply Hiff].
Qed.

(** X21. When no word of the table of a language is a word of another
    language, [IsMnemonicValid] answers true on every mnemonic that
    [EntropyToMnemonic] builds with that table (well-formed) from 16, 20,
    24, 28 or 32 bytes. *)
Theorem IsMnemonicValid_complete (wordlists : Language -> languageData)
    (lang : Language) (e : list byte) :
  wfData (wordlists lang) = true -> exclusive wordlists lang = true ->
  In (length e) [16; 20; 24; 28; 32]%nat ->
  (let* s := V1.EntropyToMnemonic (mnemonicOf wordlists lang) e in
   IsMnemonicValid wordlists s) = Ok true.
Proof.
  intros Hwfd Hex Hn.
  pose proof (mnemonicOf_wf wordlists lang Hwfd) as Hwf.
  set (m := mnemonicOf wordlists lang) in *.
  destruct (standard_size _ Hn) as [cs [Hcs Hlen]].
  rewrite (EntropyToMnemonic_spec m cs e (wfm_length m Hwf) Hcs Hlen).
  cbn [bind].
  set (buf := standardBuffer e).
  set (s := Join (packedWords m buf (3 * cs)) (delimiter m)).
  destruct (split_encoded m buf (3 * cs) Hwf) as [Hws [Hd Hk]].
  fold s in Hws, Hd.
  assert (Hj : snd (splitMnemonic s) = [japaneseSpace] -> lang = Japanese).
  { intros H. specialize (Hd H). unfold m in Hd.
    cbn [mnemonicOf delimiter] in Hd.
    destruct (decide (lang = Japanese)); [assumption | discriminate]. }
  rewrite <- Hws in Hk.
  destruct (detect_parts wordlists s []) as [Hf [Hnd [Hs Hc]]].
  specialize (Hc lang (or_introl eq_refl) Hj Hk).
  unfold IsMnemonicValid.
  destruct (DetectLanguage wordlists s []) as [ls found].
  cbn [fst snd] in *.
  assert (Hls : ls = [lang]).
  { apply NoDup_all_same; [assumption | assumption |].
    intros l Hl. destruct (Hs l Hl) as [_ Hw].
    assert (H0 : exists n, (3 * cs = S n)%nat) by (exists (3 * cs - 1)%nat; lia).
    destruct H0 as [n En].
    assert (Hhead : head (fst (splitMnemonic s))
                    = Some (nthWord m (indexAt buf 0))).
    { rewrite Hws. unfold packedWords. rewrite En. reflexivity. }
    apply (exclusive_spec wordlists lang l (nthWord m (indexAt buf 0)) Hex);
      [|now apply Hw].
    apply list_elem_of_In.
    eapply list_elem_of_lookup_2.
    apply (nthWord_lookup m (wfm_length m Hwf)), indexAt_range. }
  subst ls found. cbn [length Nat.ltb Nat.leb negb validLoop].
  rewrite NewMnemonic_WithLanguage. fold (mnemonicOf wordlists lang).
  fold m. unfold s, buf.
  now rewrite (EntropyFromMnemonic_spec m Hwf cs e Hcs Hlen).
Qed.

Lemma IsMnemonicValid_complete_witness :
  (let* s := V1.EntropyToMnemonic (mnemonicOf sampleWordlists Czech)
               sampleEntropy32 in
   IsMnemonicValid sampleWordlists s) = Ok true.
Proof.
  apply (IsMnemonicValid_complete sampleWordlists Czech sampleEntropy32).
  - vm_compute. reflexivity.
  - vm_cast_no_check (eq_refl true).
  - simpl. tauto.
Defined.

(* ------------------------------------------------------------------ *)
(** ** White space does not matter *)

Lemma validLoop_Normalize (wordlists : Language -> languageData)
    (mnemonic : gostring) (ls : list Language) :
  (forall m, V1.EntropyFromMnemonic m (NormalizeMnemonic mnemonic)
             = V1.EntropyFromMnemonic m mnemonic) ->
  validLoop wordlists (NormalizeMnemonic mnemonic) ls
  = validLoop wordlists mnemonic ls.
Proof.
  intros H. induction ls as [|l ls IH]; [reflexivity|].
  cbn [validLoop]. destruct (NewMnemonic wordlists [WithLanguage l]);
    [|reflexivity|reflexivity].
  rewrite H, IH. reflexivity.
Qed.

(** X22. The decoders, [DetectLanguage] and [IsMnemonicValid] look at a text
    through [SplitMnemonic] only: they answer on [NormalizeMnemonic] of a
    text what they answer on the text, whatever its white space is. *)
Theorem spacing_does_not_matter (wordlists : Language -> languageData)
    (m : Mnemonic) (mnemonic : gostring) (opts : list DetectLanguageOption) :
  let normal := NormalizeMnemonic mnemonic in
  V1.EntropyFromMnemonic m normal = V1.EntropyFromMnemonic m mnemonic
  /\ V2.EntropyFromMnemonic m normal = V2.EntropyFromMnemonic m mnemonic
  /\ V1.ArbitraryMnemonicToEntropy m normal
     = V1.ArbitraryMnemonicToEntropy m mnemonic
  /\ V2.ArbitraryMnemonicToEntropy m normal
     = V2.ArbitraryMnemonicToEntropy m mnemonic
  /\ DetectLanguage wordlists normal opts
     = DetectLanguage wordlists mnemonic opts
  /\ IsMnemonicValid wordlists normal = IsMnemonicValid wordlists mnemonic.
Proof.
  intros normal. subst normal.
  assert (H1 : forall m', V1.EntropyFromMnemonic m' (NormalizeMnemonic mnemonic)
                          = V1.EntropyFromMnemonic m' mnemonic).
  { intros m'. unfold V1.EntropyFromMnemonic.
    now rewrite SplitMnemonic_Normalize. }
  assert (HD : forall o, DetectLanguage wordlists (NormalizeMnemonic mnemonic) o
                         = DetectLanguage wordlists mnemonic o).
  { intros o. unfold DetectLanguage.
    change (splitMnemonic (NormalizeMnemonic mnemonic))
      with (SplitMnemonic (NormalizeMnemonic mnemonic)).
    change (splitMnemonic mnemonic) with (SplitMnemonic mnemonic).
    now rewrite SplitMnemonic_Normalize. }
  split; [apply H1|]. split.
  { unfold V2.EntropyFromMnemonic. now rewrite SplitMnemonic_Normalize. }
  split.
  { unfold V1.ArbitraryMnemonicToEntropy.
    now rewrite SplitMnemonic_Normalize. }
  split.
  { unfold V2.ArbitraryMnemonicToEntropy.
    now rewrite SplitMnemonic_Normalize. }
  split; [apply HD|].
  unfold IsMnemonicValid. rewrite HD.
  destruct (DetectLanguage wordlists mnemonic []) as [ls found].
  destruct (negb found); [reflexivity|].
  now apply validLoop_Normalize.
Qed.

(* ------------------------------------------------------------------ *)
(** ** mnemonic.go: [NewMnemonic] *)

(** X23. [NewMnemonic] never fails on the ten languages of the package: it
    returns the table of the language that the last [WithLanguage] option
    names (English when there is none), with the ideographic space as
    delimiter for Japanese and the ordinary space for every other
    language. *)
Theorem NewMnemonic_total (wordlists : Language -> languageData)
    (langs : list Language) :
  let lang := List.last langs English in
  NewMnemonic wordlists (map WithLanguage langs)
  = Ok (mnemonicOf wordlists lang)
  /\ (delimiter (mnemonicOf wordlists lang) = [japaneseSpace]
      <-> lang = Japanese)
  /\ (delimiter (mnemonicOf wordlists lang) = regularSpace
      <-> lang <> Japanese).
Proof.
  intros lang.
  assert (Hl : language (applyOptions (map WithLanguage langs)
                           {| language := English |}) = lang).
  { subst lang. unfold applyOptions.
    induction langs as [|l langs _] using rev_ind; [reflexivity|].
    rewrite map_app, fold_left_app, last_last. reflexivity. }
  split; [|split].
  - unfold NewMnemonic. rewrite Hl. unfold mnemonicOf.
    destruct lang; reflexivity.
  - cbn [mnemonicOf delimiter]. destruct (decide (lang = Japanese));
      split; try tauto; discriminate.
  - cbn [mnemonicOf delimiter]. destruct (decide (lang = Japanese));
      split; try tauto; try discriminate.
Qed.

(* ================================================================== *)
(** * The generalized variant: the two revisions side by side *)




(** C4, as stated, fails on src/mnemonic.go: 1025 zero bytes, 1028 after
    padding, are not refused with [ErrEntropyTooLarge] but encoded, as 771
    words. *)
Theorem byte_revision_accepts_1025_bytes :
  let m := sampleMnemonic English in
  (1024 < length (V1.padEntropy zeros1025))%nat
  /\ V1.ArbitraryEntropyToMnemonic m zeros1025 <> Err ErrEntropyTooLarge
  /\ exists s,
       V1.ArbitraryEntropyToMnemonic m zeros1025 = Ok s
       /\ length (fst (SplitMnemonic s)) = 771%nat.
Proof.
  intros m.
  assert (Hwf : wfMnemonic m = true) by (vm_compute; reflexivity).
  assert (E : V1.ArbitraryEntropyToMnemonic m zeros1025
              = Ok (Join (packedWords m (byteBuffer (V1.padEntropy zeros1025))
                            (3 * 257)) (delimiter m))).
  { apply (V1_encode_spec m zeros1025 257 (wfm_length m Hwf));
      vm_compute; congruence. }
  split; [vm_compute; repeat constructor|].
  split; [rewrite E; discriminate|].
  eexists. split; [exact E|].
  now rewrite (split_packedWords m Hwf), (packedWords_length m).
Qed.

(** C4, amended. Both revisions of the generalized encoder refuse empty
    input with [ErrInvalidEntropy] and encode 1024 bytes.  Above 1024 padded
    bytes (1025 bytes of input, for one) src/unnamed/part_002 answers
    [ErrEntropyTooLarge]; src/mnemonic.go has no size limit: it encodes every
    non-empty input and never answers [ErrEntropyTooLarge]. *)
Theorem generalized_size_limit (m : Mnemonic) (e : list byte) :
  length (wordList m) = 2048%nat ->
  let paddedBytes := length (V1.padEntropy e) in
  (length e = 0%nat ->
   V2.ArbitraryEntropyToMnemonic m e = Err ErrInvalidEntropy
   /\ V1.ArbitraryEntropyToMnemonic m e = Err ErrInvalidEntropy)
  /\ (length e = 1024%nat ->
      (exists s, V2.ArbitraryEntropyToMnemonic m e = Ok s)
      /\ (exists s, V1.ArbitraryEntropyToMnemonic m e = Ok s))
  /\ (length e <> 0%nat -> (paddedBytes <= 1024)%nat ->
      exists s, V2.ArbitraryEntropyToMnemonic m e = Ok s)
  /\ ((1024 < paddedBytes)%nat ->
      V2.ArbitraryEntropyToMnemonic m e = Err ErrEntropyTooLarge)
  /\ (length e = 1025%nat ->
      V2.ArbitraryEntropyToMnemonic m e = Err ErrEntropyTooLarge)
  /\ (length e <> 0%nat ->
      exists s, V1.ArbitraryEntropyToMnemonic m e = Ok s)
  /\ V1.ArbitraryEntropyToMnemonic m e <> Err ErrEntropyTooLarge.
Proof.
  intros Hm paddedBytes.
  destruct (padEntropy_spec e) as [k [pad [_ [Hp Hk]]]].
  fold paddedBytes in Hp.
  assert (H1 : length e <> 0%nat ->
               exists s, V1.ArbitraryEntropyToMnemonic m e = Ok s).
  { intros He. eexists. apply (V1_encode_spec m e k Hm He Hp). }
  assert (H0 : length e = 0%nat ->
               V1.ArbitraryEntropyToMnemonic m e = Err ErrInvalidEntropy).
  { intros He. unfold V1.ArbitraryEntropyToMnemonic. now rewrite He. }
  assert (H2 : length e <> 0%nat -> (paddedBytes <= 1024)%nat ->
               exists s, V2.ArbitraryEntropyToMnemonic m e = Ok s).
  { intros He Hmax. eexists.
    apply (V2_encode_spec m e k Hm He Hp). lia. }
  assert (Hbig : (1024 < paddedBytes)%nat ->
                 V2.ArbitraryEntropyToMnemonic m e = Err ErrEntropyTooLarge).
  { intros Hb. unfold V2.ArbitraryEntropyToMnemonic.
    destruct (Nat.eqb_spec (length e) 0) as [E0|N0]; [lia|].
    cbv zeta. fold paddedBytes.
    destruct (Nat.ltb_spec 1024 paddedBytes); [reflexivity | lia]. }
  split; [|split; [|split; [exact H2|split; [exact Hbig|split;
    [|split; [exact H1|]]]]]].
  - intros He. split; [|now apply H0].
    unfold V2.ArbitraryEntropyToMnemonic. now rewrite He.
  - intros He. split.
    + apply H2; lia.
    + apply H1. lia.
  - intros He. apply Hbig. lia.
  - destruct (Nat.eq_dec (length e) 0%nat) as [E0|N0].
    + rewrite (H0 E0). discriminate.
    + destruct (H1 N0) as [s E]. rewrite E. discriminate.
Qed.

Lemma generalized_size_limit_witness :
  let m := sampleMnemonic English in
  V2.ArbitraryEntropyToMnemonic m zeros1025 = Err ErrEntropyTooLarge
  /\ exists s, V1.ArbitraryEntropyToMnemonic m zeros1025 = Ok s.
Proof.
  intros m.
  destruct (generalized_size_limit m zeros1025)
    as [_ [_ [_ [_ [H2 [H1 _]]]]]].
  - vm_compute. reflexivity.
  - split; [apply H2; vm_compute; reflexivity|].
    apply H1. vm_compute. congruence.
Defined.
